(** * hethers.js: the provider [Formatter] and the seeded byte generator

    A shallow embedding of [packages/providers/lib.esm/formatter.js] (the
    field-coercion engine, its combinators, the scalar coercers and the
    record-level formatters) and of the seeded generator [randomBytes] /
    [randomNumber], followed by the properties of the specification that
    were checked against them.

    JavaScript values are a small inductive type; plain data objects and
    canonical records are finite maps from property names to values; the
    one object the code writes to (the argument of [transactionResponse])
    lives in a store and is referred to by its address. *)

From Stdlib Require Import ZArith QArith Ascii String List Lia Bool.
From Stdlib.Strings Require Import Byte.
From Stdlib Require Import DecimalString.
From stdpp Require Import base option gmap strings list fin_maps.

#[local] Set Warnings "-register-all".

Local Open Scope string_scope.
Local Open Scope list_scope.
Local Open Scope Z_scope.

(** ** JavaScript values *)

Module JS.

Definition loc := positive.

(** Numbers that reach this code are the integers of decoded RPC payloads
    and the results of [BigNumber.toNumber], all within the safe-integer
    range, so a number is a [Z]. The division by 2 of the legacy chain id
    is computed in [Q]; the arithmetic of the generator, whose bounds are
    any numbers, is computed in doubles ([Number]). *)
Inductive value : Type :=
  | VUndef
  | VNull
  | VBool (b : bool)
  | VNum (n : Z)
  | VStr (s : string)
  | VBig (n : Z)                        (* a BigNumber instance *)
  | VArr (xs : list value)
  | VObj (o : gmap string value)        (* a plain data object, by value *)
  | VRef (l : loc).                     (* a caller-owned mutable object *)

Abbreviation obj := (gmap string value).
Abbreviation heap := (gmap loc (gmap string value)).

(** [object[key]]: an absent property reads as [undefined]. *)
Definition get (o : gmap string value) (key : string) : value :=
  default VUndef (o !! key).

(** [v == null] *)
Definition isNullish (v : value) : bool :=
  match v with VUndef | VNull => true | _ => false end.

(** [v === undefined] *)
Definition isUndefined (v : value) : bool :=
  match v with VUndef => true | _ => false end.

(** General truthiness, [!!v]. *)
Definition truthy (v : value) : bool :=
  match v with
  | VUndef | VNull => false
  | VBool b => b
  | VNum n => negb (Z.eqb n 0)
  | VStr s => negb (String.eqb s EmptyString)
  | _ => true
  end.

(** Thrown errors. [checkKey] and [checkValue] are the two properties that
    [Formatter.check] writes onto an error on its way out. *)
Record error : Type := mkError {
  message : string;
  argument : option value;
  checkKey : option string;
  checkValue : option value
}.

Definition newError (msg : string) : error := mkError msg None None None.

(** [logger.throwArgumentError(message, name, value)] *)
Definition argumentError (msg : string) (v : value) : error :=
  mkError msg (Some v) None None.

Definition typeError (msg : string) : error := mkError msg None None None.

(** The outcome of a call: a returned value or a thrown error. *)
Inductive res (A : Type) : Type :=
  | Ok (a : A)
  | Throw (e : error).
Arguments Ok {A} a.
Arguments Throw {A} e.

Definition bind {A B} (m : res A) (k : A -> res B) : res B :=
  match m with Ok a => k a | Throw e => Throw e end.

Definition isOk {A} (m : res A) : bool :=
  match m with Ok _ => true | Throw _ => false end.

End JS.
Export JS.

(** [res] is an error monad; the code below is written with stdpp's
    [x ← m; k] for "evaluate [m]; if it throws, the throw goes on up". *)
#[global] Instance res_ret : MRet res := fun _ a => Ok a.
#[global] Instance res_bind : MBind res := fun _ _ k m => bind m k.

(** ** Strings and hex utilities *)

Module Bytes.

Definition isDigit (c : ascii) : bool :=
  let n := N_of_ascii c in (N.leb 48 n && N.leb n 57)%bool.

Definition isHexDigit (c : ascii) : bool :=
  let n := N_of_ascii c in
  ((N.leb 48 n && N.leb n 57) || (N.leb 65 n && N.leb n 70)
   || (N.leb 97 n && N.leb n 102))%bool.

Fixpoint allChars (p : ascii -> bool) (s : string) : bool :=
  match s with
  | EmptyString => true
  | String c rest => (p c && allChars p rest)%bool
  end.

(** [String.prototype.toLowerCase], on the ASCII letters; it is only ever
    applied to strings that passed [isHexString]. *)
Definition lowerChar (c : ascii) : ascii :=
  let n := N_of_ascii c in
  if (N.leb 65 n && N.leb n 90)%bool then ascii_of_N (n + 32) else c.

Fixpoint toLowerCase (s : string) : string :=
  match s with
  | EmptyString => EmptyString
  | String c rest => String (lowerChar c) (toLowerCase rest)
  end.

(** [s.substring(0, 2)] and [s.substring(2)] *)
Definition prefix2 (s : string) : string :=
  match s with
  | String a (String b _) => String a (String b EmptyString)
  | _ => s
  end.

Definition drop2 (s : string) : string :=
  match s with
  | String _ (String _ rest) => rest
  | _ => EmptyString
  end.

Definition strlen (s : string) : Z := Z.of_nat (String.length s).

(** [s.indexOf(c) !== -1] *)
Fixpoint containsChar (c : ascii) (s : string) : bool :=
  match s with
  | EmptyString => false
  | String d rest => (Ascii.eqb c d || containsChar c rest)%bool
  end.

(** Modelled from the spec: [isHexString] of @ethersproject/bytes is not
    among the sources; section 6 names it as the hex-string validity check
    with an optional byte-length check. A value is a hex string when it is
    a string matching [^0x[0-9A-Fa-f]*$]; with a (non-zero) byte length it
    must also have exactly [2 + 2 * length] characters. *)
Definition isHexStr (s : string) : bool :=
  match s with
  | String "0" (String "x" rest) => allChars isHexDigit rest
  | _ => false
  end.

Definition isHexString (v : value) (length : option Z) : bool :=
  match v with
  | VStr s =>
      (isHexStr s &&
       match length with
       | Some n => if Z.eqb n 0 then true else Z.eqb (strlen s) (2 + 2 * n)
       | None => true
       end)%bool
  | _ => false
  end.

(** Modelled from the spec: [hexDataLength] of @ethersproject/bytes (the
    byte-length utility of section 6) is not among the sources. On a
    string it answers [null] unless the string is a hex string with an even
    number of digits, and the number of bytes otherwise. *)
Definition hexDataLength (s : string) : option Z :=
  if (negb (isHexStr s) || negb (Z.eqb (strlen s mod 2) 0))%bool then None
  else Some ((strlen s - 2) / 2).

Fixpoint zeros (n : nat) : string :=
  match n with
  | O => EmptyString
  | S k => String "0" (zeros k)
  end.

(** Modelled from the spec: [hexZeroPad] of @ethersproject/bytes (the
    zero-left-pad utility of section 6) is not among the sources. It
    rejects what is not a hex string or is longer than [length] bytes and
    puts zeros after the prefix until the string has [length] bytes. *)
Definition hexZeroPad (v : value) (length : Z) : res string :=
  match v with
  | VStr s =>
      if negb (isHexStr s) then Throw (argumentError "invalid hex string" v)
      else if Z.ltb (2 * length + 2) (strlen s)
      then Throw (argumentError "value out of range" (VNum length))
      else Ok ("0x" ++ zeros (Z.to_nat (2 * length + 2 - strlen s))
                    ++ drop2 s)%string
  | _ => Throw (argumentError "invalid hex string" v)
  end.

(** Modelled from the spec: [BigNumber.prototype.toNumber] of
    @ethersproject/bignumber is not among the sources; section 6 has it
    fail outside the safe-integer range (a magnitude of 53 bits at most). *)
Definition toNumber (n : Z) : res Z :=
  if Z.ltb (Z.abs n) (2 ^ 53) then Ok n
  else Throw (mkError "overflow" (Some (VBig n)) None None).

(** The decimal digits of an integer, as [Number.prototype.toString] and
    [BigNumber.prototype.toString] print it. *)
Definition decimal (n : Z) : string := NilZero.string_of_int (Z.to_int n).

Fixpoint joinWith (sep : string) (parts : list string) : string :=
  match parts with
  | [] => EmptyString
  | [x] => x
  | x :: rest => (x ++ sep ++ joinWith sep rest)%string
  end.

(** [value.toString()]: a property access, so it throws on [null] and
    [undefined]; arrays join their elements with commas, printing [null]
    and [undefined] elements as the empty string. *)
Fixpoint toStringOr (dflt : string) (v : value) : string :=
  match v with
  | VUndef | VNull => dflt
  | VBool true => "true"
  | VBool false => "false"
  | VNum n => decimal n
  | VStr s => s
  | VBig n => decimal n
  | VArr xs => joinWith "," (map (toStringOr EmptyString) xs)
  | VObj _ | VRef _ => "[object Object]"
  end.

Definition toString (v : value) : res string :=
  if isNullish v
  then Throw (typeError "Cannot read properties of null or undefined")
  else Ok (toStringOr EmptyString v).

(** [s.substring(n)] *)
Fixpoint dropChars (n : nat) (s : string) : string :=
  match n, s with
  | O, _ => s
  | S k, String _ rest => dropChars k rest
  | S _, EmptyString => EmptyString
  end.

(** Modelled from the spec: [hexDataSlice] of @ethersproject/bytes (the
    slice utility of section 6) is not among the sources. On a string it
    rejects what is not a hex string with an even number of digits and
    otherwise answers the prefix followed by the digits from byte [offset]
    on. *)
Definition hexDataSlice (s : string) (offset : Z) : res string :=
  if (negb (isHexStr s) || negb (Z.eqb (strlen s mod 2) 0))%bool
  then Throw (argumentError "invalid hexData" (VStr s))
  else Ok ("0x" ++ dropChars (Z.to_nat (2 + 2 * offset)) s)%string.

(** The digit of [HexCharacters = "0123456789abcdef"] at index [n]. *)
Definition hexChar (n : N) : ascii :=
  if N.ltb n 10 then ascii_of_N (48 + n) else ascii_of_N (87 + n).

Fixpoint hexDigits (bs : list byte) : string :=
  match bs with
  | [] => EmptyString
  | b :: rest =>
      String (hexChar (N.div (Byte.to_N b) 16))
        (String (hexChar (N.modulo (Byte.to_N b) 16)) (hexDigits rest))
  end.

(** Modelled from the spec: [hexlify] of @ethersproject/bytes (the hex
    encoding of section 4.2) is not among the sources. On bytes it answers
    the prefix and two lower-case digits for each byte. *)
Definition hexlify (bs : list byte) : string := ("0x" ++ hexDigits bs)%string.

(** [ToString(v)], as string concatenation applies it. *)
Definition stringOf (v : value) : string :=
  match v with
  | VUndef => "undefined"
  | VNull => "null"
  | _ => toStringOr EmptyString v
  end.

(** [v != '0x'] is the negation of this loose equality: a string is
    compared as it is, an object through its [toString], and a number or a
    boolean with [Number('0x')], which is [NaN]. *)
Definition looseEq0x (v : value) : bool :=
  match v with
  | VStr s => String.eqb s "0x"
  | VArr _ | VObj _ | VBig _ | VRef _ =>
      String.eqb (toStringOr EmptyString v) "0x"
  | _ => false
  end.

End Bytes.
Export Bytes.

(** A coercer takes a raw value and returns the canonical one or throws. *)
Abbreviation coercer := (value -> res value).

(** A format is a JavaScript object whose properties are coercers; it is
    kept as the list of its properties in [for ... in] order. *)
Abbreviation format := (list (string * (value -> res value))).

(** ** The field-coercion engine (formatter.js, 361-408) *)

Module Formatter.

(** The [catch] block of [check]: the two assignments onto the error. *)
Definition annotate (key : string) (raw : value) (e : error) : error :=
  mkError (message e) (argument e) (Some key) (Some raw).

(** The loop of [Formatter.check], started from the record [result] built
    so far. Next to the outcome it returns the keys whose coercer was
    called, in call order. *)
Fixpoint check_loop (fmt : format) (object : gmap string value)
    (result : gmap string value) (called : list string)
  : list string * res (gmap string value) :=
  match fmt with
  | [] => (called, Ok result)
  | (key, f) :: rest =>
      match f (get object key) with
      | Ok value =>
          check_loop rest object
            (if isUndefined value then result else <[key := value]> result)
            (called ++ [key])
      | Throw e => (called ++ [key], Throw (annotate key (get object key) e))
      end
  end.

Definition check_run (fmt : format) (object : gmap string value) :=
  check_loop fmt object ∅ [].

(** [Formatter.check(format, object)] *)
Definition check (fmt : format) (object : gmap string value)
  : res (gmap string value) :=
  snd (check_run fmt object).

(** The coercer calls made by [Formatter.check(format, object)]. *)
Definition check_calls (fmt : format) (object : gmap string value)
  : list string :=
  fst (check_run fmt object).

(** [Formatter.allowNull(format, nullValue)]; a call that leaves
    [nullValue] out passes [VUndef]. *)
Definition allowNull (f : coercer) (nullValue : value) : coercer :=
  fun value => if isNullish value then Ok nullValue else f value.

(** [Formatter.allowFalsish(format, replaceValue)] *)
Definition allowFalsish (f : coercer) (replaceValue : value) : coercer :=
  fun value => if truthy value then f value else Ok replaceValue.

(** The [forEach] of [arrayOf]: the elements are coerced left to right and
    the first throw ends the call. *)
Fixpoint mapM (f : coercer) (xs : list value) : res (list value) :=
  match xs with
  | [] => Ok []
  | x :: rest => y ← f x; ys ← mapM f rest; Ok (y :: ys)
  end.

(** [Formatter.arrayOf(format)] *)
Definition arrayOf (f : coercer) : coercer :=
  fun array =>
    match array with
    | VArr xs => ys ← mapM f xs; Ok (VArr ys)
    | _ => Throw (newError "not an array")
    end.

(** *** The imported collaborators

    [getAddress] and [getAddressFromAccount] (@hethers/address),
    [accessListify] (@hethers/transactions) and [BigNumber.from]
    (@ethersproject/bignumber) are black boxes: every result below holds
    for whatever they return or throw. *)
Class Collaborators : Type := {
  getAddress : string -> res string;
  getAddressFromAccount : string -> res string;
  accessListify : value -> res value;
  BigNumber_from : value -> res Z
}.

Section Coercers.
Context `{Collaborators}.

(** *** Scalar coercers (formatter.js, 107-220) *)

(** [n] decimal digits at the head of [s]; the rest of [s] if so. *)
Fixpoint digits (n : nat) (s : string) : option string :=
  match n with
  | O => Some s
  | S k =>
      match s with
      | String c rest => if isDigit c then digits k rest else None
      | EmptyString => None
      end
  end.

(** The pattern [([0-9]){10}[.]([0-9]){9}] matched at the head of [s]. *)
Definition matchHere (s : string) : bool :=
  match digits 10 s with
  | Some (String "." rest) => bool_decide (is_Some (digits 9 rest))
  | _ => false
  end.

(** [s.match(/([0-9]){10}[.]([0-9]){9}/)] is not [null]: the pattern has
    no anchors, so the match may start at any offset. *)
Fixpoint matchAnywhere (s : string) : bool :=
  (matchHere s ||
   match s with
   | EmptyString => false
   | String _ rest => matchAnywhere rest
   end)%bool.

(** The pattern as the specification writes it, [^\d{10}\.\d{9}$]: the
    whole string is ten digits, a dot and nine digits. *)
Definition matchWhole (s : string) : bool :=
  match digits 10 s with
  | Some (String "." rest) => bool_decide (digits 9 rest = Some EmptyString)
  | _ => false
  end.

Definition timestamp (value : value) : res JS.value :=
  match value with
  | VStr s =>
      if negb (matchAnywhere s)
      then Throw (argumentError "bad timestamp format" value)
      else Ok value
  | _ => Throw (typeError "value.match is not a function")
  end.

Definition accessList (accessList : value) : res value :=
  accessListify (if truthy accessList then accessList else VArr []).

Definition isStr0x (v : value) : bool :=
  match v with VStr s => String.eqb s "0x" | _ => false end.

Definition number (number : value) : res value :=
  if isStr0x number then Ok (VNum 0)
  else b ← BigNumber_from number; n ← toNumber b; Ok (VNum n).

Definition type (number : value) : res value :=
  if (isStr0x number || isNullish number)%bool then Ok (VNum 0)
  else b ← BigNumber_from number; n ← toNumber b; Ok (VNum n).

Definition bigNumber (value : value) : res JS.value :=
  b ← BigNumber_from value; Ok (VBig b).

(** [hex(value, strict)]; a call without [strict] passes [false]. *)
Definition hex (value : value) (strict : bool) : res string :=
  match value with
  | VStr s =>
      let s' := if (negb strict && negb (String.eqb (prefix2 s) "0x"))%bool
                then ("0x" ++ s)%string else s in
      if isHexString (VStr s') None then Ok (toLowerCase s')
      else Throw (argumentError "invalid hash" (VStr s'))
  | _ => Throw (argumentError "invalid hash" value)
  end.

Definition data (value : value) (strict : bool) : res string :=
  result ← hex value strict;
  if negb (Z.eqb (strlen result mod 2) 0)
  then Throw (newError ("invalid data; odd-length - " ++ toStringOr EmptyString value))
  else Ok result.

Definition address (value : value) : res JS.value :=
  a ← toString value;
  a ← (if containsChar "." a then getAddressFromAccount a else Ok a);
  r ← getAddress a;
  Ok (VStr r).

Definition contractAddress (value : value) : JS.value := value.

Definition hash48 (value : value) (strict : bool) : res string :=
  result ← hex value strict;
  if negb (bool_decide (hexDataLength result = Some 48))
  then Throw (argumentError "invalid hash" value)
  else Ok result.

Definition hash32 (value : value) (strict : bool) : res string :=
  result ← hex value strict;
  if negb (bool_decide (hexDataLength result = Some 32))
  then Throw (argumentError "invalid topics hash" value)
  else Ok result.

Definition uint256 (value : value) : res JS.value :=
  if negb (isHexString value None) then Throw (newError "invalid uint256")
  else r ← hexZeroPad value 32; Ok (VStr r).

(** A scalar coercer as it sits in a format: called with the value alone
    ([strict] left out), its string result a JavaScript string. *)
Definition bound (f : value -> bool -> res string) : coercer :=
  fun v => r ← f v false; Ok (VStr r).

Definition strictData : coercer := fun v => r ← data v true; Ok (VStr r).

(** *** The formats (formatter.js, 15-88) *)

Definition formats_transaction : format :=
  [ ("hash", bound hash48);
    ("accessList", allowNull accessList VNull);
    ("from", address);
    ("gasLimit", bigNumber);
    ("to", allowNull address VNull);
    ("value", bigNumber);
    ("data", bound data);
    ("r", allowNull uint256 VUndef);
    ("s", allowNull uint256 VUndef);
    ("v", allowNull number VUndef) ].

Definition formats_transactionRequest : format :=
  [ ("from", allowNull address VUndef);
    ("nonce", allowNull number VUndef);
    ("gasLimit", allowNull bigNumber VUndef);
    ("gasPrice", allowNull bigNumber VUndef);
    ("maxPriorityFeePerGas", allowNull bigNumber VUndef);
    ("maxFeePerGas", allowNull bigNumber VUndef);
    ("to", allowNull address VUndef);
    ("value", allowNull bigNumber VUndef);
    ("data", allowNull strictData VUndef);
    ("type", allowNull number VUndef);
    ("accessList", allowNull accessList VNull) ].

Definition formats_receiptLog : format :=
  [ ("transactionIndex", number);
    ("transactionHash", bound hash48);
    ("address", address);
    ("topics", arrayOf (bound hash32));
    ("data", bound data);
    ("logIndex", number) ].

(** The properties of the raw value that [check] reads through
    [object[key]]. On [null] and [undefined] the read throws, and so does
    the second read in the [catch] block: a [TypeError] without [checkKey]
    leaves [check]. No key of a format is a property of a primitive, an
    array or a BigNumber. A reference is opaque outside
    [transactionResponse], which is the only place with a store. *)
Definition properties (v : value) : res (gmap string value) :=
  match v with
  | VObj o => Ok o
  | VUndef | VNull =>
      Throw (typeError "Cannot read properties of null or undefined")
  | VRef _ => Throw (typeError "reference outside the store")
  | _ => Ok ∅
  end.

(** *** Record-level formatters (formatter.js, 222-289) *)

Definition transactionRequest (value : value) : res JS.value :=
  o ← properties value; r ← check formats_transactionRequest o; Ok (VObj r).

Definition receiptLog (value : value) : res JS.value :=
  o ← properties value; r ← check formats_receiptLog o; Ok (VObj r).

Definition formats_receipt : format :=
  [ ("to", allowNull address VNull);
    ("from", allowNull address VNull);
    ("contractAddress", allowNull address VNull);
    ("timestamp", timestamp);
    ("gasUsed", bigNumber);
    ("logsBloom", allowNull (bound data) VUndef);
    ("transactionHash", bound hash48);
    ("logs", arrayOf receiptLog);
    ("cumulativeGasUsed", bigNumber);
    ("status", allowNull number VUndef);
    ("type", type) ].

Definition receipt (value : gmap string value) : res (gmap string JS.value) :=
  result ← check formats_receipt value;
  if negb (isNullish (get result "status"))
  then Ok (<["byzantium" := VBool true]> result)
  else Ok result.

(** *** The store

    [transactionResponse] assigns to properties of its argument, so the
    argument is an address into a store of objects and the function is a
    computation that may change the store and may throw; what was written
    before a throw stays written. *)
Definition M (A : Type) : Type := heap -> heap * res A.

#[export] Instance M_ret : MRet M := fun _ a h => (h, Ok a).
#[export] Instance M_bind : MBind M := fun _ _ k m h =>
  match m h with
  | (h', Ok a) => k a h'
  | (h', Throw e) => (h', Throw e)
  end.

Definition lift {A} (r : res A) : M A := fun h => (h, r).

Definition dangling : error := typeError "no object at this address".

(** [object.key] *)
Definition readProp (l : loc) (key : string) : M value := fun h =>
  match h !! l with
  | Some o => (h, Ok (get o key))
  | None => (h, Throw dangling)
  end.

(** [object.key = v] *)
Definition writeProp (l : loc) (key : string) (v : value) : M unit := fun h =>
  match h !! l with
  | Some o => (<[l := <[key := v]> o]> h, Ok tt)
  | None => (h, Throw dangling)
  end.

Definition readObject (l : loc) : M (gmap string value) := fun h =>
  match h !! l with
  | Some o => (h, Ok o)
  | None => (h, Throw dangling)
  end.

Definition when (b : bool) (m : M unit) : M unit :=
  if b then m else mret tt.

Definition AddressZero : string :=
  "0x0000000000000000000000000000000000000000".

(** [v === n] for a number literal [n] *)
Definition isNum (v : value) (n : Z) : bool :=
  match v with VNum m => Z.eqb m n | _ => false end.

(** [typeof v === "number"] *)
Definition isNumber (v : value) : bool :=
  match v with VNum _ => true | _ => false end.

(** [parseInt(x)] of a number prints it and reads the digits before the
    decimal point: the number without its fraction (for the magnitudes
    JavaScript prints without an exponent). *)
Definition parseInt (q : Q) : Z := Z.quot (Qnum q) (Z.pos (Qden q)).

(** formatter.js, 264-268, for a numeric [result.v]. *)
Definition legacyChainId (v : Z) : Z :=
  let chainId := ((inject_Z v - inject_Z 35) / inject_Z 2)%Q in
  let chainId := if Qlt_le_dec chainId 0 then 0%Q else chainId in
  parseInt chainId.

(** [isHexString(chainId)] then [BigNumber.from(chainId).toNumber()] *)
Definition hexToNumber (chainId : value) : M value :=
  if isHexString chainId None
  then b ← lift (BigNumber_from chainId); n ← lift (toNumber b); mret (VNum n)
  else mret chainId.

(** formatter.js, 226-245: the renaming and defaulting done on the raw
    object itself. *)
Definition renameFields (transaction : loc) : M unit :=
  gas ← readProp transaction "gas";
  gasLimit ← readProp transaction "gasLimit";
  when (negb (isNullish gas) && isNullish gasLimit)
    (writeProp transaction "gasLimit" gas);;
  to ← readProp transaction "to";
  zero ← (if truthy to
          then b ← lift (BigNumber_from to); mret (Z.eqb b 0)
          else mret false);
  when zero (writeProp transaction "to" (VStr AddressZero));;
  input ← readProp transaction "input";
  data ← readProp transaction "data";
  when (negb (isNullish input) && isNullish data)
    (writeProp transaction "data" input);;
  to ← readProp transaction "to";
  creates ← readProp transaction "creates";
  when (isNullish to && isNullish creates)
    (writeProp transaction "creates" (contractAddress (VRef transaction)));;
  type ← readProp transaction "type";
  accessList ← readProp transaction "accessList";
  when ((isNum type 1 || isNum type 2) && isNullish accessList)
    (writeProp transaction "accessList" (VArr [])).

(** formatter.js, 247-274: the chain id put on the record. [result.v] is
    absent or a number, being the result of [allowNull(number)]. *)
Definition withChainId (transaction : loc) (result : gmap string value)
  : M (gmap string value) :=
  chainId ← readProp transaction "chainId";
  if negb (isNullish chainId) then
    chainId ← hexToNumber chainId;
    mret (<["chainId" := chainId]> result)
  else
    chainId ← readProp transaction "networkId";
    chainId ← (if (isNullish chainId && isNullish (get result "v"))%bool
               then readProp transaction "chainId" else mret chainId);
    chainId ← hexToNumber chainId;
    let chainId :=
      if (negb (isNumber chainId) && negb (isNullish (get result "v")))%bool
      then match get result "v" with
           | VNum v => VNum (legacyChainId v)
           | _ => chainId
           end
      else chainId in
    let chainId := if negb (isNumber chainId) then VNum 0 else chainId in
    mret (<["chainId" := chainId]> result).

Definition transactionResponse (transaction : loc) : M (gmap string value) :=
  renameFields transaction;;
  object ← readObject transaction;
  result ← lift (check formats_transaction object);
  withChainId transaction result.

(** *** The remaining coercers and formatters *)

(** [v === s] for a string literal [s] *)
Definition isStr (v : value) (s : string) : bool :=
  match v with VStr t => String.eqb t s | _ => false end.

(** formatter.js, 135-149. The message of the error is the value after its
    conversion to lower case. *)
Definition boolean (value : value) : res JS.value :=
  match value with
  | VBool b => Ok (VBool b)
  | VStr s =>
      let value := toLowerCase s in
      if String.eqb value "true" then Ok (VBool true)
      else if String.eqb value "false" then Ok (VBool false)
      else Throw (newError ("invalid boolean - " ++ value))
  | _ => Throw (newError ("invalid boolean - " ++ stringOf value))
  end.

(** formatter.js, 177-183. [AddressZero] of @hethers/constants is the
    address of 40 zero digits. *)
Definition callAddress (value : value) : res JS.value :=
  match value with
  | VStr s =>
      if negb (isHexString value (Some 32)) then Ok VNull
      else
        sliced ← hexDataSlice s 12;
        address ← getAddress sliced;
        Ok (if String.eqb address AddressZero then VNull else VStr address)
  | _ => Ok VNull
  end.

(** formatter.js, 204-214: the conversion to a BigNumber is not inside the
    [try], the conversion to a number is. *)
Definition difficulty (value : value) : res JS.value :=
  if isNullish value then Ok VNull
  else
    v ← BigNumber_from value;
    match toNumber v with
    | Ok n => Ok (VNum n)
    | Throw _ => Ok VNull
    end.

(** formatter.js, 346-354; [Array.prototype.map] visits the elements from
    left to right and the first throw ends the call. *)
Fixpoint topics (value : value) : res JS.value :=
  match value with
  | VArr xs =>
      ys ← (fix each (xs : list JS.value) : res (list JS.value) :=
              match xs with
              | [] => Ok []
              | x :: rest => y ← topics x; ys ← each rest; Ok (y :: ys)
              end) xs;
      Ok (VArr ys)
  | VUndef | VNull => Ok VNull
  | _ => r ← hash32 value true; Ok (VStr r)
  end.

Definition formats_filter : format :=
  [ ("fromTimestamp", allowNull timestamp VUndef);
    ("toTimestamp", allowNull timestamp VUndef);
    ("address", allowNull address VUndef);
    ("topics", allowNull topics VUndef) ].

Definition formats_filterLog : format :=
  [ ("timestamp", timestamp);
    ("address", address);
    ("data", allowFalsish (bound data) (VStr "0x"));
    ("topics", arrayOf (bound hash32));
    ("transactionHash", allowNull (bound hash48) VUndef);
    ("logIndex", number);
    ("transactionIndex", number) ].

Definition filter (value : gmap string value) : res (gmap string JS.value) :=
  check formats_filter value.

Definition filterLog (value : gmap string value)
  : res (gmap string JS.value) :=
  check formats_filterLog value.

(** The object literal of [logsMapper] (formatter.js, 92-101): all seven
    properties are set, to [undefined] where the log has none. *)
Definition mappedLog (log : value) : res JS.value :=
  o ← properties log;
  Ok (VObj (list_to_map
    [ ("timestamp", get o "timestamp");
      ("address", get o "address");
      ("data", get o "data");
      ("topics", get o "topics");
      ("transactionHash", VNull);
      ("logIndex", get o "index");
      ("transactionIndex", get o "index") ])).

(** formatter.js, 89-105; [forEach] is a method of arrays only. *)
Definition logsMapper (values : value) : res JS.value :=
  match values with
  | VArr xs => logs ← mapM mappedLog xs; Ok (VArr logs)
  | _ => Throw (typeError "values.forEach is not a function")
  end.

(** [x ? x : dflt] *)
Definition orElse (x dflt : value) : value := if truthy x then x else dflt.

(** formatter.js, 290-310; the properties of the literal are evaluated in
    the order they are written, [gasLimit] before [value]. *)
Definition responseFromRecord (record : gmap string value)
  : res (gmap string JS.value) :=
  gasLimit ← (if isUndefined (get record "gas_limit") then Ok VNull
              else b ← BigNumber_from (get record "gas_limit"); Ok (VBig b));
  value ← (b ← BigNumber_from (orElse (get record "amount") (VNum 0));
           Ok (VBig b));
  Ok (list_to_map
    [ ("chainId", orElse (get record "chainId") VNull);
      ("hash", get record "hash");
      ("timestamp", get record "timestamp");
      ("transactionId", orElse (get record "transactionId") VNull);
      ("from", get record "from");
      ("to", orElse (get record "to") VNull);
      ("data", orElse (get record "call_result") VNull);
      ("gasLimit", gasLimit);
      ("value", value);
      ("customData", VObj (list_to_map
         [ ("gas_used", orElse (get record "gas_used") VNull);
           ("logs", orElse (get record "logs") VNull);
           ("result", orElse (get record "result") VNull);
           ("accountAddress", orElse (get record "accountAddress") VNull);
           ("transfersList", orElse (get record "transfersList") (VArr [])) ]));
      ("wait", VNull) ]).

(** [v?.key] *)
Definition optional (v : value) (key : string) : res JS.value :=
  if isNullish v then Ok VUndef else o ← properties v; Ok (get o key).

(** The object literal of the [forEach] in [receiptFromResponse]
    (formatter.js, 318-326). *)
Definition responseLog (response : gmap string value) (log : value)
  : res JS.value :=
  o ← properties log;
  Ok (VObj (list_to_map
    [ ("timestamp", get response "timestamp");
      ("address", get o "address");
      ("data", get o "data");
      ("topics", get o "topics");
      ("transactionHash", get response "hash");
      ("logIndex", get o "index");
      ("transactionIndex", get o "index") ])).

(** formatter.js, 311-345. *)
Definition receiptFromResponse (response : gmap string value)
  : res (gmap string JS.value) :=
  let contractAddress :=
    if negb (looseEq0x (get response "data")) then get response "to"
    else VNull in
  let to :=
    if negb (looseEq0x (get response "data")) then VNull
    else get response "to" in
  rawLogs ← optional (get response "customData") "logs";
  logs ← (if isNullish rawLogs then Ok []
          else match rawLogs with
               | VArr xs => mapM (responseLog response) xs
               | _ => Throw (typeError "forEach is not a function")
               end);
  gasUsed ← optional (get response "customData") "gas_used";
  cumulativeGasUsed ← optional (get response "customData") "gas_used";
  result ← optional (get response "customData") "result";
  accountAddress ← optional (get response "customData") "accountAddress";
  Ok (list_to_map
    [ ("to", to);
      ("from", get response "from");
      ("timestamp", get response "timestamp");
      ("contractAddress", contractAddress);
      ("gasUsed", gasUsed);
      ("logsBloom", VNull);
      ("transactionId", get response "transactionId");
      ("transactionHash", get response "hash");
      ("logs", VArr logs);
      ("cumulativeGasUsed", cumulativeGasUsed);
      ("type", VNum 0);
      ("byzantium", VBool true);
      ("status", VNum (if isStr result "SUCCESS" then 1 else 0));
      ("accountAddress", orElse accountAddress VNull) ]).

End Coercers.

End Formatter.

(** ** JavaScript numbers in arithmetic (IEEE 754 binary64)

    The generator computes with the operators [-], [*], [/] and [+] on
    numbers, which are doubles. A finite number is [m * 2^e] for two
    integers, the significand and the exponent; a double holds the ones
    whose significand fits 53 bits. An operator computes the exact result
    and rounds it to the nearest double, and of two doubles that are as
    near to the one whose significand is even. The range of the exponent
    (overflow to [Infinity] from 2^1024 on, gradual underflow below
    2^-1022) is not modelled; the generator leaves it for no bounds below
    2^1000. *)

Module Number.

(** [(m, e)] stands for [m * 2^e]; what [round53] returns has a
    significand of at most 53 bits. *)
Definition double : Type := Z * Z.

(** The integer nearest to [n / d], for [0 < d]; of two that are as near,
    the even one. *)
Definition nearestEven (n d : Z) : Z :=
  let q := n / d in
  match 2 * (n mod d) ?= d with
  | Lt => q
  | Gt => q + 1
  | Eq => if Z.even q then q else q + 1
  end.

(** The number of bits that a significand has beyond 53. *)
Definition excess (m : Z) : Z := Z.log2 (Z.abs m) - 52.

(** Rounding to the nearest double: a significand of more than 53 bits
    loses the bits beyond them. *)
Definition round53 (x : double) : double :=
  let '(m, e) := x in
  let s := excess m in
  if Z.leb s 0 then (m, e)
  else (Z.sgn m * nearestEven (Z.abs m) (2 ^ s), e + s).

(** The number that an integer denotes. *)
Definition ofZ (z : Z) : double := round53 (z, 0).

(** [x + y], [x - y] and [x * y] *)
Definition add (x y : double) : double :=
  let e := Z.min (snd x) (snd y) in
  round53 (fst x * 2 ^ (snd x - e) + fst y * 2 ^ (snd y - e), e).

Definition sub (x y : double) : double :=
  let e := Z.min (snd x) (snd y) in
  round53 (fst x * 2 ^ (snd x - e) - fst y * 2 ^ (snd y - e), e).

Definition mul (x y : double) : double :=
  round53 (fst x * fst y, snd x + snd y).

(** [x / 2^k]: a division by a power of two lowers the exponent and rounds
    nothing. *)
Definition divPow2 (x : double) (k : Z) : double := (fst x, snd x - k).

(** The greatest integer that is not above [x]. *)
Definition toZ (x : double) : Z :=
  let '(m, e) := x in
  if Z.leb 0 e then m * 2 ^ e else m / 2 ^ (- e).

(** [Math.floor(x)], an integer and a double as [x] is one. *)
Definition floor (x : double) : double := (toZ x, 0).

(** The integer that the double nearest to the integer [z] holds. *)
Definition roundZ (z : Z) : Z := toZ (ofZ z).

(** The value of a number in units of [2^-K], for numbers that are
    multiples of it. *)
Definition scaled (K : Z) (x : double) : Z := fst x * 2 ^ (snd x + K).

End Number.

(** ** The seeded generator (randomBytes, randomHexString, randomNumber) *)

Module Random.

(** [hethers.utils.keccak256] and [hethers.utils.toUtf8Bytes] are
    imported; the digest is kept as the bytes [arrayify] makes of it. *)
Class Hashing : Type := {
  keccak256 : list byte -> list byte;
  toUtf8Bytes : string -> list byte
}.

(** The operands of [<<] and [|] go through [ToInt32]. *)
Definition int32 (z : Z) : Z := (z + 2 ^ 31) mod 2 ^ 32 - 2 ^ 31.
Definition shl (a n : Z) : Z := int32 (Z.shiftl (int32 a) n).
Definition bor (a b : Z) : Z := int32 (Z.lor (int32 a) (int32 b)).

(** [top[i]] of a [Uint8Array]; past the end it is [undefined], which the
    bit operators read as 0. *)
Definition at_ (top : list byte) (i : nat) : Z :=
  match nth_error top i with
  | Some b => Z.of_N (Byte.to_N b)
  | None => 0
  end.

(** [(top[0] << 16) | (top[1] << 8) | top[2]], and the same divided by
    [0x01000000], which is 2^24. *)
Definition fraction (top : list byte) : Z :=
  bor (bor (shl (at_ top 0) 16) (shl (at_ top 1) 8)) (at_ top 2).

Definition percent (top : list byte) : Number.double :=
  Number.divPow2 (Number.ofZ (fraction top)) 24.

(** [lower + Math.floor((upper - lower) * percent)], in doubles as the
    code computes it; the result is an integer. *)
Definition scale (lower upper : Z) (percent : Number.double) : Z :=
  Number.toZ
    (Number.add (Number.ofZ lower)
       (Number.floor
          (Number.mul (Number.sub (Number.ofZ upper) (Number.ofZ lower))
             percent))).

(** [result.slice(0, end)]: a negative [end] counts from the end. *)
Definition slice0 (result : list byte) (end_ : Z) : list byte :=
  let len := Z.of_nat (length result) in
  let e := if Z.ltb end_ 0 then Z.max (len + end_) 0 else Z.min end_ len in
  firstn (Z.to_nat e) result.

Section Generator.
Context `{Hashing}.

(** The [while] loop of [randomBytes]; [fuel] bounds its iterations. *)
Fixpoint extend (fuel : nat) (upper : Z) (result : list byte)
  : option (list byte) :=
  if Z.ltb (Z.of_nat (length result)) upper then
    match fuel with
    | O => None
    | S fuel' => extend fuel' upper (result ++ keccak256 result)
    end
  else Some result.

(** [randomBytes(seed, lower, upper?)]; [None] stands for a loop that has
    not ended within [fuel] iterations. *)
Definition randomBytes (fuel : nat) (seed : string) (lower : Z)
    (upper : option Z) : option (list byte) :=
  let upper := match upper with
               | Some u => if Z.eqb u 0 then lower else u
               | None => lower
               end in
  if (Z.eqb upper 0 && Z.eqb upper lower)%bool then Some []
  else
    result ← extend fuel upper (keccak256 (toUtf8Bytes seed));
    let top := keccak256 result in
    Some (slice0 result (scale lower upper (percent top))).

(** [randomNumber(seed, lower, upper)] *)
Definition randomNumber (fuel : nat) (seed : string) (lower upper : Z)
  : option Z :=
  top ← randomBytes fuel seed 3 None;
  Some (scale lower upper (percent top)).

(** [randomHexString(seed, lower, upper?)] *)
Definition randomHexString (fuel : nat) (seed : string) (lower : Z)
    (upper : option Z) : option string :=
  bytes ← randomBytes fuel seed lower upper;
  Some (hexlify bytes).

End Generator.

End Random.

(** ** Stand-ins for the collaborators

    Simple instances of the imported functions, used to run the formatters
    and the generator on concrete inputs. *)

Module Sample.

Definition hexDigitValue (c : ascii) : Z :=
  let n := Z.of_N (N_of_ascii c) in
  if Z.leb 97 n then n - 87 else if Z.leb 65 n then n - 55 else n - 48.

Fixpoint hexValue (acc : Z) (s : string) : Z :=
  match s with
  | EmptyString => acc
  | String c rest => hexValue (16 * acc + hexDigitValue c) rest
  end.

(** Accepts a 20-byte hex string and returns it in lower case. *)
Definition sampleGetAddress (s : string) : res string :=
  if isHexString (VStr s) (Some 20) then Ok (toLowerCase s)
  else Throw (argumentError "invalid address" (VStr s)).

(** Accepts numbers, BigNumbers and hex strings with at least one digit. *)
Definition sampleBigNumberFrom (v : value) : res Z :=
  match v with
  | VNum n | VBig n => Ok n
  | VStr s =>
      if (isHexStr s && negb (String.eqb s "0x"))%bool
      then Ok (hexValue 0 (drop2 s))
      else Throw (argumentError "invalid BigNumber string" v)
  | _ => Throw (argumentError "invalid BigNumber value" v)
  end.

#[export] Instance collaborators : Formatter.Collaborators := {|
  Formatter.getAddress := sampleGetAddress;
  Formatter.getAddressFromAccount := fun s =>
    Throw (argumentError "invalid account" (VStr s));
  Formatter.accessListify := fun v => Ok v;
  Formatter.BigNumber_from := sampleBigNumberFrom
|}.

(** A digest of 32 bytes, all of them [0xff] (the largest fraction) or all
    zero (the smallest). *)
Definition hashingHigh : Random.Hashing := {|
  Random.keccak256 := fun _ => repeat xff 32;
  Random.toUtf8Bytes := fun _ => []
|}.

Definition hashingLow : Random.Hashing := {|
  Random.keccak256 := fun _ => repeat x00 32;
  Random.toUtf8Bytes := fun _ => []
|}.

Definition hash48Sample : string :=
  "0xAABBCCDDEEFF00112233445566778899aabbccddeeff00112233445566778899aabbccddeeff00112233445566778899".

Definition addressSample : string :=
  "0x00000000000000000000000000000000000003e9".

(** A raw transaction that [transactionResponse] accepts, with [v = 37]
    and neither [chainId] nor [networkId]. *)
Definition rawTransaction : gmap string value :=
  list_to_map
    [ ("hash", VStr hash48Sample);
      ("from", VStr addressSample);
      ("gas", VStr "0x5208");
      ("to", VStr "0x0");
      ("value", VStr "0x0");
      ("input", VStr "0xabcd");
      ("type", VNum 1);
      ("v", VStr "0x25") ].

(** The raw transaction of the end-to-end example of the specification:
    it has [gas], a zero [to], [input] and type 1, and as yet neither
    [gasLimit], [data] nor [accessList]. *)
Definition rawAliased : gmap string value :=
  list_to_map
    [ ("gas", VStr "0x5208");
      ("to", VStr "0x0");
      ("input", VStr "0xabcd");
      ("type", VNum 1) ].

(** A string that holds a timestamp between other characters. *)
Definition paddedTimestamp : string := "x1234567890.123456789y".

(** A format whose second coercer throws, and its third as well. *)
Definition failingFormat : format :=
  [ ("a", fun v => Ok v);
    ("b", fun v => Throw (argumentError "bad b" v));
    ("c", fun v => Throw (newError "bad c")) ].

(** A format with a coercer that returns [null] and one that returns
    [undefined]. *)
Definition sparseFormat : format :=
  [ ("kept", Formatter.allowNull (fun v => Ok v) VNull);
    ("omitted", Formatter.allowNull (fun v => Ok v) VUndef);
    ("plain", fun v => Ok v) ].

Definition failingObject : gmap string value :=
  list_to_map [ ("a", VNum 1); ("b", VNum 2) ].

Definition failingError : error :=
  mkError "bad b" (Some (VNum 2)) (Some "b") (Some (VNum 2)).

Definition sparseObject : gmap string value :=
  list_to_map [ ("plain", VNum 5) ].

Definition sparseRecord : gmap string value :=
  list_to_map [ ("kept", VNull); ("plain", VNum 5) ].

(** A raw receipt that [receipt] accepts, given its [status]. *)
Definition rawReceipt (status : value) : gmap string value :=
  list_to_map
    [ ("from", VStr addressSample);
      ("timestamp", VStr "1650000000.123456789");
      ("gasUsed", VStr "0x5208");
      ("transactionHash", VStr hash48Sample);
      ("logs", VArr []);
      ("cumulativeGasUsed", VStr "0x5208");
      ("status", status) ].

(** What the formatters make of these raw objects with the stand-ins. *)
Definition transactionStore : gmap loc (gmap string value) :=
  {[ 1%positive := rawTransaction ]}.

Definition transactionOutcome
  : gmap loc (gmap string value) * res (gmap string value) :=
  Formatter.transactionResponse 1%positive transactionStore.

Definition aliasedStore : gmap loc (gmap string value) :=
  {[ 1%positive := rawAliased ]}.

Definition recordOf (r : res (gmap string value)) : gmap string value :=
  match r with Ok record => record | Throw _ => ∅ end.

Definition receiptRecord (status : value) : gmap string value :=
  recordOf (Formatter.receipt (rawReceipt status)).

(** A topic of 32 bytes, partly in upper case, and a filter's topics that
    hold it, with their canonical form. *)
Definition hash32Sample : string :=
  "0xAABBCCDDEEFF00112233445566778899aabbccddeeff00112233445566778899".

Definition topicsSample : value :=
  VArr [VNull; VArr [VStr hash32Sample]].

Definition topicsCanonical : value :=
  VArr [VNull; VArr [VStr (toLowerCase hash32Sample)]].

(** [sparseObject] with a property that [sparseFormat] does not name. *)
Definition wideObject : gmap string value :=
  list_to_map [ ("plain", VNum 5); ("other", VNum 9) ].

(** A raw log that [filterLog] accepts, with an empty [data] and no
    [transactionHash]. *)
Definition rawFilterLog : gmap string value :=
  list_to_map
    [ ("timestamp", VStr "1650000000.123456789");
      ("address", VStr addressSample);
      ("data", VStr EmptyString);
      ("topics", VArr [VStr hash32Sample]);
      ("logIndex", VNum 0);
      ("transactionIndex", VNum 3) ].

Definition filterLogRecord : gmap string value :=
  recordOf (Formatter.filterLog rawFilterLog).

(** What [responseFromRecord] makes of a record without properties. *)
Definition responseRecord : gmap string value :=
  recordOf (Formatter.responseFromRecord ∅).

(** A digest that varies with its input: 32 bytes that all hold 128 plus
    the length of the input (modulo 256). *)
Definition byteOfNat (n : nat) : byte :=
  default x00 (Byte.of_N (N.of_nat n mod 256)).

Definition hashingCount : Random.Hashing := {|
  Random.keccak256 := fun bs => repeat (byteOfNat (128 + length bs)) 32;
  Random.toUtf8Bytes := list_byte_of_string
|}.

(** A raw log that [receiptLog] accepts, and the record it makes of it
    with the stand-ins. *)
Definition rawLog : gmap string value :=
  list_to_map
    [ ("transactionIndex", VNum 2);
      ("transactionHash", VStr hash48Sample);
      ("address", VStr addressSample);
      ("topics", VArr [VStr hash32Sample]);
      ("data", VStr "0xABCD");
      ("logIndex", VStr "0x3") ].

Definition logExpected : gmap string value :=
  list_to_map
    [ ("transactionIndex", VNum 2);
      ("transactionHash", VStr (toLowerCase hash48Sample));
      ("address", VStr addressSample);
      ("topics", VArr [VStr (toLowerCase hash32Sample)]);
      ("data", VStr "0xabcd");
      ("logIndex", VNum 3) ].

(** The record of [rawReceipt] with the status "0x1". *)
Definition receiptExpected : gmap string value :=
  list_to_map
    [ ("to", VNull);
      ("from", VStr addressSample);
      ("contractAddress", VNull);
      ("timestamp", VStr "1650000000.123456789");
      ("gasUsed", VBig 21000);
      ("transactionHash", VStr (toLowerCase hash48Sample));
      ("logs", VArr []);
      ("cumulativeGasUsed", VBig 21000);
      ("status", VNum 1);
      ("type", VNum 0);
      ("byzantium", VBool true) ].

End Sample.

(** * Properties *)

Import Formatter.

Lemma isUndefined_spec (v : value) : isUndefined v = true ↔ v = VUndef.
Proof. destruct v; simpl; split; congruence. Qed.

Lemma isNullish_spec (v : value) :
  isNullish v = true ↔ v = VUndef ∨ v = VNull.
Proof. destruct v; simpl; split; intros; intuition congruence. Qed.

(** ** [Formatter.check] *)

Section Check.
Implicit Types (fmt : format) (object result : gmap string value).

(** A throw of the loop comes from one property of the format: everything
    before it was coerced, nothing after it was called. *)
Lemma check_loop_throw fmt object result called e :
  snd (check_loop fmt object result called) = Throw e →
  ∃ pre key f post e0,
    fmt = pre ++ (key, f) :: post ∧
    (∀ k g, In (k, g) pre → ∃ v, g (get object k) = Ok v) ∧
    f (get object key) = Throw e0 ∧
    e = annotate key (get object key) e0 ∧
    fst (check_loop fmt object result called)
      = called ++ map fst pre ++ [key].
Proof.
  revert result called.
  induction fmt as [|[k g] rest IH]; intros result called; simpl.
  - discriminate.
  - destruct (g (get object k)) as [v|e0] eqn:Hg; simpl.
    + intros Hthrow.
      destruct (IH _ _ Hthrow) as (pre & key & f & post & e1 & -> & Hpre & Hf & -> & Hcalls).
      exists ((k, g) :: pre), key, f, post, e1.
      split_and!; try done.
      * intros k' g' [Heq | Hin]; [inversion Heq; subst; eauto | eauto].
      * rewrite Hcalls. simpl. by rewrite <- app_assoc.
    + intros [= <-].
      exists [], k, g, rest, e0. split_and!; done.
Qed.

(** What lies after the throwing property has no part in the outcome. *)
Lemma check_loop_prefix pre key f post post' object result called e0 :
  (∀ k g, In (k, g) pre → ∃ v, g (get object k) = Ok v) →
  f (get object key) = Throw e0 →
  check_loop (pre ++ (key, f) :: post) object result called
  = check_loop (pre ++ (key, f) :: post') object result called.
Proof.
  revert result called.
  induction pre as [|[k g] pre IH]; intros result called Hpre Hf; simpl.
  - by rewrite Hf.
  - destruct (Hpre k g (or_introl eq_refl)) as [v ->].
    apply IH; [|done]. intros k' g' Hin. apply Hpre. by right.
Qed.

Lemma in_format_key fmt key (f : coercer) :
  In (key, f) fmt → In key (map fst fmt).
Proof. intros Hin. apply (in_map fst) in Hin. exact Hin. Qed.

(** The record returned by the loop: the keys set by this run next to the
    keys that [result] had before. *)
Lemma check_loop_ok fmt object result called r :
  NoDup (map fst fmt) →
  (∀ key, In key (map fst fmt) → result !! key = None) →
  snd (check_loop fmt object result called) = Ok r →
  ∀ key v,
    r !! key = Some v ↔
      (∃ f, In (key, f) fmt ∧ f (get object key) = Ok v ∧ v ≠ VUndef)
      ∨ result !! key = Some v.
Proof.
  revert result called.
  induction fmt as [|[k g] rest IH]; intros result called Hnd Hfresh; simpl.
  - intros [= <-] key v. split; [by right | by intros [(f & [] & _) | ?]].
  - apply NoDup_cons in Hnd as [Hk Hnd].
    destruct (g (get object k)) as [w|e0] eqn:Hg; simpl; [|discriminate].
    intros Hok key v.
    assert (Hk' : ∀ f, ¬ In (k, f) rest)
      by (intros f Hin; apply Hk, list_elem_of_In, (in_format_key _ _ f Hin)).
    assert (Hres : result !! k = None) by (apply Hfresh; by left).
    assert (Hfresh' : ∀ key', In key' (map fst rest) →
              (if isUndefined w then result else <[k:=w]> result) !! key' = None).
    { intros key' Hin. destruct (decide (key' = k)) as [->|Hne].
      - destruct Hk. by apply list_elem_of_In.
      - destruct (isUndefined w); [|rewrite lookup_insert_ne by done];
          apply Hfresh; by right. }
    rewrite (IH _ _ Hnd Hfresh' Hok key v); clear IH Hok Hfresh'.
    destruct (decide (key = k)) as [->|Hne].
    + destruct (isUndefined w) eqn:Hu.
      * apply isUndefined_spec in Hu as ->. rewrite Hres.
        split; intros [(f & Hin & Hf & Hv) | ?]; try done.
        -- by destruct (Hk' f).
        -- destruct Hin as [[= <-] | Hin]; [congruence | by destruct (Hk' f)].
      * rewrite lookup_insert_eq, Hres.
        assert (w ≠ VUndef) by (intros ->; discriminate).
        split.
        -- intros [(f & Hin & _) | [= <-]]; [by destruct (Hk' f)|].
           left. exists g. split_and!; [by left | done | done].
        -- intros [(f & [[= <-] | Hin] & Hf & Hv) | ?]; try done.
           ++ right. congruence.
           ++ by destruct (Hk' f).
    + assert (Hsame : (if isUndefined w then result else <[k:=w]> result) !! key
                      = result !! key).
      { destruct (isUndefined w); [done | by rewrite lookup_insert_ne]. }
      rewrite Hsame.
      split; intros [(f & Hin & Hf) | ?]; try (by right).
      * left. exists f. split; [by right | done].
      * left. exists f. destruct Hin as [[= ? ?] | Hin]; [congruence | done].
Qed.

(** C1. [Formatter.check] is fail-fast. When a coercer throws, no record
    comes back; the error that leaves [check] is the coercer's own error
    with the name of the failing field as [checkKey] and the raw value of
    that field as [checkValue]; the coercers called are those of the fields
    up to and including the failing one, in the order of the format, so no
    coercer of a later field is called, and whatever follows the failing
    field in the format has no influence on the outcome. *)
Theorem check_fail_fast fmt object e :
  check fmt object = Throw e →
  (∀ r, check fmt object ≠ Ok r) ∧
  ∃ pre key f post e0,
    fmt = pre ++ (key, f) :: post ∧
    (∀ k g, In (k, g) pre → ∃ v, g (get object k) = Ok v) ∧
    f (get object key) = Throw e0 ∧
    message e = message e0 ∧
    checkKey e = Some key ∧
    checkValue e = Some (get object key) ∧
    check_calls fmt object = map fst pre ++ [key] ∧
    ∀ post', check (pre ++ (key, f) :: post') object = Throw e.
Proof.
  intros Hthrow. split; [congruence|].
  destruct (check_loop_throw _ _ _ _ _ Hthrow)
    as (pre & key & f & post & e0 & Hfmt & Hpre & Hf & He & Hcalls).
  exists pre, key, f, post, e0. subst e.
  split_and!; try done.
  intros post'. unfold check, check_run.
  rewrite (check_loop_prefix pre key f post' post object ∅ [] e0 Hpre Hf).
  by rewrite <- Hfmt.
Qed.

(** On success, with distinct keys in the format, the record binds a key
    to [v] exactly when the coercer of that key returned [v] and [v] is
    not [undefined]. *)
Lemma check_ok_lookup fmt object r :
  NoDup (map fst fmt) →
  check fmt object = Ok r →
  ∀ key v, r !! key = Some v ↔
    ∃ f, In (key, f) fmt ∧ f (get object key) = Ok v ∧ v ≠ VUndef.
Proof.
  intros Hnd Hok key v.
  rewrite (check_loop_ok fmt object ∅ [] r Hnd (λ _ _, lookup_empty _) Hok).
  rewrite lookup_empty. split; [intros [?|?]; done | by left].
Qed.

(** C2. On success the record holds a key exactly when the coercer of that
    field returned something other than [undefined], bound to what the
    coercer returned; no key is bound to [undefined], and a [null] that a
    coercer returned is kept under its key. *)
Theorem check_record_keys fmt object r :
  NoDup (map fst fmt) →
  check fmt object = Ok r →
  ∀ key,
    (∀ v, r !! key = Some v ↔
          ∃ f, In (key, f) fmt ∧ f (get object key) = Ok v ∧ v ≠ VUndef) ∧
    r !! key ≠ Some VUndef ∧
    (∀ f, In (key, f) fmt → f (get object key) = Ok VNull →
          r !! key = Some VNull).
Proof.
  intros Hnd Hok key.
  pose proof (check_ok_lookup fmt object r Hnd Hok key) as Hiff.
  split_and!; [done | |].
  - intros Hu. apply Hiff in Hu as (_ & _ & _ & Hne). by apply Hne.
  - intros f Hin Hf. apply Hiff. by exists f.
Qed.

End Check.

(** ** The combinators *)

(** C8. [allowNull(f, X)] returns [X] on [null] and on [undefined],
    whatever [f] is (so without calling it), and [f(v)] on every other
    value. *)
Theorem allowNull_spec (f : coercer) (X : value) :
  allowNull f X VNull = Ok X ∧
  allowNull f X VUndef = Ok X ∧
  (∀ g : coercer, allowNull g X VNull = allowNull f X VNull ∧
                  allowNull g X VUndef = allowNull f X VUndef) ∧
  (∀ v, v ≠ VNull → v ≠ VUndef → allowNull f X v = f v).
Proof.
  split_and!; try done.
  intros v Hnull Hundef. unfold allowNull.
  destruct v; simpl; congruence.
Qed.

(** ** Hex strings *)

Lemma lowerChar_idem (c : ascii) : lowerChar (lowerChar c) = lowerChar c.
Proof. destruct c as [[] [] [] [] [] [] [] []]; reflexivity. Qed.

Lemma lowerChar_hex (c : ascii) :
  isHexDigit c = true → isHexDigit (lowerChar c) = true.
Proof. destruct c as [[] [] [] [] [] [] [] []]; simpl; intros; (reflexivity || discriminate). Qed.

Lemma toLowerCase_idem (s : string) : toLowerCase (toLowerCase s) = toLowerCase s.
Proof. induction s as [|c s IH]; simpl; [done|]. by rewrite lowerChar_idem, IH. Qed.

Lemma toLowerCase_length (s : string) : strlen (toLowerCase s) = strlen s.
Proof. unfold strlen. f_equal. induction s as [|c s IH]; simpl; congruence. Qed.

Lemma allChars_lower (s : string) :
  allChars isHexDigit s = true → allChars isHexDigit (toLowerCase s) = true.
Proof.
  induction s as [|c s IH]; simpl; [done|].
  intros [Hc Hs]%andb_true_iff. by rewrite lowerChar_hex, IH.
Qed.

Lemma isHexStr_inv (s : string) :
  isHexStr s = true →
  ∃ rest, s = String "0" (String "x" rest) ∧ allChars isHexDigit rest = true.
Proof.
  destruct s as [|a [|b rest]]; simpl; try discriminate.
  - destruct a as [[] [] [] [] [] [] [] []]; discriminate.
  - destruct a as [[] [] [] [] [] [] [] []]; try discriminate.
    destruct b as [[] [] [] [] [] [] [] []]; try discriminate. eauto.
Qed.

Lemma isHexStr_prefix (s : string) : isHexStr s = true → prefix2 s = "0x".
Proof. by intros (rest & -> & _)%isHexStr_inv. Qed.

Lemma isHexStr_lower (s : string) :
  isHexStr s = true → isHexStr (toLowerCase s) = true.
Proof. intros (rest & -> & Hrest)%isHexStr_inv. simpl. by apply allChars_lower. Qed.

Lemma hexDataLength_lower (s : string) :
  isHexStr s = true → hexDataLength (toLowerCase s) = hexDataLength s.
Proof.
  intros Hs. unfold hexDataLength.
  by rewrite toLowerCase_length, Hs, (isHexStr_lower s Hs).
Qed.

Section Scalars.
Context `{Collaborators}.

(** [hex] leaves a hex string as it is, up to the case of its digits,
    whatever [strict] is. *)
Lemma hex_of_hex (s : string) (strict : bool) :
  isHexStr s = true → hex (VStr s) strict = Ok (toLowerCase s).
Proof.
  intros Hs. unfold hex. rewrite (isHexStr_prefix s Hs). simpl.
  rewrite andb_false_r. simpl. by rewrite Hs.
Qed.

(** What [hex] returns is a hex string in lower case. *)
Lemma hex_ok (v : value) (strict : bool) (r : string) :
  hex v strict = Ok r → isHexStr r = true ∧ toLowerCase r = r.
Proof.
  unfold hex. destruct v as [| | | |s| | | |]; try discriminate.
  match goal with |- context [isHexString (VStr ?x)] => set (s' := x) end.
  simpl. rewrite andb_true_r.
  destruct (isHexStr s') eqn:Hs'; [|discriminate].
  intros [= <-]. split; [by apply isHexStr_lower | apply toLowerCase_idem].
Qed.

(** C6. On a valid 0x-prefixed hex string [h] of exactly 48 bytes, [hash48]
    returns [h] in lower case; on a hex string of any other byte length
    (an odd number of digits included) it throws. Both with and without
    [strict]. *)
Theorem hash48_spec (h : string) (strict : bool) :
  isHexStr h = true →
  (hexDataLength h = Some 48 → hash48 (VStr h) strict = Ok (toLowerCase h)) ∧
  (hexDataLength h ≠ Some 48 → ∃ e, hash48 (VStr h) strict = Throw e).
Proof.
  intros Hh. unfold hash48. rewrite (hex_of_hex h strict Hh). simpl.
  rewrite (hexDataLength_lower h Hh).
  split; intros Hlen.
  - by rewrite bool_decide_eq_true_2.
  - rewrite bool_decide_eq_false_2 by done. simpl. eauto.
Qed.

Lemma strlen_drop2 (s : string) :
  isHexStr s = true → strlen s = 2 + strlen (drop2 s).
Proof. intros (rest & -> & _)%isHexStr_inv. unfold strlen. simpl. lia. Qed.

(** C7. [data] is idempotent on its successes, whatever [strict] is in
    either call, and it throws exactly when [hex] throws or the digits
    after the prefix of what [hex] returns are odd in number. *)
Theorem data_spec (v : value) (strict : bool) :
  (∀ r strict', data v strict = Ok r → data (VStr r) strict' = Ok r) ∧
  ((∃ e, data v strict = Throw e) ↔
     (∃ e, hex v strict = Throw e) ∨
     (∃ p, hex v strict = Ok p ∧ Z.odd (strlen (drop2 p)) = true)).
Proof.
  unfold data at 1 3. destruct (hex v strict) as [p|e] eqn:Hhex; simpl.
  - destruct (hex_ok _ _ _ Hhex) as [Hp Hlow].
    assert (Hpar : strlen p mod 2 = 0 ↔ Z.odd (strlen (drop2 p)) = false).
    { rewrite (strlen_drop2 p Hp).
      replace (2 + strlen (drop2 p)) with (strlen (drop2 p) + 1 * 2) by lia.
      rewrite Z.mod_add by lia. rewrite Zmod_odd.
      destruct (Z.odd _); split; intros; (done || lia). }
    destruct (Z.eqb_spec (strlen p mod 2) 0) as [Heven|Hodd]; simpl.
    + split.
      * intros r strict' [= <-]. unfold data.
        rewrite (hex_of_hex p strict' Hp), Hlow. simpl.
        apply Z.eqb_eq in Heven. by rewrite Heven.
      * apply Hpar in Heven.
        split; [by intros [e ?] | intros [[e ?] | (q & [= <-] & Hq)]; congruence].
    + split; [discriminate|].
      split; [|eauto]. intros _. right. exists p. split; [done|].
      destruct (Z.odd (strlen (drop2 p))); [done|]. destruct Hodd. by apply Hpar.
  - split; [discriminate|]. split; eauto.
Qed.

End Scalars.

(** ** JavaScript numbers *)

Section NumberProps.
Import Number.

Lemma nearestEven_bounds (n d : Z) :
  0 < d → n / d ≤ nearestEven n d ≤ n / d + 1.
Proof.
  intros Hd. unfold nearestEven.
  destruct (2 * (n mod d) ?= d); [destruct (Z.even (n / d))| |]; lia.
Qed.

Lemma nearestEven_exact (q d : Z) : 0 < d → nearestEven (q * d) d = q.
Proof.
  intros Hd. unfold nearestEven.
  rewrite Z.mod_mul, Z.div_mul by lia.
  destruct (Z.compare_spec (2 * 0) d); lia.
Qed.

Lemma nearestEven_mono (n1 n2 d : Z) :
  0 < d → n1 ≤ n2 → nearestEven n1 d ≤ nearestEven n2 d.
Proof.
  intros Hd Hn.
  assert (Hq : n1 / d ≤ n2 / d) by (apply Z.div_le_mono; lia).
  destruct (Z.eq_dec (n1 / d) (n2 / d)) as [Heq|Hne].
  - assert (Hr : n1 mod d ≤ n2 mod d).
    { rewrite !Z.mod_eq by lia. rewrite Heq. lia. }
    unfold nearestEven. rewrite Heq.
    destruct (Z.compare_spec (2 * (n1 mod d)) d),
      (Z.compare_spec (2 * (n2 mod d)) d);
      destruct (Z.even (n2 / d)); lia.
  - pose proof (nearestEven_bounds n1 d Hd).
    pose proof (nearestEven_bounds n2 d Hd). lia.
Qed.

Lemma nearestEven_scale (n d c : Z) :
  0 < d → 0 < c → nearestEven (n * c) (d * c) = nearestEven n d.
Proof.
  intros Hd Hc. unfold nearestEven.
  rewrite Z.div_mul_cancel_r, Z.mul_mod_distr_r by lia.
  destruct (Z.compare_spec (2 * (n mod d * c)) (d * c)),
    (Z.compare_spec (2 * (n mod d)) d); try reflexivity; nia.
Qed.

Lemma roundZ_unfold (m : Z) :
  roundZ m = if Z.leb (excess m) 0 then m
             else Z.sgn m * nearestEven (Z.abs m) (2 ^ excess m)
                  * 2 ^ excess m.
Proof.
  unfold roundZ, ofZ, round53.
  destruct (Z.leb_spec (excess m) 0) as [Hs|Hs]; simpl.
  - lia.
  - destruct (Z.leb_spec 0 (0 + excess m)); [|lia]. reflexivity.
Qed.

Lemma excess_small (m : Z) : Z.abs m < 2 ^ 53 → excess m ≤ 0.
Proof.
  intros Hm. unfold excess.
  destruct (Z.eq_dec (Z.abs m) 0) as [->|Hne]; [simpl; lia|].
  assert (Z.log2 (Z.abs m) < 53); [|lia].
  apply Z.log2_lt_pow2; lia.
Qed.

Lemma excess_nonpos (m : Z) : excess m ≤ 0 → Z.abs m < 2 ^ 53.
Proof.
  intros Hs. unfold excess in Hs.
  destruct (Z.eq_dec (Z.abs m) 0) as [->|Hne]; [done|].
  pose proof (Z.log2_spec (Z.abs m) ltac:(lia)) as [_ Hu].
  assert (2 ^ Z.succ (Z.log2 (Z.abs m)) ≤ 2 ^ 53)
    by (apply Z.pow_le_mono_r; lia).
  lia.
Qed.

Lemma excess_spec (m : Z) :
  0 < excess m →
  2 ^ (52 + excess m) ≤ Z.abs m < 2 ^ (53 + excess m).
Proof.
  intros Hs. unfold excess in *.
  assert (Hpos : 0 < Z.abs m).
  { destruct (Z.eq_dec (Z.abs m) 0) as [Hz|]; [rewrite Hz in Hs; simpl in Hs|];
      lia. }
  pose proof (Z.log2_spec (Z.abs m) Hpos) as Hl.
  replace (52 + (Z.log2 (Z.abs m) - 52)) with (Z.log2 (Z.abs m)) by lia.
  replace (53 + (Z.log2 (Z.abs m) - 52)) with (Z.succ (Z.log2 (Z.abs m)))
    by lia.
  exact Hl.
Qed.

(** The integers that a double holds exactly. *)
Lemma roundZ_exact (m : Z) : Z.abs m ≤ 2 ^ 53 → roundZ m = m.
Proof.
  intros Hm. destruct (Z.eq_dec (Z.abs m) (2 ^ 53)) as [Heq|Hne].
  - assert (Hm' : m = 2 ^ 53 ∨ m = - 2 ^ 53) by lia.
    destruct Hm' as [-> | ->]; reflexivity.
  - rewrite roundZ_unfold.
    destruct (Z.leb_spec (excess m) 0) as [|Hs]; [done|].
    pose proof (excess_small m). lia.
Qed.

Lemma roundZ_opp (m : Z) : roundZ (- m) = - roundZ m.
Proof.
  rewrite !roundZ_unfold. unfold excess. rewrite Z.abs_opp, Z.sgn_opp.
  destruct (Z.leb _ 0); lia.
Qed.

Lemma roundZ_pos_range (m : Z) :
  0 ≤ m → 0 < excess m →
  2 ^ (52 + excess m) ≤ roundZ m ≤ 2 ^ (53 + excess m).
Proof.
  intros Hm Hs. pose proof (excess_spec m Hs) as Hr.
  rewrite roundZ_unfold. destruct (Z.leb_spec (excess m) 0); [lia|].
  rewrite Z.abs_eq in * by lia.
  assert (Hp : 0 < 2 ^ excess m) by (apply Z.pow_pos_nonneg; lia).
  rewrite Z.sgn_pos by lia.
  pose proof (nearestEven_bounds m (2 ^ excess m) Hp) as Hb.
  rewrite !Z.pow_add_r in * by lia.
  assert (2 ^ 52 ≤ m / 2 ^ excess m < 2 ^ 53).
  { split; [apply Z.div_le_lower_bound; lia|].
    apply Z.div_lt_upper_bound; lia. }
  nia.
Qed.

Lemma roundZ_nonneg (m : Z) : 0 ≤ m → 0 ≤ roundZ m.
Proof.
  intros Hm. destruct (Z.leb_spec (excess m) 0) as [Hs|Hs].
  - rewrite roundZ_unfold. destruct (Z.leb_spec (excess m) 0); lia.
  - pose proof (roundZ_pos_range m Hm Hs) as [Hl _].
    assert (0 < 2 ^ (52 + excess m)) by (apply Z.pow_pos_nonneg; lia). lia.
Qed.

Lemma excess_mono (m1 m2 : Z) : 0 ≤ m1 ≤ m2 → excess m1 ≤ excess m2.
Proof.
  intros Hm. unfold excess. rewrite !Z.abs_eq by lia.
  pose proof (Z.log2_le_mono m1 m2). lia.
Qed.

Lemma roundZ_mono_pos (m1 m2 : Z) :
  0 ≤ m1 ≤ m2 → roundZ m1 ≤ roundZ m2.
Proof.
  intros Hm. pose proof (excess_mono m1 m2 Hm) as Hs.
  destruct (Z.leb_spec (excess m2) 0) as [Hs2|Hs2].
  - rewrite !roundZ_unfold.
    destruct (Z.leb_spec (excess m1) 0), (Z.leb_spec (excess m2) 0); lia.
  - pose proof (roundZ_pos_range m2 ltac:(lia) Hs2) as [Hl2 _].
    destruct (Z.leb_spec (excess m1) 0) as [Hs1|Hs1].
    + rewrite (roundZ_unfold m1).
      destruct (Z.leb_spec (excess m1) 0); [|lia].
      pose proof (excess_nonpos m1 Hs1) as Hr1.
      rewrite Z.abs_eq in Hr1 by lia.
      assert (2 ^ 53 ≤ 2 ^ (52 + excess m2))
        by (apply Z.pow_le_mono_r; lia).
      lia.
    + destruct (Z.eq_dec (excess m1) (excess m2)) as [Heq|Hne].
      * rewrite !roundZ_unfold, Heq.
        destruct (Z.leb_spec (excess m2) 0); [lia|].
        rewrite !Z.abs_eq by lia.
        assert (Hp : 0 < 2 ^ excess m2) by (apply Z.pow_pos_nonneg; lia).
        pose proof (nearestEven_mono m1 m2 _ Hp ltac:(lia)) as Hne.
        destruct (Z.eq_dec m1 0) as [->|H1].
        { exfalso. unfold excess in Hs1. simpl in Hs1. lia. }
        rewrite !Z.sgn_pos by lia. nia.
      * pose proof (roundZ_pos_range m1 ltac:(lia) Hs1) as [_ Hu1].
        assert (2 ^ (53 + excess m1) ≤ 2 ^ (52 + excess m2))
          by (apply Z.pow_le_mono_r; lia).
        lia.
Qed.

Lemma roundZ_mono (m1 m2 : Z) : m1 ≤ m2 → roundZ m1 ≤ roundZ m2.
Proof.
  intros Hm. destruct (Z.le_gt_cases 0 m1) as [H1|H1].
  - apply roundZ_mono_pos. lia.
  - destruct (Z.le_gt_cases 0 m2) as [H2|H2].
    + pose proof (roundZ_nonneg m2 H2).
      pose proof (roundZ_nonneg (- m1) ltac:(lia)) as Hn.
      rewrite roundZ_opp in Hn. lia.
    + pose proof (roundZ_mono_pos (- m2) (- m1) ltac:(lia)) as Hn.
      rewrite !roundZ_opp in Hn. lia.
Qed.

Lemma excess_shift (m j : Z) :
  m ≠ 0 → 0 ≤ j → excess (m * 2 ^ j) = excess m + j.
Proof.
  intros Hm Hj. unfold excess.
  assert (Hp : 0 < 2 ^ j) by (apply Z.pow_pos_nonneg; lia).
  rewrite Z.abs_mul, (Z.abs_eq (2 ^ j)) by lia.
  rewrite Z.log2_mul_pow2 by lia. lia.
Qed.

Lemma roundZ_shift (m j : Z) : 0 ≤ j → roundZ (m * 2 ^ j) = roundZ m * 2 ^ j.
Proof.
  intros Hj. destruct (Z.eq_dec m 0) as [->|Hm]; [reflexivity|].
  assert (Hp : 0 < 2 ^ j) by (apply Z.pow_pos_nonneg; lia).
  rewrite !roundZ_unfold, excess_shift by done.
  rewrite Z.abs_mul, (Z.abs_eq (2 ^ j)), Z.sgn_mul, (Z.sgn_pos (2 ^ j)) by lia.
  rewrite Z.mul_1_r.
  destruct (Z.leb_spec (excess m) 0) as [Hs|Hs],
    (Z.leb_spec (excess m + j) 0) as [Hs'|Hs']; try lia.
  - replace (Z.abs m * 2 ^ j)
      with (Z.abs m * 2 ^ (- excess m) * 2 ^ (excess m + j)).
    2:{ rewrite <- Z.mul_assoc, <- Z.pow_add_r by lia. f_equal. f_equal. lia. }
    rewrite nearestEven_exact by (apply Z.pow_pos_nonneg; lia).
    assert (Hpow : 2 ^ (- excess m) * 2 ^ (excess m + j) = 2 ^ j)
      by (rewrite <- Z.pow_add_r by lia; f_equal; lia).
    transitivity (Z.sgn m * Z.abs m * (2 ^ (- excess m) * 2 ^ (excess m + j)));
      [ring|].
    rewrite Hpow. pose proof (Z.abs_sgn m). f_equal. lia.
  - rewrite (Z.pow_add_r 2 (excess m) j) by lia.
    rewrite nearestEven_scale by (try apply Z.pow_pos_nonneg; lia). lia.
Qed.

Lemma round53_scaled (K : Z) (x : double) :
  0 ≤ snd x + K →
  scaled K (round53 x) = roundZ (scaled K x) ∧ snd x ≤ snd (round53 x).
Proof.
  destruct x as [m e]. unfold scaled. simpl. intros He.
  rewrite roundZ_shift, roundZ_unfold by done.
  destruct (Z.leb_spec (excess m) 0) as [Hs|Hs]; simpl; [lia|].
  split; [|lia].
  replace (e + excess m + K) with (excess m + (e + K)) by lia.
  rewrite Z.pow_add_r by lia. lia.
Qed.

Lemma add_scaled (K : Z) (x y : double) :
  0 ≤ snd x + K → 0 ≤ snd y + K →
  scaled K (add x y) = roundZ (scaled K x + scaled K y)
  ∧ Z.min (snd x) (snd y) ≤ snd (add x y).
Proof.
  destruct x as [m1 e1], y as [m2 e2]. simpl. intros H1 H2. unfold add.
  simpl fst; simpl snd.
  destruct (round53_scaled K
    (m1 * 2 ^ (e1 - Z.min e1 e2) + m2 * 2 ^ (e2 - Z.min e1 e2), Z.min e1 e2))
    as [Hv He]; [simpl; lia|].
  split; [|exact He]. rewrite Hv. f_equal. unfold scaled. simpl.
  rewrite Z.mul_add_distr_r, <- !Z.mul_assoc, <- !Z.pow_add_r by lia.
  do 2 f_equal; f_equal; lia.
Qed.

Lemma sub_scaled (K : Z) (x y : double) :
  0 ≤ snd x + K → 0 ≤ snd y + K →
  scaled K (sub x y) = roundZ (scaled K x - scaled K y)
  ∧ Z.min (snd x) (snd y) ≤ snd (sub x y).
Proof.
  destruct x as [m1 e1], y as [m2 e2]. simpl. intros H1 H2. unfold sub.
  simpl fst; simpl snd.
  destruct (round53_scaled K
    (m1 * 2 ^ (e1 - Z.min e1 e2) - m2 * 2 ^ (e2 - Z.min e1 e2), Z.min e1 e2))
    as [Hv He]; [simpl; lia|].
  split; [|exact He]. rewrite Hv. f_equal. unfold scaled. simpl.
  rewrite Z.mul_sub_distr_r, <- !Z.mul_assoc, <- !Z.pow_add_r by lia.
  f_equal; f_equal; f_equal; lia.
Qed.

Lemma mul_scaled (K1 K2 : Z) (x y : double) :
  0 ≤ snd x + K1 → 0 ≤ snd y + K2 →
  scaled (K1 + K2) (mul x y) = roundZ (scaled K1 x * scaled K2 y)
  ∧ snd x + snd y ≤ snd (mul x y).
Proof.
  destruct x as [m1 e1], y as [m2 e2]. simpl. intros H1 H2. unfold mul.
  simpl fst; simpl snd.
  destruct (round53_scaled (K1 + K2) (m1 * m2, e1 + e2)) as [Hv He];
    [simpl; lia|].
  split; [|exact He]. rewrite Hv. f_equal. unfold scaled. simpl.
  replace (e1 + e2 + (K1 + K2)) with ((e1 + K1) + (e2 + K2)) by lia.
  rewrite Z.pow_add_r by lia. lia.
Qed.

Lemma toZ_scaled (K : Z) (x : double) :
  0 ≤ K → 0 ≤ snd x + K → toZ x = scaled K x / 2 ^ K.
Proof.
  destruct x as [m e]. unfold scaled, toZ. simpl. intros HK He.
  assert (Hp : 0 < 2 ^ K) by (apply Z.pow_pos_nonneg; lia).
  destruct (Z.leb_spec 0 e).
  - rewrite Z.pow_add_r, Z.mul_assoc, Z.div_mul by lia. reflexivity.
  - assert (HK2 : 2 ^ K = 2 ^ (- e) * 2 ^ (e + K))
      by (rewrite <- Z.pow_add_r by lia; f_equal; lia).
    rewrite HK2.
    rewrite Z.div_mul_cancel_r; [done| |]; apply Z.pow_nonzero; lia.
Qed.

End NumberProps.

(** ** The seeded generator *)

Section GeneratorProps.
Import Number Random.

Lemma int32_small (z : Z) : 0 ≤ z < 2147483648 → int32 z = z.
Proof.
  intros Hz. unfold int32.
  change (2 ^ 31) with 2147483648. change (2 ^ 32) with 4294967296.
  rewrite Z.mod_small; lia.
Qed.

Lemma at_range (top : list byte) (i : nat) : 0 ≤ at_ top i < 256.
Proof.
  unfold at_. destruct (nth_error top i) as [b|]; [|lia].
  pose proof (Byte.to_N_bounded b). lia.
Qed.

Lemma lor_below (n a b : Z) :
  0 ≤ n → 0 ≤ a < 2 ^ n → 0 ≤ b < 2 ^ n → 0 ≤ Z.lor a b < 2 ^ n.
Proof.
  intros Hn Ha Hb.
  assert (Hnn : 0 ≤ Z.lor a b) by (apply Z.lor_nonneg; lia).
  split; [done|].
  assert (Hs : Z.shiftr (Z.lor a b) n = 0).
  { rewrite Z.shiftr_lor, !Z.shiftr_div_pow2 by done.
    rewrite (Z.div_small a), (Z.div_small b) by done. reflexivity. }
  rewrite Z.shiftr_div_pow2 in Hs by done.
  apply Z.div_small_iff in Hs; lia.
Qed.

(** The 24-bit fraction is below 1. *)
Lemma fraction_range (top : list byte) : 0 ≤ fraction top < 2 ^ 24.
Proof.
  unfold fraction, bor, shl.
  pose proof (at_range top 0) as H0.
  pose proof (at_range top 1) as H1.
  pose proof (at_range top 2) as H2.
  rewrite !(int32_small (at_ top 0)), !(int32_small (at_ top 1)),
    !(int32_small (at_ top 2)) by lia.
  rewrite !Z.shiftl_mul_pow2 by lia.
  change (2 ^ 16) with 65536. change (2 ^ 8) with 256.
  change (2 ^ 24) with 16777216.
  rewrite !(int32_small (at_ top 0 * 65536)), !(int32_small (at_ top 1 * 256)) by lia.
  assert (Hin : 0 ≤ Z.lor (at_ top 0 * 65536) (at_ top 1 * 256) < 2 ^ 24)
    by (apply lor_below; change (2 ^ 24) with 16777216; lia).
  change (2 ^ 24) with 16777216 in Hin.
  rewrite !(int32_small (Z.lor (at_ top 0 * 65536) (at_ top 1 * 256))) by lia.
  assert (Hout : 0 ≤ Z.lor (Z.lor (at_ top 0 * 65536) (at_ top 1 * 256))
                          (at_ top 2) < 2 ^ 24)
    by (apply lor_below; change (2 ^ 24) with 16777216; lia).
  change (2 ^ 24) with 16777216 in Hout.
  rewrite int32_small; lia.
Qed.

Lemma ofZ_scaled (z : Z) : scaled 0 (ofZ z) = roundZ z ∧ 0 ≤ snd (ofZ z).
Proof.
  destruct (round53_scaled 0 (z, 0)) as [Hv He]; [cbn [snd]; lia|].
  unfold scaled in Hv at 2. cbn [fst snd] in Hv, He.
  change (2 ^ (0 + 0)) with 1 in Hv. rewrite Z.mul_1_r in Hv. done.
Qed.

Lemma percent_scaled (top : list byte) :
  scaled 24 (percent top) = fraction top ∧ - 24 ≤ snd (percent top).
Proof.
  pose proof (fraction_range top) as Hf.
  unfold percent. revert Hf. generalize (fraction top). intros f Hf.
  change (2 ^ 24) with 16777216 in Hf.
  destruct (ofZ_scaled f) as [Hv He].
  unfold divPow2. unfold scaled in *. cbn [fst snd].
  split; [|lia].
  replace (snd (ofZ f) - 24 + 24) with (snd (ofZ f) + 0) by lia.
  rewrite Hv. apply roundZ_exact.
  change (2 ^ 53) with 9007199254740992. lia.
Qed.

(** What [scale] computes, step by step: each of the two bounds, their
    difference, the product and the sum are rounded. *)
Lemma scale_steps (lower upper : Z) (p : double) :
  - 24 ≤ snd p →
  scale lower upper p
  = roundZ (roundZ lower
            + roundZ (roundZ (roundZ upper - roundZ lower) * scaled 24 p)
              / 2 ^ 24).
Proof.
  intros Hp. unfold scale.
  destruct (ofZ_scaled upper) as [Hu Hue].
  destruct (ofZ_scaled lower) as [Hl Hle].
  destruct (sub_scaled 0 (ofZ upper) (ofZ lower)) as [Hd Hde]; [lia..|].
  rewrite Hu, Hl in Hd.
  destruct (mul_scaled 0 24 (sub (ofZ upper) (ofZ lower)) p) as [Hm Hme];
    [lia..|].
  rewrite Hd in Hm. change (0 + 24) with 24 in Hm.
  rewrite <- Hm.
  rewrite <- (toZ_scaled 24) by lia.
  set (t := toZ (mul (sub (ofZ upper) (ofZ lower)) p)).
  unfold floor. fold t.
  destruct (add_scaled 0 (ofZ lower) (t, 0)) as [Ha Hae];
    [cbn [snd]; lia..|].
  cbn [snd] in Hae.
  rewrite (toZ_scaled 0) by lia.
  change (2 ^ 0) with 1. rewrite Z.div_1_r, Ha, Hl. f_equal.
  unfold scaled. cbn [fst snd]. change (2 ^ (0 + 0)) with 1. lia.
Qed.

(** The rounded product stays below the rounded difference by a whole
    unit, the fraction being below 1. *)
Lemma product_below (d k : Z) :
  0 < d < 2 ^ 54 → 0 ≤ k < 2 ^ 24 →
  0 ≤ roundZ (roundZ d * k) / 2 ^ 24 ≤ d - 1.
Proof.
  intros Hd Hk.
  change (2 ^ 54) with 18014398509481984 in Hd.
  change (2 ^ 24) with 16777216 in *.
  assert (Hd0 : 0 ≤ roundZ d) by (apply roundZ_nonneg; lia).
  assert (Hhalf : d - 1 ≤ 2 * (d / 2) ≤ d ∧ 0 ≤ d / 2 < 9007199254740992).
  { pose proof (Z.mod_pos_bound d 2 ltac:(lia)).
    pose proof (Z.div_mod d 2 ltac:(lia)). lia. }
  split.
  { apply Z.div_pos; [|lia]. apply roundZ_nonneg. nia. }
  destruct (Z.le_gt_cases d 9007199254740992) as [Hsmall|Hbig].
  - rewrite (roundZ_exact d)
      by (change (2 ^ 53) with 9007199254740992; lia).
    destruct (Z.le_gt_cases 16777216 d) as [Hge|Hlt].
    + assert (Hr : roundZ (d * k) ≤ roundZ (d - 1) * 2 ^ 24).
      { rewrite <- roundZ_shift by lia. apply roundZ_mono.
        change (2 ^ 24) with 16777216. nia. }
      rewrite (roundZ_exact (d - 1)) in Hr
        by (change (2 ^ 53) with 9007199254740992; lia).
      change (2 ^ 24) with 16777216 in Hr.
      apply Z.div_le_upper_bound; lia.
    + rewrite roundZ_exact
        by (change (2 ^ 53) with 9007199254740992; nia).
      assert (d * k / 16777216 < d); [|lia].
      apply Z.div_lt_upper_bound; nia.
  - assert (Hup : roundZ d ≤ roundZ (d / 2 + 1) * 2 ^ 1).
    { rewrite <- roundZ_shift by lia. apply roundZ_mono.
      change (2 ^ 1) with 2. lia. }
    rewrite (roundZ_exact (d / 2 + 1)) in Hup
      by (change (2 ^ 53) with 9007199254740992; lia).
    change (2 ^ 1) with 2 in Hup.
    assert (Hr : roundZ (roundZ d * k) ≤ roundZ (d / 2 - 1) * 2 ^ 25).
    { rewrite <- roundZ_shift by lia. apply roundZ_mono.
      change (2 ^ 25) with 33554432. nia. }
    rewrite (roundZ_exact (d / 2 - 1)) in Hr
      by (change (2 ^ 53) with 9007199254740992; lia).
    change (2 ^ 25) with 33554432 in Hr.
    apply Z.div_le_upper_bound; lia.
Qed.

(** Within the safe integers the sum is exact: [scale] is [lower] plus the
    floor of the rounded product, which lies between the bounds. *)
Lemma scale_safe (lower upper : Z) (top : list byte) :
  Z.abs lower ≤ 2 ^ 53 → Z.abs upper ≤ 2 ^ 53 →
  Z.abs (upper - lower) < 2 ^ 54 →
  scale lower upper (percent top)
  = lower + roundZ (roundZ (upper - lower) * fraction top) / 2 ^ 24 ∧
  Z.min lower upper ≤ scale lower upper (percent top) ≤ Z.max lower upper ∧
  (lower < upper → scale lower upper (percent top) < upper).
Proof.
  intros Hlo Hup Hd.
  destruct (percent_scaled top) as [Hp He].
  pose proof (fraction_range top) as Hf.
  rewrite scale_steps, Hp by done.
  rewrite (roundZ_exact lower), (roundZ_exact upper) by done.
  assert (Ht : Z.min lower upper
               ≤ lower + roundZ (roundZ (upper - lower) * fraction top) / 2 ^ 24
               ≤ Z.max lower upper ∧
               (lower < upper →
                lower + roundZ (roundZ (upper - lower) * fraction top) / 2 ^ 24
                < upper)).
  { destruct (Z.lt_trichotomy lower upper) as [Hlt|[->|Hgt]].
    - pose proof (product_below (upper - lower) (fraction top)
                    ltac:(lia) Hf). lia.
    - rewrite Z.sub_diag. change (roundZ 0) with 0. rewrite Z.mul_0_l.
      change (roundZ 0 / 2 ^ 24) with 0. lia.
    - pose proof (product_below (lower - upper) (fraction top)
                    ltac:(lia) Hf) as Hb.
      replace (upper - lower) with (- (lower - upper)) by lia.
      rewrite roundZ_opp, Z.mul_opp_l, roundZ_opp.
      set (G := roundZ (roundZ (lower - upper) * fraction top)) in *.
      change (2 ^ 24) with 16777216 in *.
      assert (HG : 0 ≤ G).
      { apply roundZ_nonneg.
        pose proof (roundZ_nonneg (lower - upper) ltac:(lia)). nia. }
      pose proof (Z.mod_pos_bound G 16777216 ltac:(lia)).
      pose proof (Z.div_mod G 16777216 ltac:(lia)).
      assert (upper - lower ≤ - G / 16777216 ≤ 0); [|lia].
      split; [apply Z.div_le_lower_bound; lia|].
      apply Z.lt_succ_r, Z.div_lt_upper_bound; lia. }
  rewrite roundZ_exact by lia. done.
Qed.


Lemma scale_same (lower : Z) (p : double) :
  Z.abs lower ≤ 2 ^ 53 → - 24 ≤ snd p → scale lower lower p = lower.
Proof.
  intros Hlo Hp. rewrite scale_steps by done.
  rewrite (roundZ_exact lower) by done.
  rewrite Z.sub_diag. change (roundZ 0) with 0. rewrite Z.mul_0_l.
  change (roundZ 0 / 2 ^ 24) with 0. rewrite Z.add_0_r.
  by apply roundZ_exact.
Qed.


(** The result grows with [upper]: no rounding step changes the order. *)
Lemma scale_mono (lower upper upper' : Z) (top : list byte) :
  upper ≤ upper' →
  scale lower upper (percent top) ≤ scale lower upper' (percent top).
Proof.
  intros Hle.
  destruct (percent_scaled top) as [Hp He].
  pose proof (fraction_range top) as Hf.
  rewrite !scale_steps, Hp by done.
  apply roundZ_mono, Z.add_le_mono_l, Z.div_le_mono; [done|].
  apply roundZ_mono, Z.mul_le_mono_nonneg_r; [lia|].
  apply roundZ_mono.
  pose proof (roundZ_mono upper upper' Hle). lia.
Qed.




Context `{Hashing}.

(** [randomBytes(seed, 3)] is the first three bytes of the digest of the
    seed: a digest of 32 bytes is long enough as it is. *)
Lemma randomBytes_three (fuel : nat) (seed : string) :
  (∀ bs, length (keccak256 bs) = 32%nat) →
  randomBytes fuel seed 3 None
  = Some (firstn 3 (keccak256 (toUtf8Bytes seed))).
Proof.
  intros Hlen. unfold randomBytes.
  change (Z.eqb 3 0 && Z.eqb 3 3)%bool with false. cbv iota.
  assert (Hext : ∀ r, length r = 32%nat → extend fuel 3 r = Some r).
  { intros r Hr. destruct fuel; simpl; by rewrite Hr. }
  rewrite (Hext _ (Hlen _)). cbn [mbind option_bind].
  destruct (percent_scaled (keccak256 (keccak256 (toUtf8Bytes seed))))
    as [_ He].
  rewrite scale_same by (try done; change (2 ^ 53) with 9007199254740992; lia).
  unfold slice0. rewrite Hlen. reflexivity.
Qed.


End GeneratorProps.

(** ** Record-level formatters *)

Section Records.
Context `{Collaborators}.

Lemma formats_receipt_NoDup : NoDup (map fst formats_receipt).
Proof. simpl. apply (bool_decide_unpack _). vm_compute. exact I. Qed.

End Records.

(** ** The store *)

Section Store.
Context `{Collaborators}.

Lemma bind_run {A B} (m : M A) (k : A → M B) (h : gmap loc (gmap string value)) :
  (m ≫= k) h = match m h with
               | (h', Ok a) => k a h'
               | (h', Throw e) => (h', Throw e)
               end.
Proof. reflexivity. Qed.

Lemma bind_ok_inv {A B} (m : M A) (k : A → M B) h h' b :
  (m ≫= k) h = (h', Ok b) →
  ∃ a h1, m h = (h1, Ok a) ∧ k a h1 = (h', Ok b).
Proof.
  rewrite bind_run. destruct (m h) as [h1 [a|e]]; [eauto | discriminate].
Qed.

(** *** Properties of the store kept by a computation *)

Section Keeps.
Variable P : gmap loc (gmap string value) → Prop.

Lemma keep_ret {A} (a : A) h : P h → P (fst (mret (M := M) a h)).
Proof. done. Qed.

Lemma keep_bind {A B} (m : M A) (k : A → M B) :
  (∀ h, P h → P (fst (m h))) →
  (∀ a h, P h → P (fst (k a h))) →
  ∀ h, P h → P (fst ((m ≫= k) h)).
Proof.
  intros Hm Hk h Hh. rewrite bind_run.
  specialize (Hm h Hh). destruct (m h) as [h1 [a|e]]; simpl in *; auto.
Qed.

Lemma keep_lift {A} (r : res A) h : P h → P (fst (lift r h)).
Proof. done. Qed.

Lemma keep_readProp l key h : P h → P (fst (readProp l key h)).
Proof. unfold readProp. by destruct (h !! l). Qed.

Lemma keep_readObject l h : P h → P (fst (readObject l h)).
Proof. unfold readObject. by destruct (h !! l). Qed.

Lemma keep_when (b : bool) (m : M unit) :
  (b = true → ∀ h, P h → P (fst (m h))) → ∀ h, P h → P (fst (when b m h)).
Proof. destruct b; simpl; auto. Qed.

Lemma keep_writeProp l key v :
  (∀ h o, P h → h !! l = Some o → P (<[l := <[key := v]> o]> h)) →
  ∀ h, P h → P (fst (writeProp l key v h)).
Proof.
  intros Hw h Hh. unfold writeProp.
  destruct (h !! l) as [o|] eqn:Hl; simpl; eauto.
Qed.

Lemma keep_hexToNumber chainId h : P h → P (fst (hexToNumber chainId h)).
Proof.
  unfold hexToNumber. destruct (isHexString chainId None); [|done].
  revert h. apply keep_bind; [apply keep_lift|]. intros b.
  apply keep_bind; [apply keep_lift|]. intros n. apply keep_ret.
Qed.

(** [renameFields] writes to five properties of its argument only. *)
Lemma keep_renameFields l :
  (∀ key v, In key ["gasLimit"; "to"; "data"; "creates"; "accessList"] →
     ∀ h o, P h → h !! l = Some o → P (<[l := <[key := v]> o]> h)) →
  ∀ h, P h → P (fst (renameFields l h)).
Proof.
  intros Hw. unfold renameFields.
  repeat first
    [ apply keep_readProp
    | apply keep_lift
    | apply keep_ret
    | apply keep_writeProp; apply Hw; simpl; tauto
    | apply keep_when; intros _
    | apply keep_bind; [|intros ?]
    | match goal with |- context [if ?b then _ else _] => destruct b end ].
Qed.

(** After [renameFields], nothing writes to the store. *)
Lemma keep_withChainId l result h : P h → P (fst (withChainId l result h)).
Proof.
  revert h. unfold withChainId.
  repeat first
    [ apply keep_readProp
    | apply keep_hexToNumber
    | apply keep_ret
    | apply keep_bind; [|intros ?]
    | match goal with |- context [if ?b then _ else _] => destruct b end ].
Qed.

End Keeps.

Lemma transactionResponse_store l h :
  fst (transactionResponse l h) = fst (renameFields l h).
Proof.
  unfold transactionResponse. rewrite bind_run.
  destruct (renameFields l h) as [h1 [[]|e]]; [|done]. simpl.
  apply (keep_bind (λ h', h' = h1)); [| |done].
  - intros h' ->. apply (keep_readObject (λ h', h' = h1)). done.
  - intros object h' ->.
    apply (keep_bind (λ h', h' = h1)); [| |done].
    + by intros h' ->.
    + intros result h' ->. by apply (keep_withChainId (λ h', h' = h1)).
Qed.

End Store.

Section ChainId.
Context `{Collaborators}.

(** Lines 264-268 compute the floor of [(v - 35) / 2], and 0 when that is
    negative. *)
Lemma legacyChainId_floor (v : Z) : legacyChainId v = Z.max 0 ((v - 35) / 2).
Proof.
  unfold legacyChainId.
  assert (Hq : ((inject_Z v - inject_Z 35) / inject_Z 2)%Q = (v - 35) # 2).
  { unfold Qdiv, Qminus, Qplus, Qopp, Qmult, Qinv, inject_Z. simpl.
    f_equal. lia. }
  rewrite Hq. clear Hq.
  destruct (Qlt_le_dec _ 0) as [Hneg|Hpos]; unfold parseInt.
  - unfold Qlt in Hneg. simpl in Hneg.
    assert ((v - 35) / 2 < 0) by (apply Z.div_lt_upper_bound; lia).
    change (Z.quot (Qnum 0) (Z.pos (Qden 0))) with 0. lia.
  - unfold Qle in Hpos. simpl in Hpos. cbn [Qnum Qden].
    rewrite Z.quot_div_nonneg by lia.
    assert (0 ≤ (v - 35) / 2) by (apply Z.div_pos; lia). lia.
Qed.

Lemma readProp_at l key h o : h !! l = Some o → readProp l key h = (h, Ok (get o key)).
Proof. intros Hl. unfold readProp. by rewrite Hl. Qed.

Lemma hexToNumber_other chainId h :
  isHexString chainId None = false → hexToNumber chainId h = (h, Ok chainId).
Proof. intros Hhex. unfold hexToNumber. by rewrite Hhex. Qed.

Lemma ret_bind {A B} (a : A) (k : A → M B) h : (mret a ≫= k) h = k a h.
Proof. reflexivity. Qed.

Lemma isHexString_nullish (v : value) :
  isNullish v = true → isHexString v None = false.
Proof. by destruct v. Qed.

Lemma isNumber_nullish (v : value) : isNullish v = true → isNumber v = false.
Proof. by destruct v. Qed.

(** The chain id of a raw transaction without [chainId] whose [networkId]
    is neither a number nor a hex string. *)
Lemma withChainId_legacy l result h o :
  h !! l = Some o →
  isNullish (get o "chainId") = true →
  isNumber (get o "networkId") = false →
  isHexString (get o "networkId") None = false →
  withChainId l result h =
    (h, Ok (<["chainId" := match get result "v" with
                           | VNum v => VNum (legacyChainId v)
                           | _ => VNum 0
                           end]> result)).
Proof.
  intros Ho Hchain Hnum Hhex. unfold withChainId.
  rewrite bind_run, (readProp_at _ _ _ _ Ho), Hchain. cbn [negb].
  rewrite bind_run, (readProp_at _ _ _ _ Ho).
  pose proof (isHexString_nullish _ Hchain) as Hchex.
  pose proof (isNumber_nullish _ Hchain) as Hcnum.
  destruct (isNullish (get o "networkId") && isNullish (get result "v"))%bool
    eqn:Hboth.
  - apply andb_true_iff in Hboth as [_ Hv].
    rewrite bind_run, (readProp_at _ _ _ _ Ho).
    rewrite bind_run, (hexToNumber_other _ _ Hchex).
    rewrite Hcnum, Hv. cbn [negb andb]. rewrite Hcnum. cbn [negb].
    unfold mret, M_ret. by destruct (get result "v").
  - rewrite ret_bind.
    rewrite bind_run, (hexToNumber_other _ _ Hhex).
    rewrite Hnum. cbn [negb andb]. unfold mret, M_ret.
    destruct (get result "v"); cbn [isNullish negb isNumber]; rewrite ?Hnum; done.
Qed.

(** C4. On a raw transaction without [chainId], when the call succeeds:
    without [networkId] and with a numeric [v] on the record, the record's
    [chainId] is the floor of [(v - 35) / 2], and 0 when that is negative
    (so 1 for [v = 37]); with no [v] on the record and a [networkId] that
    is neither a number nor a hex string (or is not there), it is 0. *)
Theorem transactionResponse_legacy_chainId
    (h h' : gmap loc (gmap string value)) (l : loc)
    (raw rec : gmap string value) :
  h !! l = Some raw →
  isNullish (get raw "chainId") = true →
  transactionResponse l h = (h', Ok rec) →
  (isNullish (get raw "networkId") = true →
     (∀ v, rec !! "v" = Some (VNum v) →
           rec !! "chainId" = Some (VNum (Z.max 0 ((v - 35) / 2)))) ∧
     (rec !! "v" = Some (VNum 37) → rec !! "chainId" = Some (VNum 1))) ∧
  (isNumber (get raw "networkId") = false →
   isHexString (get raw "networkId") None = false →
   rec !! "v" = None → rec !! "chainId" = Some (VNum 0)).
Proof.
  intros Hl Hchain Hrun.
  unfold transactionResponse in Hrun.
  apply bind_ok_inv in Hrun as ([] & h1 & Hrename & Hrun).
  apply bind_ok_inv in Hrun as (object & h2 & Hread & Hrun).
  apply bind_ok_inv in Hrun as (result & h3 & Hcheck & Hrun).
  (* the object that [check] and the chain id code read *)
  assert (Hkept : ∃ o', h1 !! l = Some o' ∧
            get o' "chainId" = get raw "chainId" ∧
            get o' "networkId" = get raw "networkId").
  { replace h1 with (fst (renameFields l h)) by (by rewrite Hrename).
    apply (keep_renameFields
      (λ h', ∃ o', h' !! l = Some o' ∧
         get o' "chainId" = get raw "chainId" ∧
         get o' "networkId" = get raw "networkId") l); [|by exists raw].
    intros key v Hkey h0 o (o' & Ho' & Hc & Hn) Ho.
    rewrite Ho' in Ho. injection Ho as <-.
    exists (<[key := v]> o'). rewrite lookup_insert_eq. split; [done|].
    unfold get in *.
    rewrite !lookup_insert_ne; [done| |];
      intros ->; simpl in Hkey; intuition discriminate. }
  destruct Hkept as (o' & Ho' & Hc & Hn).
  unfold readObject in Hread. rewrite Ho' in Hread.
  injection Hread as <- <-.
  unfold lift in Hcheck. injection Hcheck as <- Hcheck.
  rewrite <- Hc in Hchain. rewrite <- Hn. clear Hc Hn Hrename Hl raw.
  assert (Hlegacy : isNumber (get o' "networkId") = false →
            isHexString (get o' "networkId") None = false →
            rec = <["chainId" := match get result "v" with
                                 | VNum v => VNum (legacyChainId v)
                                 | _ => VNum 0
                                 end]> result).
  { intros Hnum Hhex.
    rewrite (withChainId_legacy _ _ _ _ Ho' Hchain Hnum Hhex) in Hrun.
    by injection Hrun as _ <-. }
  clear Hrun. split.
  - intros Hnet.
    specialize (Hlegacy (isNumber_nullish _ Hnet) (isHexString_nullish _ Hnet)).
    assert (Hv : ∀ v, rec !! "v" = Some (VNum v) →
              rec !! "chainId" = Some (VNum (legacyChainId v))).
    { intros v. rewrite Hlegacy, lookup_insert_ne, lookup_insert_eq by done.
      unfold get. by intros ->. }
    split.
    + intros v Hrec. by rewrite (Hv v Hrec), legacyChainId_floor.
    + intros Hrec. by rewrite (Hv 37 Hrec).
  - intros Hnum Hhex. rewrite (Hlegacy Hnum Hhex).
    rewrite lookup_insert_ne, lookup_insert_eq by done.
    unfold get. by intros ->.
Qed.

End ChainId.

Section Mutation.
Context `{Collaborators}.

Lemma bind_eval {A B} (m : M A) (k : A → M B) h h1 a :
  m h = (h1, Ok a) → (m ≫= k) h = k a h1.
Proof. intros Hm. by rewrite bind_run, Hm. Qed.

Lemma readProp_eval l key h o v :
  h !! l = Some o → get o key = v → readProp l key h = (h, Ok v).
Proof. intros Hl <-. by apply readProp_at. Qed.

Lemma when_write l key v (b : bool) h o :
  h !! l = Some o → b = true →
  when b (writeProp l key v) h = (<[l := <[key := v]> o]> h, Ok tt).
Proof. intros Hl ->. unfold when, writeProp. by rewrite Hl. Qed.

Lemma when_skip (b : bool) (m : M unit) h :
  b = false → when b m h = (h, Ok tt).
Proof. by intros ->. Qed.

(** One step of a run of [renameFields] on a store whose object at [l] is
    known: a property read, or a guarded write. *)
Ltac step :=
  lazymatch goal with
  | Hl : ?h !! ?l = Some ?o |- context [(readProp ?l ?key ≫= ?k) ?h] =>
      let v := eval vm_compute in (get o key) in
      rewrite (bind_eval (readProp l key) k h h v
                 (readProp_eval l key h o v Hl
                    ltac:(vm_compute; reflexivity)));
      cbv beta
  | Hl : ?h !! ?l = Some ?o
    |- context [(when ?b (writeProp ?l ?key ?v) ≫= ?k) ?h] =>
      let bv := eval vm_compute in b in
      lazymatch bv with
      | true =>
          rewrite (bind_eval (when b (writeProp l key v)) k h _ tt
                     (when_write l key v b h o Hl
                        ltac:(vm_compute; reflexivity)));
          cbv beta;
          let Hl' := fresh "Hl" in
          pose proof (lookup_insert_eq h l (<[key := v]> o)) as Hl';
          clear Hl
      | false =>
          rewrite (bind_eval (when b (writeProp l key v)) k h h tt
                     (when_skip b _ h ltac:(vm_compute; reflexivity)));
          cbv beta
      end
  end.

(** C10. [transactionResponse] writes to the object it is given. On the
    raw transaction [{gas, to: "0x0", input, type: 1}], once
    [BigNumber.from("0x0")] is zero, the caller's object has afterwards a
    [gasLimit] copied from [gas], the zero address as [to], a [data] copied
    from [input] and an empty [accessList], none of which it had before;
    on the empty object it has a [creates] that refers to the object
    itself. The object passed in is not the object found after the call. *)
Theorem transactionResponse_mutates_raw
    (h : gmap loc (gmap string value)) (l : loc) :
  BigNumber_from (VStr "0x0") = Ok 0 →
  (h !! l = Some Sample.rawAliased →
   ∃ after,
     fst (transactionResponse l h) !! l = Some after ∧
     after ≠ Sample.rawAliased ∧
     Sample.rawAliased !! "gasLimit" = None ∧
     after !! "gasLimit" = Some (VStr "0x5208") ∧
     Sample.rawAliased !! "to" = Some (VStr "0x0") ∧
     after !! "to" = Some (VStr AddressZero) ∧
     Sample.rawAliased !! "data" = None ∧
     after !! "data" = Some (VStr "0xabcd") ∧
     Sample.rawAliased !! "accessList" = None ∧
     after !! "accessList" = Some (VArr [])) ∧
  (h !! l = Some ∅ →
   fst (transactionResponse l h) !! l = Some {[ "creates" := VRef l ]}).
Proof.
  intros Hzero. rewrite !transactionResponse_store.
  unfold renameFields.
  split; intros Hl.
  - repeat step.
    lazymatch goal with
    | |- context [(?m ≫= ?k) ?h0] =>
        rewrite (bind_eval m k h0 h0 true)
          by (simpl; rewrite bind_run; unfold lift; rewrite Hzero; reflexivity)
    end.
    cbv beta.
    repeat step.
    rewrite (when_write _ _ _ _ _ _ Hl0) by (vm_compute; reflexivity).
    cbn [fst]. rewrite lookup_insert_eq.
    eexists. split; [reflexivity|].
    split_and!; try (vm_compute; reflexivity).
    intros Heq.
    apply (f_equal (λ o : gmap string value, get o "gasLimit")) in Heq.
    vm_compute in Heq. discriminate.
  - repeat step.
    lazymatch goal with
    | |- context [(?m ≫= ?k) ?h0] =>
        rewrite (bind_eval m k h0 h0 false) by reflexivity
    end.
    cbv beta.
    repeat step.
    rewrite when_skip by (vm_compute; reflexivity).
    cbn [fst]. by rewrite Hl0.
Qed.

End Mutation.

(** ** [timestamp] *)

Section Timestamp.
Context `{Collaborators}.

(** A string that is a timestamp from end to end is accepted, and what
    [timestamp] returns is always its argument. *)
Lemma timestamp_whole (s : string) :
  matchWhole s = true → timestamp (VStr s) = Ok (VStr s).
Proof.
  unfold matchWhole, timestamp. intros Hs.
  assert (Hhere : matchHere s = true).
  { unfold matchHere. destruct (digits 10 s) as [[|c rest]|]; try done.
    destruct (Ascii.eqb c ".") eqn:Hc; [|by destruct c as [[] [] [] [] [] [] [] []]].
    apply Ascii.eqb_eq in Hc as ->.
    apply bool_decide_eq_true in Hs. rewrite Hs. done. }
  assert (Hany : matchAnywhere s = true).
  { destruct s; cbn [matchAnywhere]; by rewrite Hhere. }
  by rewrite Hany.
Qed.

Lemma timestamp_unchanged (v r : value) : timestamp v = Ok r → r = v.
Proof.
  unfold timestamp. destruct v; try discriminate.
  destruct (matchAnywhere s); simpl; congruence.
Qed.

(** C3, at the failing input. The pattern of [timestamp] has no anchors: a
    string that only contains a timestamp is returned although it is not of
    the shape [^\d{10}\.\d{9}$]. *)
Theorem timestamp_accepts_padded :
  matchWhole Sample.paddedTimestamp = false ∧
  timestamp (VStr Sample.paddedTimestamp) = Ok (VStr Sample.paddedTimestamp).
Proof. split; reflexivity. Qed.

End Timestamp.

(** * Further properties of the engine and its combinators *)

Section CheckMore.
Implicit Types (fmt : format) (object result : gmap string value).

Lemma check_loop_succeeds fmt object result called :
  (∃ r, snd (check_loop fmt object result called) = Ok r) ↔
  ∀ key f, In (key, f) fmt → ∃ v, f (get object key) = Ok v.
Proof.
  revert result called.
  induction fmt as [|[k g] rest IH]; intros result called; simpl.
  - split; [intros _ ? ? [] | eauto].
  - destruct (g (get object k)) as [w|e] eqn:Hg; simpl.
    + rewrite IH. split.
      * intros Hrest key f [[= <- <-] | Hin]; eauto.
      * intros Hall key f Hin. apply Hall. by right.
    + split; [intros [r [=]]|].
      intros Hall. destruct (Hall k g (or_introl eq_refl)) as [v Hv]. congruence.
Qed.

Lemma check_succeeds fmt object :
  (∃ r, check fmt object = Ok r) ↔
  ∀ key f, In (key, f) fmt → ∃ v, f (get object key) = Ok v.
Proof. apply check_loop_succeeds. Qed.

(** X1. [check] returns a record exactly when every coercer of the format
    accepts the property of its name; otherwise it throws. *)
Theorem check_succeeds_iff fmt object :
  ((∃ r, check fmt object = Ok r) ↔
   ∀ key f, In (key, f) fmt → ∃ v, f (get object key) = Ok v) ∧
  ((∃ e, check fmt object = Throw e) ↔
   ∃ key f e, In (key, f) fmt ∧ f (get object key) = Throw e).
Proof.
  split; [apply check_succeeds|]. split.
  - intros [e He].
    destruct (check_loop_throw _ _ _ _ _ He)
      as (pre & key & f & post & e0 & -> & _ & Hf & _).
    exists key, f, e0. split; [|done]. apply in_elt.
  - intros (key & f & e & Hin & Hf).
    destruct (check fmt object) as [r|e'] eqn:Hc; [|eauto].
    destruct (proj1 (check_succeeds fmt object) (ex_intro _ r Hc) key f Hin).
    congruence.
Qed.

Lemma check_loop_reads fmt object object' result called :
  (∀ key, In key (map fst fmt) → get object key = get object' key) →
  check_loop fmt object result called = check_loop fmt object' result called.
Proof.
  revert result called.
  induction fmt as [|[k g] rest IH]; intros result called Hsame; simpl; [done|].
  rewrite <- (Hsame k) by (by left).
  destruct (g (get object k)); [|done].
  apply IH. intros key Hin. apply Hsame. by right.
Qed.

(** X2. [check] reads the raw object at the keys of the format only: two
    raw objects that agree there get the same outcome from the same
    coercer calls, whatever else they hold. *)
Theorem check_reads_format_keys fmt object object' :
  (∀ key, In key (map fst fmt) → get object key = get object' key) →
  check fmt object = check fmt object' ∧
  check_calls fmt object = check_calls fmt object'.
Proof.
  intros Hsame. unfold check, check_calls, check_run.
  by rewrite (check_loop_reads fmt object object' ∅ [] Hsame).
Qed.

Lemma format_key_unique fmt key (f g : coercer) :
  NoDup (map fst fmt) → In (key, f) fmt → In (key, g) fmt → f = g.
Proof.
  induction fmt as [|[k h] rest IH]; simpl; [done|].
  intros [Hk Hnd]%NoDup_cons [Hf | Hf] [Hg | Hg]; simplify_eq.
  - done.
  - destruct Hk. apply list_elem_of_In. by apply (in_format_key _ _ g).
  - destruct Hk. apply list_elem_of_In. by apply (in_format_key _ _ f).
  - by apply IH.
Qed.

(** X3. Canonical records are fixed points: if every coercer of the format
    returns its own results unchanged, a record that [check] returned is
    returned unchanged when [check] is applied to it. *)
Theorem check_fixed_point fmt object r :
  NoDup (map fst fmt) →
  (∀ key f v w, In (key, f) fmt → f v = Ok w → f w = Ok w) →
  check fmt object = Ok r →
  check fmt r = Ok r.
Proof.
  intros Hnd Hidem Hok.
  pose proof (check_ok_lookup fmt object r Hnd Hok) as Hr.
  assert (Hall : ∀ key f, In (key, f) fmt → f (get r key) = Ok (get r key)).
  { intros key f Hin.
    destruct (proj1 (check_succeeds fmt object) (ex_intro _ r Hok) key f Hin)
      as [w Hw].
    assert (Hget : get r key = w).
    { unfold get. destruct (r !! key) as [v|] eqn:Hv; simpl.
      - apply Hr in Hv as (g & Hg & Hgv & _).
        rewrite (format_key_unique fmt key f g Hnd Hin Hg) in Hw. congruence.
      - destruct (isUndefined w) eqn:Hu; [by apply isUndefined_spec in Hu|].
        assert (Hne : w ≠ VUndef) by (intros ->; discriminate).
        assert (r !! key = Some w) by (apply Hr; eauto). congruence. }
    rewrite Hget. by apply (Hidem key f (get object key)). }
  destruct (proj2 (check_succeeds fmt r)) as [r' Hr'].
  { intros key f Hin. eauto. }
  rewrite Hr'. f_equal. apply map_eq. intros key. apply option_eq. intros v.
  rewrite (check_ok_lookup fmt r r' Hnd Hr' key v). split.
  - intros (f & Hin & Hf & Hne). rewrite (Hall key f Hin) in Hf.
    injection Hf as Hf. unfold get in Hf.
    destruct (r !! key); simpl in Hf; congruence.
  - intros Hv. destruct (proj1 (Hr key v) Hv) as (f & Hin & _ & Hne).
    exists f. split_and!; [done| |done].
    rewrite (Hall key f Hin). unfold get. by rewrite Hv.
Qed.

End CheckMore.

Section CombinatorsMore.

Lemma mapM_ok (f : coercer) (xs ys : list value) :
  mapM f xs = Ok ys ↔ Forall2 (λ x y, f x = Ok y) xs ys.
Proof.
  revert ys. induction xs as [|x xs IH]; intros ys; simpl.
  - split; [intros [= <-]; constructor | by intros ->%Forall2_nil_inv_l].
  - destruct (f x) as [y|e] eqn:Hx; simpl.
    + destruct (mapM f xs) as [zs|e] eqn:Hxs; simpl.
      * split.
        -- intros [= <-]. constructor; [done|]. by apply IH.
        -- intros (y' & zs' & Hy & Hzs & ->)%Forall2_cons_inv_l.
           apply IH in Hzs. congruence.
      * split; [discriminate|].
        intros (y' & zs' & Hy & Hzs & ->)%Forall2_cons_inv_l.
        apply IH in Hzs. discriminate.
    + split; [discriminate|].
      intros (y' & zs' & Hy & Hzs & ->)%Forall2_cons_inv_l. congruence.
Qed.

Lemma mapM_throw (f : coercer) (pre post : list value) (x : value) (e : error) :
  (∀ p, In p pre → ∃ y, f p = Ok y) → f x = Throw e →
  mapM f (pre ++ x :: post) = Throw e.
Proof.
  induction pre as [|p pre IH]; intros Hpre Hx; simpl.
  - by rewrite Hx.
  - destruct (Hpre p (or_introl eq_refl)) as [y ->]. simpl.
    rewrite IH; [done| |done]. intros q Hq. apply Hpre. by right.
Qed.

Lemma mapM_length (f : coercer) (xs ys : list value) :
  mapM f xs = Ok ys → length ys = length xs.
Proof. intros H%mapM_ok. symmetry. by eapply Forall2_length. Qed.

(** X4. [arrayOf(f)] on an array returns the array of the coerced
    elements, of the same length and in the same order, exactly when [f]
    accepts every element; the error of the first element that [f] rejects
    is the error of the call; and on anything that is not an array the
    call throws "not an array". *)
Theorem arrayOf_spec (f : coercer) :
  (∀ xs ys, arrayOf f (VArr xs) = Ok (VArr ys) ↔
            Forall2 (λ x y, f x = Ok y) xs ys) ∧
  (∀ xs r, arrayOf f (VArr xs) = Ok r →
           ∃ ys, r = VArr ys ∧ length ys = length xs) ∧
  (∀ pre x post e,
     (∀ p, In p pre → ∃ y, f p = Ok y) → f x = Throw e →
     arrayOf f (VArr (pre ++ x :: post)) = Throw e) ∧
  (∀ v, (∀ xs, v ≠ VArr xs) → arrayOf f v = Throw (newError "not an array")).
Proof.
  split_and!.
  - intros xs ys. rewrite <- mapM_ok. unfold arrayOf.
    destruct (mapM f xs); simpl; split; congruence.
  - intros xs r. unfold arrayOf.
    destruct (mapM f xs) as [ys|] eqn:Hxs; simpl; [|discriminate].
    intros [= <-]. exists ys. split; [done|]. by apply (mapM_length f).
  - intros pre x post e Hpre Hx. unfold arrayOf.
    by rewrite (mapM_throw f pre post x e Hpre Hx).
  - intros v Hv. destruct v; try done. by destruct (Hv xs).
Qed.

(** X5. [allowFalsish(f, X)] returns [X] on the falsy values, which are
    [undefined], [null], [false], [0] and the empty string, and [f(v)] on
    every other value; it differs from [allowNull(f, X)] on [false], [0]
    and the empty string only. *)
Theorem allowFalsish_spec (f : coercer) (X : value) :
  (∀ v, truthy v = false ↔
        v = VUndef ∨ v = VNull ∨ v = VBool false ∨ v = VNum 0
        ∨ v = VStr EmptyString) ∧
  (∀ v, truthy v = false → allowFalsish f X v = Ok X) ∧
  (∀ v, truthy v = true → allowFalsish f X v = f v) ∧
  (∀ v, v ≠ VBool false → v ≠ VNum 0 → v ≠ VStr EmptyString →
        allowFalsish f X v = allowNull f X v).
Proof.
  assert (Hfalsy : ∀ v, truthy v = false ↔
            v = VUndef ∨ v = VNull ∨ v = VBool false ∨ v = VNum 0
            ∨ v = VStr EmptyString).
  { intros v. split.
    - destruct v as [| |b|n|s| | | |]; simpl; intros Ht; try discriminate;
        try tauto.
      + destruct b; [discriminate | tauto].
      + apply negb_false_iff, Z.eqb_eq in Ht as ->. tauto.
      + apply negb_false_iff, String.eqb_eq in Ht as ->. tauto.
    - intros [->|[->|[->|[->| ->]]]]; done. }
  split_and!; [done | | |].
  - intros v Hv. unfold allowFalsish. by rewrite Hv.
  - intros v Hv. unfold allowFalsish. by rewrite Hv.
  - intros v Hb Hn Hs. unfold allowFalsish, allowNull.
    destruct (truthy v) eqn:Hv.
    + destruct v; try done.
    + apply Hfalsy in Hv as [->|[->|[->|[->| ->]]]]; done.
Qed.

End CombinatorsMore.

(** * Further properties of the scalar coercers *)

Section ScalarsMore.
Context `{Collaborators}.

(** X6. [hex] without [strict] treats a string that does not start with
    "0x" as if the prefix had been written, and with [strict] rejects it;
    it rejects whatever is not a string; and what it returns is a
    lower-case hex string that [hex] returns unchanged, strict or not. *)
Theorem hex_spec (v : value) (strict : bool) :
  (∀ s, v = VStr s → String.eqb (prefix2 s) "0x" = false →
        hex v false = hex (VStr ("0x" ++ s)) true ∧
        ∃ e, hex v true = Throw e) ∧
  ((∀ s, v ≠ VStr s) → ∃ e, hex v strict = Throw e) ∧
  (∀ r, hex v strict = Ok r →
        isHexStr r = true ∧ toLowerCase r = r ∧
        ∀ strict', hex (VStr r) strict' = Ok r).
Proof.
  split_and!.
  - intros s -> Hpre. split.
    + unfold hex. rewrite Hpre. reflexivity.
    + unfold hex. simpl.
      destruct (isHexStr s) eqn:Hs; [|rewrite andb_false_l; eauto].
      apply isHexStr_prefix in Hs. rewrite Hs in Hpre. discriminate.
  - intros Hv. destruct v; simpl; eauto. by destruct (Hv s).
  - intros r Hr. destruct (hex_ok _ _ _ Hr) as [Hhex Hlow].
    split_and!; [done|done|].
    intros strict'. by rewrite (hex_of_hex r strict' Hhex), Hlow.
Qed.

Lemma hash48_ok (v : value) (strict : bool) (r : string) :
  hash48 v strict = Ok r → hex v strict = Ok r ∧ hexDataLength r = Some 48.
Proof.
  unfold hash48. destruct (hex v strict) as [p|e]; simpl; [|discriminate].
  destruct (bool_decide (hexDataLength p = Some 48)) eqn:Hlen; simpl;
    [|discriminate].
  intros [= <-]. by apply bool_decide_eq_true in Hlen.
Qed.

Lemma hash32_ok (v : value) (strict : bool) (r : string) :
  hash32 v strict = Ok r → hex v strict = Ok r ∧ hexDataLength r = Some 32.
Proof.
  unfold hash32. destruct (hex v strict) as [p|e]; simpl; [|discriminate].
  destruct (bool_decide (hexDataLength p = Some 32)) eqn:Hlen; simpl;
    [|discriminate].
  intros [= <-]. by apply bool_decide_eq_true in Hlen.
Qed.

Lemma hash32_of_canonical (r : string) (strict : bool) :
  isHexStr r = true → toLowerCase r = r → hexDataLength r = Some 32 →
  hash32 (VStr r) strict = Ok r.
Proof.
  intros Hhex Hlow Hlen. unfold hash32.
  rewrite (hex_of_hex r strict Hhex), Hlow. simpl.
  by rewrite bool_decide_eq_true_2.
Qed.

(** X7. Whatever [hash48] returns, for any input and either value of
    [strict], is a lower-case hex string of exactly 48 bytes, and [hash48]
    returns it unchanged: the canonical form is a fixed point. *)
Theorem hash48_canonical (v : value) (strict : bool) (r : string) :
  hash48 v strict = Ok r →
  isHexStr r = true ∧ hexDataLength r = Some 48 ∧ toLowerCase r = r ∧
  ∀ strict', hash48 (VStr r) strict' = Ok r.
Proof.
  intros [Hhex Hlen]%hash48_ok.
  destruct (hex_ok _ _ _ Hhex) as [Hr Hlow].
  split_and!; try done.
  intros strict'. unfold hash48.
  rewrite (hex_of_hex r strict' Hr), Hlow. simpl.
  by rewrite bool_decide_eq_true_2.
Qed.

(** X8. On a valid 0x-prefixed hex string of exactly 32 bytes [hash32]
    returns the string in lower case and on a hex string of any other byte
    length it throws; whatever it returns, for any input, is a lower-case
    hex string of 32 bytes that [hash32] returns unchanged. *)
Theorem hash32_spec (v : value) (strict : bool) :
  (∀ h, v = VStr h → isHexStr h = true →
        (hexDataLength h = Some 32 → hash32 v strict = Ok (toLowerCase h)) ∧
        (hexDataLength h ≠ Some 32 → ∃ e, hash32 v strict = Throw e)) ∧
  (∀ r, hash32 v strict = Ok r →
        isHexStr r = true ∧ hexDataLength r = Some 32 ∧ toLowerCase r = r ∧
        ∀ strict', hash32 (VStr r) strict' = Ok r).
Proof.
  split.
  - intros h -> Hh. unfold hash32. rewrite (hex_of_hex h strict Hh). simpl.
    rewrite (hexDataLength_lower h Hh). split; intros Hlen.
    + by rewrite bool_decide_eq_true_2.
    + rewrite bool_decide_eq_false_2 by done. simpl. eauto.
  - intros r [Hhex Hlen]%hash32_ok.
    destruct (hex_ok _ _ _ Hhex) as [Hr Hlow].
    split_and!; try done.
    intros strict'. by apply hash32_of_canonical.
Qed.

(** X9. [boolean] accepts the two booleans and the strings that read
    "true" or "false" in any mix of upper and lower case, and nothing
    else; what it returns is a boolean, which it returns unchanged; and it
    treats a string as it treats its lower-case form. *)
Theorem boolean_spec (v : value) :
  (∀ b, boolean v = Ok (VBool b) ↔
        v = VBool b ∨
        ∃ s, v = VStr s ∧ toLowerCase s = (if b then "true" else "false")) ∧
  (∀ r, boolean v = Ok r → ∃ b, r = VBool b ∧ boolean r = Ok r) ∧
  (∀ s, v = VStr s → boolean v = boolean (VStr (toLowerCase s))).
Proof.
  split_and!.
  - intros b. destruct v as [| |b'|n|s| | | |]; simpl;
      try (split; [discriminate | intros [?|(s' & ? & _)]; discriminate]).
    + split; [intros [= ->]; by left | intros [[= ->]|(s' & ? & _)]; done].
    + destruct (String.eqb_spec (toLowerCase s) "true") as [Ht|Ht].
      * split.
        -- intros [= <-]. right. eauto.
        -- intros [?|(s' & [= <-] & Hs')]; [done|].
           destruct b; [done|]. rewrite Ht in Hs'. discriminate.
      * destruct (String.eqb_spec (toLowerCase s) "false") as [Hf|Hf].
        -- split.
           ++ intros [= <-]. right. eauto.
           ++ intros [?|(s' & [= <-] & Hs')]; [done|].
              destruct b; [|done]. rewrite Hf in Hs'. discriminate.
        -- split; [discriminate|].
           intros [?|(s' & [= <-] & Hs')]; [done|]. by destruct b.
  - intros r. destruct v as [| |b'|n|s| | | |]; simpl; try discriminate.
    + intros [= <-]. eauto.
    + destruct (String.eqb (toLowerCase s) "true");
        [intros [= <-]; eauto|].
      destruct (String.eqb (toLowerCase s) "false");
        [intros [= <-]; eauto | discriminate].
  - intros s ->. simpl. by rewrite toLowerCase_idem.
Qed.

Lemma toNumber_safe (b n : Z) :
  toNumber b = Ok n → n = b ∧ - 2 ^ 53 < n < 2 ^ 53.
Proof.
  unfold toNumber. destruct (Z.ltb_spec (Z.abs b) (2 ^ 53)); [|discriminate].
  intros [= <-]. split; [done|]. lia.
Qed.

Lemma number_ok (v r : value) :
  number v = Ok r → ∃ n, r = VNum n ∧ - 2 ^ 53 < n < 2 ^ 53.
Proof.
  unfold number. destruct (isStr0x v).
  - intros [= <-]. exists 0. split; [done|]. lia.
  - destruct (BigNumber_from v) as [b|e]; simpl; [|discriminate].
    destruct (toNumber b) as [n|e] eqn:Hn; simpl; [|discriminate].
    intros [= <-]. exists n. split; [done|]. by apply (toNumber_safe b).
Qed.

Lemma type_ok (v r : value) :
  type v = Ok r → ∃ n, r = VNum n ∧ - 2 ^ 53 < n < 2 ^ 53.
Proof.
  unfold type. destruct (isStr0x v || isNullish v)%bool.
  - intros [= <-]. exists 0. split; [done|]. lia.
  - destruct (BigNumber_from v) as [b|e]; simpl; [|discriminate].
    destruct (toNumber b) as [n|e] eqn:Hn; simpl; [|discriminate].
    intros [= <-]. exists n. split; [done|]. by apply (toNumber_safe b).
Qed.

(** X10. [type] is [number] except on [null] and [undefined], where it
    answers 0 instead of passing them to [BigNumber.from]; both answer 0
    on "0x" without consulting [BigNumber.from]; and what they return is a
    number of the safe-integer range. *)
Theorem number_type_spec (v : value) :
  (isNullish v = false → type v = number v) ∧
  (isNullish v = true → type v = Ok (VNum 0)) ∧
  (v = VStr "0x" → number v = Ok (VNum 0) ∧ type v = Ok (VNum 0)) ∧
  (∀ r, number v = Ok r ∨ type v = Ok r →
        ∃ n, r = VNum n ∧ - 2 ^ 53 < n < 2 ^ 53).
Proof.
  split_and!.
  - intros Hv. unfold type, number. by rewrite Hv, orb_false_r.
  - intros Hv. unfold type. by rewrite Hv, orb_true_r.
  - by intros ->.
  - intros r [Hr|Hr]; [by apply (number_ok v) | by apply (type_ok v)].
Qed.

(** X11. [difficulty] never throws for a number that is too large: it
    throws exactly when its argument is neither [null] nor [undefined] and
    [BigNumber.from] rejects it, with that error; otherwise it returns
    [null] or a number of the safe-integer range; and apart from "0x" it
    returns what [number] returns wherever [number] returns. *)
Theorem difficulty_spec (v : value) :
  (∀ e, difficulty v = Throw e ↔
        isNullish v = false ∧ BigNumber_from v = Throw e) ∧
  (isNullish v = true → difficulty v = Ok VNull) ∧
  (∀ b, isNullish v = false → BigNumber_from v = Ok b →
        difficulty v = Ok (if Z.ltb (Z.abs b) (2 ^ 53) then VNum b else VNull)) ∧
  (∀ r, isNullish v = false → isStr0x v = false →
        number v = Ok r → difficulty v = Ok r).
Proof.
  split_and!.
  - intros e. unfold difficulty. destruct (isNullish v); simpl.
    + split; [discriminate | intros [? _]; discriminate].
    + destruct (BigNumber_from v) as [b|e']; simpl.
      * destruct (toNumber b); split; try discriminate; intros [_ ?]; discriminate.
      * split; [intros [= ->]; done | intros [_ [= ->]]; done].
  - intros Hv. unfold difficulty. by rewrite Hv.
  - intros b Hv Hb. unfold difficulty, toNumber. rewrite Hv, Hb. simpl.
    by destruct (Z.abs b <? 2 ^ 53).
  - intros r Hv H0x. unfold number, difficulty. rewrite H0x, Hv.
    destruct (BigNumber_from v) as [b|e]; simpl; [|discriminate].
    destruct (toNumber b); simpl; [|discriminate]. done.
Qed.

End ScalarsMore.

Section AddressesAndTopics.
Context `{Collaborators}.

(** X12. [callAddress] returns [null] on whatever is not a hex string of
    exactly 32 bytes, without consulting [getAddress]; on such a string it
    passes the last 20 bytes to [getAddress], whose error is the only error
    it can throw, and returns the address or [null] in place of the zero
    address, which it never returns. *)
Theorem callAddress_spec (v : value) :
  (isHexString v (Some 32) = false → callAddress v = Ok VNull) ∧
  (∀ s, v = VStr s → isHexString v (Some 32) = true →
        callAddress v =
        (a ← getAddress ("0x" ++ dropChars 26 s);
         Ok (if String.eqb a AddressZero then VNull else VStr a))) ∧
  (∀ r, callAddress v = Ok r → r ≠ VStr AddressZero).
Proof.
  assert (Hhex : ∀ s, isHexString (VStr s) (Some 32) = true →
            callAddress (VStr s) =
            (a ← getAddress ("0x" ++ dropChars 26 s);
             Ok (if String.eqb a AddressZero then VNull else VStr a))).
  { intros s Hs. unfold callAddress. rewrite Hs. cbn [negb].
    simpl in Hs. apply andb_true_iff in Hs as [Hs Hlen].
    apply Z.eqb_eq in Hlen.
    unfold hexDataSlice. rewrite Hs, Hlen. reflexivity. }
  split_and!.
  - intros Hv. unfold callAddress. destruct v; try done. by rewrite Hv.
  - intros s ->. apply Hhex.
  - intros r. destruct (isHexString v (Some 32)) eqn:Hv.
    + destruct v as [| | | |s| | | |]; try discriminate.
      rewrite (Hhex s Hv).
      destruct (getAddress _) as [a|e]; simpl; [|discriminate].
      destruct (String.eqb_spec a AddressZero) as [Ha|Ha];
        intros [= <-]; congruence.
    + unfold callAddress. destruct v; try (intros [= <-]; discriminate).
      rewrite Hv. intros [= <-]. discriminate.
Qed.

Lemma topics_array (xs : list value) :
  topics (VArr xs) = (ys ← mapM topics xs; Ok (VArr ys)).
Proof.
  cbn [topics]. f_equal.
  induction xs as [|x xs IH]; [done|].
  cbn [mapM]. destruct (topics x); simpl; [|done]. by rewrite IH.
Qed.

Lemma topics_leaf (v : value) (r : value) :
  isNullish v = false → (∀ xs, v ≠ VArr xs) → topics v = Ok r →
  ∃ s, hash32 v true = Ok s ∧ r = VStr s.
Proof.
  intros Hnull Harr.
  destruct v as [| |b|n|s|n|xs|o|l]; try discriminate;
    try (by destruct (Harr xs)); cbn [topics];
    destruct (hash32 _ true) as [s'|e]; simpl; try discriminate;
    intros [= <-]; eauto.
Qed.

Lemma topics_fixed : ∀ v r, topics v = Ok r → topics r = Ok r.
Proof.
  fix IH 1. intros v r.
  destruct v as [| |b|n|s|n|xs|o|l];
    try (intros [= <-]; reflexivity);
    try (intros Hr; apply topics_leaf in Hr as (s' & Hs & ->);
           [|done|done];
         apply hash32_ok in Hs as [Hs Hlen];
         destruct (hex_ok _ _ _ Hs) as [Hhex Hlow];
         cbn [topics]; by rewrite (hash32_of_canonical s' true Hhex Hlow Hlen)).
  rewrite topics_array.
  destruct (mapM topics xs) as [ys|e] eqn:Hxs; simpl; [|discriminate].
  intros [= <-]. rewrite topics_array.
  assert (Hys : mapM topics ys = Ok ys); [|by rewrite Hys].
  revert ys Hxs. induction xs as [|x xs IHxs]; intros ys; simpl.
  - by intros [= <-].
  - destruct (topics x) as [y|e] eqn:Hx; simpl; [|discriminate].
    destruct (mapM topics xs) as [zs|e] eqn:Hzs; simpl; [|discriminate].
    intros [= <-]. simpl. rewrite (IH x y Hx). simpl.
    by rewrite (IHxs zs eq_refl).
Qed.

(** X13. What [topics] returns it returns unchanged when applied to it.
    [null] and [undefined] come back as [null]; an array comes back as an
    array of the same length whose elements are the topics of its
    elements, at any depth; and a string that comes back is a lower-case
    hex string of exactly 32 bytes. *)
Theorem topics_spec (v r : value) :
  topics v = Ok r →
  topics r = Ok r ∧
  (isNullish v = true → r = VNull) ∧
  (∀ xs, v = VArr xs →
     ∃ ys, r = VArr ys ∧ length ys = length xs ∧
           Forall2 (λ x y, topics x = Ok y) xs ys) ∧
  (∀ s, r = VStr s →
     isHexStr s = true ∧ hexDataLength s = Some 32 ∧ toLowerCase s = s).
Proof.
  intros Hr. split_and!.
  - by apply (topics_fixed v).
  - intros Hv. destruct v; try discriminate; simpl in Hr; congruence.
  - intros xs ->. rewrite topics_array in Hr.
    destruct (mapM topics xs) as [ys|e] eqn:Hxs; simpl in Hr; [|discriminate].
    injection Hr as <-. exists ys. split_and!; [done | | by apply mapM_ok].
    by apply (mapM_length topics).
  - intros s ->.
    destruct (isNullish v) eqn:Hnull.
    { destruct v; try discriminate; simpl in Hr; discriminate. }
    assert (Harr : ∀ xs, v ≠ VArr xs).
    { intros xs ->. rewrite topics_array in Hr.
      destruct (mapM topics xs); simpl in Hr; discriminate. }
    destruct (topics_leaf v _ Hnull Harr Hr) as (s' & Hs & [= <-]).
    apply hash32_ok in Hs as [Hs Hlen].
    destruct (hex_ok _ _ _ Hs) as [Hhex Hlow]. done.
Qed.

End AddressesAndTopics.

Section TimestampMore.

Lemma string_app_assoc (a b c : string) :
  ((a ++ b) ++ c = a ++ b ++ c)%string.
Proof.
  induction a as [|x a IH]; [done|].
  change (String x ((a ++ b) ++ c) = String x (a ++ b ++ c))%string.
  by rewrite IH.
Qed.

Lemma digits_app (n : nat) (s rest post : string) :
  digits n s = Some rest → digits n (s ++ post)%string = Some (rest ++ post)%string.
Proof.
  revert s. induction n as [|n IH]; intros s; simpl.
  - by intros [= ->].
  - destruct s as [|c s]; [discriminate|]. simpl.
    destruct (isDigit c); [apply IH | discriminate].
Qed.

Lemma digits_split (n : nat) (s rest : string) :
  digits n s = Some rest →
  ∃ d, s = (d ++ rest)%string ∧ digits n d = Some EmptyString.
Proof.
  revert s. induction n as [|n IH]; intros s; simpl.
  - intros [= ->]. by exists EmptyString.
  - destruct s as [|c s]; [discriminate|].
    destruct (isDigit c) eqn:Hc; [|discriminate].
    intros (d & -> & Hd)%IH. exists (String c d). simpl. by rewrite Hc.
Qed.

Lemma matchHere_iff (s : string) :
  matchHere s = true ↔
  ∃ mid post, s = (mid ++ post)%string ∧ matchWhole mid = true.
Proof.
  unfold matchHere, matchWhole. split.
  - destruct (digits 10 s) as [[|c rest]|] eqn:Hs; try discriminate.
    destruct (Ascii.eqb_spec c ".") as [->|Hc];
      [|by destruct c as [[] [] [] [] [] [] [] []]].
    intros [rest' Hrest]%bool_decide_eq_true.
    apply digits_split in Hs as (d10 & -> & Hd10).
    apply digits_split in Hrest as (d9 & -> & Hd9).
    exists (d10 ++ String "." d9)%string, rest'. split.
    + by rewrite string_app_assoc.
    + rewrite (digits_app 10 d10 EmptyString (String "." d9) Hd10).
      change (EmptyString ++ String "." d9)%string with (String "." d9).
      cbv beta iota. by rewrite Hd9, bool_decide_eq_true_2.
  - intros (mid & post & -> & Hmid).
    destruct (digits 10 mid) as [[|c rest]|] eqn:Hd; try discriminate.
    destruct (Ascii.eqb_spec c ".") as [->|Hc];
      [|by destruct c as [[] [] [] [] [] [] [] []]].
    apply bool_decide_eq_true in Hmid.
    rewrite (digits_app 10 mid _ post Hd).
    change (String "." rest ++ post)%string with (String "." (rest ++ post)).
    cbv beta iota. rewrite (digits_app 9 rest _ post Hmid). by apply bool_decide_eq_true_2.
Qed.

Lemma matchAnywhere_iff (s : string) :
  matchAnywhere s = true ↔
  ∃ pre suf, s = (pre ++ suf)%string ∧ matchHere suf = true.
Proof.
  induction s as [|c s IH].
  - cbn [matchAnywhere]. rewrite orb_false_r. split.
    + intros Hm. by exists EmptyString, EmptyString.
    + intros ([|c pre] & suf & Hs & Hm).
      * change (EmptyString ++ suf)%string with suf in Hs. by subst.
      * change (String c pre ++ suf)%string with (String c (pre ++ suf)%string)
          in Hs. discriminate.
  - cbn [matchAnywhere]. rewrite orb_true_iff, IH. split.
    + intros [Hm | (pre & suf & -> & Hm)].
      * by exists EmptyString, (String c s).
      * by exists (String c pre), suf.
    + intros ([|c' pre] & suf & Hs & Hm).
      * change (EmptyString ++ suf)%string with suf in Hs. left. by subst.
      * change (String c' pre ++ suf)%string
          with (String c' (pre ++ suf)%string) in Hs.
        injection Hs as -> ->. right. eauto.
Qed.

(** X14. [timestamp] returns a string, unchanged, exactly when ten digits,
    a dot and nine digits stand somewhere in it, whatever comes before and
    after them; every other string is rejected with "bad timestamp
    format", and what is not a string is rejected as well. *)
Theorem timestamp_accepts_iff (v : value) :
  (∀ s, v = VStr s →
     (timestamp v = Ok v ↔
      ∃ pre mid post, s = (pre ++ mid ++ post)%string ∧ matchWhole mid = true) ∧
     (timestamp v = Ok v ∨
      timestamp v = Throw (argumentError "bad timestamp format" v))) ∧
  ((∀ s, v ≠ VStr s) → ∃ e, timestamp v = Throw e) ∧
  (∀ r, timestamp v = Ok r → r = v).
Proof.
  split_and!.
  - intros s ->. unfold timestamp.
    destruct (matchAnywhere s) eqn:Hm; simpl.
    + split; [|by left]. split; [intros _|done].
      apply matchAnywhere_iff in Hm as (pre & suf & -> & Hm).
      apply matchHere_iff in Hm as (mid & post & -> & Hmid). eauto.
    + split; [|by right]. split; [discriminate|].
      intros (pre & mid & post & -> & Hmid).
      assert (matchAnywhere (pre ++ mid ++ post)%string = true); [|congruence].
      apply matchAnywhere_iff. exists pre, (mid ++ post)%string.
      split; [done|]. apply matchHere_iff. eauto.
  - intros Hv. destruct v; simpl; eauto. by destruct (Hv s).
  - intros r. unfold timestamp. destruct v; try discriminate.
    destruct (matchAnywhere s); simpl; congruence.
Qed.

End TimestampMore.

(** * Further properties of the record-level formatters *)

Section RecordsMore.
Context `{Collaborators}.

(** What [check] makes of one property of the format. *)
Lemma check_field (fmt : format) (object r : gmap string value)
    (key : string) (f : coercer) :
  NoDup (map fst fmt) → check fmt object = Ok r → In (key, f) fmt →
  ∃ v, f (get object key) = Ok v ∧
       r !! key = (if isUndefined v then None else Some v).
Proof.
  intros Hnd Hok Hin.
  destruct (proj1 (check_succeeds fmt object) (ex_intro _ r Hok) key f Hin)
    as [v Hv].
  exists v. split; [done|].
  destruct (isUndefined v) eqn:Hu.
  - apply isUndefined_spec in Hu as ->.
    destruct (r !! key) as [w|] eqn:Hw; [|done].
    apply (check_ok_lookup fmt object r Hnd Hok key) in Hw
      as (g & Hg & Hgw & Hne).
    rewrite (format_key_unique fmt key f g Hnd Hin Hg) in Hv. congruence.
  - apply (check_ok_lookup fmt object r Hnd Hok key). exists f. split_and!; [done|done|]. intros ->. discriminate.
Qed.

Lemma check_keys (fmt : format) (object r : gmap string value) (key : string) :
  NoDup (map fst fmt) → check fmt object = Ok r →
  is_Some (r !! key) → In key (map fst fmt).
Proof.
  intros Hnd Hok [v Hv].
  apply (check_ok_lookup fmt object r Hnd Hok) in Hv as (f & Hin & _).
  by apply (in_format_key _ _ f).
Qed.

Lemma formats_transaction_NoDup : NoDup (map fst formats_transaction).
Proof. simpl. apply (bool_decide_unpack _). vm_compute. exact I. Qed.

Lemma formats_receiptLog_NoDup : NoDup (map fst formats_receiptLog).
Proof. simpl. apply (bool_decide_unpack _). vm_compute. exact I. Qed.

Lemma formats_filter_NoDup : NoDup (map fst formats_filter).
Proof. simpl. apply (bool_decide_unpack _). vm_compute. exact I. Qed.

Lemma formats_filterLog_NoDup : NoDup (map fst formats_filterLog).
Proof. simpl. apply (bool_decide_unpack _). vm_compute. exact I. Qed.

(** The results of the coercers that the formats use. *)
Lemma bound_hash48_ok (v r : value) :
  bound hash48 v = Ok r →
  ∃ s, r = VStr s ∧ isHexStr s = true ∧ hexDataLength s = Some 48
       ∧ toLowerCase s = s.
Proof.
  unfold bound. destruct (hash48 v false) as [s|e] eqn:Hs; simpl; [|discriminate].
  intros [= <-]. exists s. split; [done|].
  apply hash48_ok in Hs as [Hs Hlen]. destruct (hex_ok _ _ _ Hs). done.
Qed.

Lemma bound_hash32_ok (v r : value) :
  bound hash32 v = Ok r →
  ∃ s, r = VStr s ∧ isHexStr s = true ∧ hexDataLength s = Some 32
       ∧ toLowerCase s = s.
Proof.
  unfold bound. destruct (hash32 v false) as [s|e] eqn:Hs; simpl; [|discriminate].
  intros [= <-]. exists s. split; [done|].
  apply hash32_ok in Hs as [Hs Hlen]. destruct (hex_ok _ _ _ Hs). done.
Qed.

Lemma data_ok (v : value) (strict : bool) (s : string) :
  data v strict = Ok s →
  isHexStr s = true ∧ strlen s mod 2 = 0 ∧ toLowerCase s = s.
Proof.
  unfold data. destruct (hex v strict) as [p|e] eqn:Hp; simpl; [|discriminate].
  destruct (Z.eqb_spec (strlen p mod 2) 0) as [Heven|]; simpl; [|discriminate].
  intros [= <-]. destruct (hex_ok _ _ _ Hp). done.
Qed.

Lemma bound_data_ok (v r : value) :
  bound data v = Ok r →
  ∃ s, r = VStr s ∧ isHexStr s = true ∧ strlen s mod 2 = 0
       ∧ toLowerCase s = s.
Proof.
  unfold bound. destruct (data v false) as [s|e] eqn:Hs; simpl; [|discriminate].
  intros [= <-]. exists s. split; [done|]. by apply (data_ok v false).
Qed.

Lemma address_ok (v r : value) : address v = Ok r → ∃ a, r = VStr a.
Proof.
  unfold address. destruct (toString v) as [a|]; simpl; [|discriminate].
  destruct (if containsChar "." a then _ else _) as [a'|]; simpl; [|discriminate].
  destruct (getAddress a') as [a''|]; simpl; [|discriminate].
  intros [= <-]. eauto.
Qed.

Lemma bigNumber_ok (v r : value) : bigNumber v = Ok r → ∃ n, r = VBig n.
Proof.
  unfold bigNumber. destruct (BigNumber_from v); simpl; [|discriminate].
  intros [= <-]. eauto.
Qed.

(** C9. On success the record of [receipt] has [byzantium] set to [true]
    exactly when the coerced [status] is present and not [null], and no
    other value is ever bound to [byzantium]. The coerced [status] is what
    [number] makes of the raw one: a raw [status] of [null] (or none at
    all) leaves the record without [status] and without a [byzantium]
    key, and any other raw [status] is on the record as a number, with
    [byzantium] set to [true]. *)
Theorem receipt_byzantium (raw r : gmap string value) :
  receipt raw = Ok r →
  (r !! "byzantium" = Some (VBool true) ↔
     ∃ s, r !! "status" = Some s ∧ isNullish s = false) ∧
  (r !! "byzantium" = None ∨ r !! "byzantium" = Some (VBool true)) ∧
  (isNullish (get raw "status") = true →
     r !! "status" = None ∧ r !! "byzantium" = None) ∧
  (isNullish (get raw "status") = false →
     ∃ n, number (get raw "status") = Ok (VNum n) ∧
          r !! "status" = Some (VNum n) ∧
          r !! "byzantium" = Some (VBool true)).
Proof.
  unfold receipt.
  destruct (check formats_receipt raw) as [result|e] eqn:Hcheck;
    [|discriminate].
  cbn [mbind res_bind bind].
  assert (Hbyz : result !! "byzantium" = None).
  { destruct (result !! "byzantium") as [v|] eqn:Hv; [|done].
    apply mk_is_Some, (check_keys _ _ _ _ formats_receipt_NoDup Hcheck) in Hv.
    simpl in Hv. repeat destruct Hv as [[=] | Hv]; done. }
  destruct (check_field _ _ _ "status" (allowNull number VUndef)
              formats_receipt_NoDup Hcheck) as (v & Hv & Hstatus).
  { simpl. repeat (first [by left | right]). }
  unfold allowNull in Hv.
  destruct (isNullish (get raw "status")) eqn:Hraw.
  - injection Hv as <-. cbn [isUndefined] in Hstatus.
    unfold get. rewrite Hstatus. cbn [isNullish negb].
    intros [= <-]. rewrite Hstatus, Hbyz.
    split_and!; [|by left|done|done].
    split; [done|]. by intros (s & [=] & _).
  - destruct (number_ok _ _ Hv) as (n & -> & _).
    cbn [isUndefined] in Hstatus.
    unfold get. rewrite Hstatus. cbn [isNullish negb].
    intros [= <-].
    rewrite lookup_insert_eq, lookup_insert_ne, Hstatus by done.
    split_and!; [|by right|done|].
    + split; [|done]. intros _. by exists (VNum n).
    + intros _. by exists n.
Qed.

End RecordsMore.

Section Shapes.
Context `{Collaborators}.

Ltac in_format := simpl; repeat (first [by left | right]).

Lemma arrayOf_ok (f : coercer) (v r : value) :
  arrayOf f v = Ok r →
  ∃ xs ys, v = VArr xs ∧ r = VArr ys ∧ length ys = length xs ∧
           Forall2 (λ x y, f x = Ok y) xs ys.
Proof.
  unfold arrayOf. destruct v as [| | | | | |xs| |]; try discriminate.
  destruct (mapM f xs) as [ys|e] eqn:Hxs; simpl; [|discriminate].
  intros [= <-]. exists xs, ys. split_and!; try done.
  - by apply (mapM_length f).
  - by apply mapM_ok.
Qed.

Lemma topics_array_ok (v r : value) :
  arrayOf (bound hash32) v = Ok r →
  ∃ xs ts, v = VArr xs ∧ r = VArr ts ∧ length ts = length xs ∧
    Forall (λ t, ∃ s, t = VStr s ∧ isHexStr s = true ∧
                      hexDataLength s = Some 32 ∧ toLowerCase s = s) ts.
Proof.
  intros (xs & ts & -> & -> & Hlen & Hall)%arrayOf_ok.
  exists xs, ts. split_and!; try done.
  clear Hlen. induction Hall as [|x t xs ts Hx _ IH]; [by constructor|].
  constructor; [|done]. by apply (bound_hash32_ok x).
Qed.

(** X15. A log that [receiptLog] accepts comes back as a record of exactly
    six properties: two numbers of the safe-integer range as
    [transactionIndex] and [logIndex], a lower-case hex string of 48 bytes
    as [transactionHash], the string of [getAddress] as [address], an
    array of lower-case hex strings of 32 bytes, as long as the raw one, as
    [topics], and a lower-case hex string of whole bytes as [data]. On
    [null] and [undefined] it throws an error without [checkKey]. *)
Theorem receiptLog_record (v : value) :
  (isNullish v = true → ∃ e, receiptLog v = Throw e ∧ checkKey e = None) ∧
  (∀ r, receiptLog v = Ok r →
     ∃ raw m, properties v = Ok raw ∧ r = VObj m ∧
       (∃ n, m !! "transactionIndex" = Some (VNum n) ∧ - 2 ^ 53 < n < 2 ^ 53) ∧
       (∃ n, m !! "logIndex" = Some (VNum n) ∧ - 2 ^ 53 < n < 2 ^ 53) ∧
       (∃ s, m !! "transactionHash" = Some (VStr s) ∧ isHexStr s = true ∧
             hexDataLength s = Some 48 ∧ toLowerCase s = s) ∧
       (∃ a, m !! "address" = Some (VStr a)) ∧
       (∃ xs ts, get raw "topics" = VArr xs ∧ m !! "topics" = Some (VArr ts) ∧
          length ts = length xs ∧
          Forall (λ t, ∃ s, t = VStr s ∧ isHexStr s = true ∧
                            hexDataLength s = Some 32 ∧ toLowerCase s = s) ts) ∧
       (∃ d, m !! "data" = Some (VStr d) ∧ isHexStr d = true ∧
             strlen d mod 2 = 0 ∧ toLowerCase d = d) ∧
       (∀ key, is_Some (m !! key) →
          In key ["transactionIndex"; "transactionHash"; "address"; "topics";
                  "data"; "logIndex"])).
Proof.
  split.
  - intros Hv. destruct v; try discriminate; simpl; eauto.
  - intros r. unfold receiptLog.
    destruct (properties v) as [raw|e]; simpl; [|discriminate].
    destruct (check formats_receiptLog raw) as [m|e] eqn:Hok; simpl;
      [|discriminate].
    intros [= <-]. exists raw, m. split; [done|]. split; [done|].
    pose proof formats_receiptLog_NoDup as Hnd.
    destruct (check_field _ _ _ "transactionIndex" number Hnd Hok
                ltac:(in_format)) as (v1 & Hv1 & Hr1).
    apply number_ok in Hv1 as (n1 & -> & Hn1).
    destruct (check_field _ _ _ "logIndex" number Hnd Hok
                ltac:(in_format)) as (v2 & Hv2 & Hr2).
    apply number_ok in Hv2 as (n2 & -> & Hn2).
    destruct (check_field _ _ _ "transactionHash" (bound hash48) Hnd Hok
                ltac:(in_format)) as (v3 & Hv3 & Hr3).
    apply bound_hash48_ok in Hv3 as (s3 & -> & Hs3).
    destruct (check_field _ _ _ "address" address Hnd Hok
                ltac:(in_format)) as (v4 & Hv4 & Hr4).
    apply address_ok in Hv4 as (a & ->).
    destruct (check_field _ _ _ "topics" (arrayOf (bound hash32)) Hnd Hok
                ltac:(in_format)) as (v5 & Hv5 & Hr5).
    apply topics_array_ok in Hv5 as (xs & ts & Hxs & -> & Hlen & Hts).
    destruct (check_field _ _ _ "data" (bound data) Hnd Hok
                ltac:(in_format)) as (v6 & Hv6 & Hr6).
    apply bound_data_ok in Hv6 as (d & -> & Hd).
    simpl in *.
    split_and!; eauto 10.
    intros key Hkey.
    exact (check_keys formats_receiptLog raw m key
             formats_receiptLog_NoDup Hok Hkey).
Qed.

Lemma allowNull_ok (f : coercer) (X v w : value) :
  allowNull f X v = Ok w →
  (isNullish v = true ∧ w = X) ∨ (isNullish v = false ∧ f v = Ok w).
Proof.
  unfold allowNull. destruct (isNullish v); [|by right].
  intros [= <-]. by left.
Qed.

Lemma receipt_inv (raw r : gmap string value) :
  receipt raw = Ok r →
  ∃ result, check formats_receipt raw = Ok result ∧
            ∀ key, key ≠ "byzantium" → r !! key = result !! key.
Proof.
  unfold receipt.
  destruct (check formats_receipt raw) as [result|e]; simpl; [|discriminate].
  destruct (negb _); intros [= <-]; exists result; split; try done.
  intros key Hkey. by rewrite lookup_insert_ne.
Qed.

(** X16. The record of a receipt that [receipt] accepts: [to], [from] and
    [contractAddress] are [null] where the raw receipt has none and the
    string of [getAddress] otherwise; [timestamp] is the raw timestamp;
    [gasUsed] and [cumulativeGasUsed] are BigNumbers; [transactionHash] is
    a lower-case hex string of 48 bytes; [logs] is an array as long as the
    raw one, made of what [receiptLog] returns on each raw log in turn;
    [status] is left out where the raw receipt has none and is a number
    otherwise; [type] is a number, 0 where the raw receipt has none; and
    [logsBloom] is left out or a lower-case hex string of whole bytes. *)
Theorem receipt_record (raw r : gmap string value) :
  receipt raw = Ok r →
  (∀ key, In key ["to"; "from"; "contractAddress"] →
     (isNullish (get raw key) = true ∧ r !! key = Some VNull) ∨
     (isNullish (get raw key) = false ∧ ∃ a, r !! key = Some (VStr a))) ∧
  r !! "timestamp" = Some (get raw "timestamp") ∧
  (∃ n, r !! "gasUsed" = Some (VBig n)) ∧
  (∃ n, r !! "cumulativeGasUsed" = Some (VBig n)) ∧
  (∃ s, r !! "transactionHash" = Some (VStr s) ∧ isHexStr s = true ∧
        hexDataLength s = Some 48 ∧ toLowerCase s = s) ∧
  (∃ xs ys, get raw "logs" = VArr xs ∧ r !! "logs" = Some (VArr ys) ∧
     length ys = length xs ∧ Forall2 (λ x y, receiptLog x = Ok y) xs ys) ∧
  ((isNullish (get raw "status") = true ∧ r !! "status" = None) ∨
   (isNullish (get raw "status") = false ∧
    ∃ n, r !! "status" = Some (VNum n) ∧ - 2 ^ 53 < n < 2 ^ 53)) ∧
  (∃ n, r !! "type" = Some (VNum n) ∧
        (isNullish (get raw "type") = true → n = 0)) ∧
  ((isNullish (get raw "logsBloom") = true ∧ r !! "logsBloom" = None) ∨
   ∃ d, r !! "logsBloom" = Some (VStr d) ∧ isHexStr d = true ∧
        strlen d mod 2 = 0 ∧ toLowerCase d = d).
Proof.
  intros (result & Hok & Hsame)%receipt_inv.
  pose proof formats_receipt_NoDup as Hnd.
  assert (Haddr : ∀ key, In (key, allowNull address VNull) formats_receipt →
            (isNullish (get raw key) = true ∧ result !! key = Some VNull) ∨
            (isNullish (get raw key) = false ∧
             ∃ a, result !! key = Some (VStr a))).
  { intros key Hin.
    destruct (check_field _ _ _ key _ Hnd Hok Hin) as (w & Hw & Hr).
    apply allowNull_ok in Hw as [[Hnull ->] | [Hnull Hw]]; [by left|].
    apply address_ok in Hw as (a & ->). simpl in Hr. right. eauto. }
  split_and!.
  - intros key [<-|[<-|[<-|[]]]]; rewrite Hsame by done; apply Haddr; in_format.
  - destruct (check_field _ _ _ "timestamp" timestamp Hnd Hok ltac:(in_format))
      as (w & Hw & Hr).
    rewrite Hsame by done.
    unfold timestamp in Hw.
    destruct (get raw "timestamp") as [| | | |s| | | |]; try discriminate.
    destruct (matchAnywhere s); simpl in Hw; [|discriminate].
    by injection Hw as <-.
  - destruct (check_field _ _ _ "gasUsed" bigNumber Hnd Hok ltac:(in_format))
      as (w & Hw & Hr).
    apply bigNumber_ok in Hw as (n & ->). rewrite Hsame by done.
    simpl in Hr. eauto.
  - destruct (check_field _ _ _ "cumulativeGasUsed" bigNumber Hnd Hok
                ltac:(in_format)) as (w & Hw & Hr).
    apply bigNumber_ok in Hw as (n & ->). rewrite Hsame by done.
    simpl in Hr. eauto.
  - destruct (check_field _ _ _ "transactionHash" (bound hash48) Hnd Hok
                ltac:(in_format)) as (w & Hw & Hr).
    apply bound_hash48_ok in Hw as (s & -> & Hs). rewrite Hsame by done.
    simpl in Hr. eauto.
  - destruct (check_field _ _ _ "logs" (arrayOf receiptLog) Hnd Hok
                ltac:(in_format)) as (w & Hw & Hr).
    apply arrayOf_ok in Hw as (xs & ys & Hxs & -> & Hlen & Hall).
    rewrite Hsame by done. simpl in Hr. exists xs, ys. done.
  - destruct (check_field _ _ _ "status" (allowNull number VUndef) Hnd Hok
                ltac:(in_format)) as (w & Hw & Hr).
    rewrite Hsame by done.
    apply allowNull_ok in Hw as [[Hnull ->] | [Hnull Hw]]; [by left|].
    apply number_ok in Hw as (n & -> & Hn). simpl in Hr. right. eauto.
  - destruct (check_field _ _ _ "type" type Hnd Hok ltac:(in_format))
      as (w & Hw & Hr).
    rewrite Hsame by done.
    destruct (type_ok _ _ Hw) as (n & -> & Hn). simpl in Hr.
    exists n. split; [done|].
    intros Hnull. unfold type in Hw. rewrite Hnull, orb_true_r in Hw.
    congruence.
  - destruct (check_field _ _ _ "logsBloom" (allowNull (bound data) VUndef)
                Hnd Hok ltac:(in_format)) as (w & Hw & Hr).
    rewrite Hsame by done.
    apply allowNull_ok in Hw as [[Hnull ->] | [Hnull Hw]]; [by left|].
    apply bound_data_ok in Hw as (d & -> & Hd). simpl in Hr. right. eauto.
Qed.

Lemma timestamp_ok (v w : value) : timestamp v = Ok w → w = v ∧ ∃ s, v = VStr s.
Proof.
  unfold timestamp. destruct v as [| | | |s| | | |]; try discriminate.
  destruct (matchAnywhere s); simpl; [|discriminate].
  intros [= <-]. eauto.
Qed.

Lemma topics_defined (v w : value) : topics v = Ok w → isUndefined w = false.
Proof.
  destruct v as [| |b|n|s|n|xs|o|l]; cbn [topics];
    try (intros [= <-]; reflexivity);
    try (destruct (hash32 _ true); simpl; [intros [= <-]; reflexivity
                                          | discriminate]).
  destruct ((fix each (xs : list value) : res (list value) := _) xs);
    simpl; [intros [= <-]; reflexivity | discriminate].
Qed.

(** X17. [filter] accepts a raw filter that has none of the four
    properties and returns the empty record; on success a property is on
    the record exactly when the raw filter has it (not [null], not
    [undefined]), the two timestamps are the raw ones, and the record has
    no property beyond the four. *)
Theorem filter_spec (raw : gmap string value) :
  ((∀ key, In key (map fst formats_filter) → isNullish (get raw key) = true) →
   filter raw = Ok ∅) ∧
  (∀ r, filter raw = Ok r →
     (∀ key, In key (map fst formats_filter) →
        (r !! key = None ↔ isNullish (get raw key) = true)) ∧
     (∀ key, In key ["fromTimestamp"; "toTimestamp"] →
        isNullish (get raw key) = false → r !! key = Some (get raw key)) ∧
     (∀ key, is_Some (r !! key) → In key (map fst formats_filter))).
Proof.
  split.
  - intros Hnull. unfold filter, check, check_run.
    cbn [formats_filter check_loop]. unfold allowNull.
    rewrite !Hnull by in_format. reflexivity.
  - intros r Hok. unfold filter in Hok.
    pose proof formats_filter_NoDup as Hnd.
    assert (Hone : ∀ key f, In (key, allowNull f VUndef) formats_filter →
              (∀ v w, f v = Ok w → isUndefined w = false) →
              (r !! key = None ↔ isNullish (get raw key) = true)).
    { intros key f Hin Hdef.
      destruct (check_field _ _ _ key _ Hnd Hok Hin) as (w & Hw & Hr).
      apply allowNull_ok in Hw as [[Hnull ->] | [Hnull Hw]].
      - by rewrite Hr, Hnull.
      - rewrite Hr, Hnull, (Hdef _ _ Hw). split; discriminate. }
    assert (Hts : ∀ v w, timestamp v = Ok w → isUndefined w = false).
    { intros v w (-> & s & ->)%timestamp_ok. done. }
    assert (Had : ∀ v w, address v = Ok w → isUndefined w = false).
    { intros v w (a & ->)%address_ok. done. }
    split_and!.
    + intros key [<-|[<-|[<-|[<-|[]]]]].
      * apply (Hone _ timestamp); [in_format | done].
      * apply (Hone _ timestamp); [in_format | done].
      * apply (Hone _ address); [in_format | done].
      * apply (Hone _ topics); [in_format | apply topics_defined].
    + intros key Hkey Hnull.
      assert (Hin : In (key, allowNull timestamp VUndef) formats_filter).
      { destruct Hkey as [<-|[<-|[]]]; in_format. }
      destruct (check_field _ _ _ key _ Hnd Hok Hin) as (w & Hw & Hr).
      apply allowNull_ok in Hw as [[Hnull' _] | [_ Hw]]; [congruence|].
      apply timestamp_ok in Hw as (-> & s & Hs). rewrite Hr, Hs. done.
    + intros key Hkey. exact (check_keys _ _ _ _ Hnd Hok Hkey).
Qed.

(** X18. The record of a log that [filterLog] accepts: [data] is always
    there, "0x" where the raw log has a falsy [data] and a lower-case hex
    string of whole bytes in any case; [transactionHash] is left out where
    the raw log has none and is a lower-case hex string of 48 bytes
    otherwise; [topics] is an array of lower-case hex strings of 32 bytes
    as long as the raw one; [timestamp] is the raw one; [logIndex] and
    [transactionIndex] are numbers of the safe-integer range. *)
Theorem filterLog_record (raw r : gmap string value) :
  filterLog raw = Ok r →
  (truthy (get raw "data") = false → r !! "data" = Some (VStr "0x")) ∧
  (∃ d, r !! "data" = Some (VStr d) ∧ isHexStr d = true ∧
        strlen d mod 2 = 0 ∧ toLowerCase d = d) ∧
  ((isNullish (get raw "transactionHash") = true ∧
    r !! "transactionHash" = None) ∨
   ∃ s, r !! "transactionHash" = Some (VStr s) ∧ isHexStr s = true ∧
        hexDataLength s = Some 48 ∧ toLowerCase s = s) ∧
  (∃ xs ts, get raw "topics" = VArr xs ∧ r !! "topics" = Some (VArr ts) ∧
     length ts = length xs ∧
     Forall (λ t, ∃ s, t = VStr s ∧ isHexStr s = true ∧
                       hexDataLength s = Some 32 ∧ toLowerCase s = s) ts) ∧
  r !! "timestamp" = Some (get raw "timestamp") ∧
  (∃ a, r !! "address" = Some (VStr a)) ∧
  (∀ key, In key ["logIndex"; "transactionIndex"] →
     ∃ n, r !! key = Some (VNum n) ∧ - 2 ^ 53 < n < 2 ^ 53) ∧
  (∀ key, is_Some (r !! key) → In key (map fst formats_filterLog)).
Proof.
  intros Hok. unfold filterLog in Hok.
  pose proof formats_filterLog_NoDup as Hnd.
  destruct (check_field _ _ _ "data" (allowFalsish (bound data) (VStr "0x"))
              Hnd Hok ltac:(in_format)) as (w & Hw & Hr).
  assert (Hdata : (truthy (get raw "data") = false → w = VStr "0x") ∧
            ∃ d, w = VStr d ∧ isHexStr d = true ∧ strlen d mod 2 = 0
                 ∧ toLowerCase d = d).
  { unfold allowFalsish in Hw. destruct (truthy (get raw "data")).
    - split; [discriminate|]. by apply (bound_data_ok (get raw "data")).
    - injection Hw as <-. split; [done|]. by exists "0x". }
  destruct Hdata as [Hfalsy (d & -> & Hd)]. simpl in Hr. clear Hw.
  split_and!.
  - intros Hraw. by rewrite Hr, <- (Hfalsy Hraw).
  - eauto.
  - destruct (check_field _ _ _ "transactionHash"
                (allowNull (bound hash48) VUndef) Hnd Hok ltac:(in_format))
      as (w & Hw & Hr').
    apply allowNull_ok in Hw as [[Hnull ->] | [Hnull Hw]]; [by left|].
    apply bound_hash48_ok in Hw as (s & -> & Hs). simpl in Hr'. right. eauto.
  - destruct (check_field _ _ _ "topics" (arrayOf (bound hash32)) Hnd Hok
                ltac:(in_format)) as (w & Hw & Hr').
    apply topics_array_ok in Hw as (xs & ts & Hxs & -> & Hlen & Hts).
    simpl in Hr'. exists xs, ts. done.
  - destruct (check_field _ _ _ "timestamp" timestamp Hnd Hok ltac:(in_format))
      as (w & Hw & Hr').
    apply timestamp_ok in Hw as (-> & s & Hs). rewrite Hr', Hs. done.
  - destruct (check_field _ _ _ "address" address Hnd Hok ltac:(in_format))
      as (w & Hw & Hr').
    apply address_ok in Hw as (a & ->). simpl in Hr'. eauto.
  - intros key Hkey.
    assert (Hin : In (key, number) formats_filterLog).
    { destruct Hkey as [<-|[<-|[]]]; in_format. }
    destruct (check_field _ _ _ key number Hnd Hok Hin) as (w & Hw & Hr').
    apply number_ok in Hw as (n & -> & Hn). simpl in Hr'. eauto.
  - intros key Hkey. exact (check_keys _ _ _ _ Hnd Hok Hkey).
Qed.

Lemma formats_transactionRequest_NoDup :
  NoDup (map fst formats_transactionRequest).
Proof. simpl. apply (bool_decide_unpack _). vm_compute. exact I. Qed.

Lemma strictData_unprefixed (s : string) :
  String.eqb (prefix2 s) "0x" = false → ∃ e, strictData (VStr s) = Throw e.
Proof.
  intros Hpre. unfold strictData, data, hex. simpl.
  destruct (isHexStr s) eqn:Hs; [|rewrite andb_false_l; simpl; eauto].
  apply isHexStr_prefix in Hs. rewrite Hs in Hpre. discriminate.
Qed.

(** X19. [transactionRequest] accepts a request that has none of the
    eleven properties and returns a record with a [null] [accessList] and
    nothing else; a [data] that does not start with "0x" is rejected,
    [strict] being set for it; and on success each of the ten other
    properties is on the record exactly when the request has it, while a
    request without [accessList] gets a [null] one. *)
Theorem transactionRequest_spec (raw : gmap string value) :
  ((∀ key, In key (map fst formats_transactionRequest) →
           isNullish (get raw key) = true) →
   transactionRequest (VObj raw) = Ok (VObj {[ "accessList" := VNull ]})) ∧
  (∀ s, get raw "data" = VStr s → String.eqb (prefix2 s) "0x" = false →
        ∃ e, transactionRequest (VObj raw) = Throw e) ∧
  (∀ r, transactionRequest (VObj raw) = Ok r →
     ∃ m, r = VObj m ∧
       (∀ key, In key ["from"; "nonce"; "gasLimit"; "gasPrice";
                       "maxPriorityFeePerGas"; "maxFeePerGas"; "to"; "value";
                       "data"; "type"] →
               (m !! key = None ↔ isNullish (get raw key) = true)) ∧
       (isNullish (get raw "accessList") = true →
        m !! "accessList" = Some VNull)).
Proof.
  unfold transactionRequest. cbn [properties]. simpl mbind. split_and!.
  - intros Hnull. unfold check, check_run.
    cbn [formats_transactionRequest check_loop]. unfold allowNull.
    rewrite !Hnull by in_format. reflexivity.
  - intros s Hdata Hpre.
    destruct (check formats_transactionRequest raw) as [m|e] eqn:Hok;
      simpl; [|eauto].
    destruct (proj1 (check_succeeds _ _) (ex_intro _ m Hok) "data"
                (allowNull strictData VUndef) ltac:(in_format)) as [v Hv].
    unfold allowNull in Hv. rewrite Hdata in Hv. simpl in Hv.
    destruct (strictData_unprefixed s Hpre) as [e He]. congruence.
  - intros r.
    destruct (check formats_transactionRequest raw) as [m|e] eqn:Hok;
      simpl; [|discriminate].
    intros [= <-]. exists m. split; [done|].
    pose proof formats_transactionRequest_NoDup as Hnd.
    assert (Hone : ∀ key f,
              In (key, allowNull f VUndef) formats_transactionRequest →
              (∀ v w, f v = Ok w → isUndefined w = false) →
              (m !! key = None ↔ isNullish (get raw key) = true)).
    { intros key f Hin Hdef.
      destruct (check_field _ _ _ key _ Hnd Hok Hin) as (w & Hw & Hr).
      apply allowNull_ok in Hw as [[Hnull ->] | [Hnull Hw]].
      - by rewrite Hr, Hnull.
      - rewrite Hr, Hnull, (Hdef _ _ Hw). split; discriminate. }
    assert (Had : ∀ v w, address v = Ok w → isUndefined w = false)
      by (intros v w (a & ->)%address_ok; done).
    assert (Hnu : ∀ v w, number v = Ok w → isUndefined w = false)
      by (intros v w (n & -> & _)%number_ok; done).
    assert (Hbn : ∀ v w, bigNumber v = Ok w → isUndefined w = false)
      by (intros v w (n & ->)%bigNumber_ok; done).
    assert (Hsd : ∀ v w, strictData v = Ok w → isUndefined w = false).
    { intros v w. unfold strictData.
      destruct (data v true); simpl; [|discriminate]. by intros [= <-]. }
    split.
    + intros key [<-|[<-|[<-|[<-|[<-|[<-|[<-|[<-|[<-|[<-|[]]]]]]]]]]].
      * apply (Hone _ address); [in_format | done].
      * apply (Hone _ number); [in_format | done].
      * apply (Hone _ bigNumber); [in_format | done].
      * apply (Hone _ bigNumber); [in_format | done].
      * apply (Hone _ bigNumber); [in_format | done].
      * apply (Hone _ bigNumber); [in_format | done].
      * apply (Hone _ address); [in_format | done].
      * apply (Hone _ bigNumber); [in_format | done].
      * apply (Hone _ strictData); [in_format | done].
      * apply (Hone _ number); [in_format | done].
    + intros Hnull.
      destruct (check_field _ _ _ "accessList" (allowNull accessList VNull)
                  Hnd Hok ltac:(in_format)) as (w & Hw & Hr).
      unfold allowNull in Hw. rewrite Hnull in Hw. injection Hw as <-. done.
Qed.

End Shapes.

Section TransactionMore.
Context `{Collaborators}.

Ltac in_format := simpl; repeat (first [by left | right]).

Lemma get_insert_eq (o : gmap string value) (key : string) (v : value) :
  get (<[key := v]> o) key = v.
Proof. unfold get. by rewrite lookup_insert_eq. Qed.

Lemma get_insert_ne (o : gmap string value) (key key' : string) (v : value) :
  key ≠ key' → get (<[key := v]> o) key' = get o key'.
Proof. intros Hne. unfold get. by rewrite lookup_insert_ne. Qed.

(** One step of a run of [renameFields] on a store whose object at [l] is
    known: a property is read, or a guarded write is split in its two
    cases. *)
Ltac sstep l :=
  lazymatch goal with
  | Hl : ?h !! l = Some ?o |- context [(readProp l ?key ≫= ?k) ?h] =>
      rewrite (bind_eval (readProp l key) k h h (get o key)
                 (readProp_at l key h o Hl));
      cbv beta
  | Hl : ?h !! l = Some ?o
    |- context [(when false (writeProp l ?key ?v) ≫= ?k) ?h] =>
      rewrite (bind_eval (when false (writeProp l key v)) k h h tt
                 (when_skip false _ h eq_refl));
      cbv beta
  | Hl : ?h !! l = Some ?o
    |- context [(when ?b (writeProp l ?key ?v) ≫= ?k) ?h] =>
      let Hb := fresh "Hguard" in
      destruct b eqn:Hb;
      [ rewrite (bind_eval (when true (writeProp l key v)) k h _ tt
                   (when_write l key v true h o Hl eq_refl));
        cbv beta;
        let Hl' := fresh "Hl" in
        pose proof (lookup_insert_eq h l (<[key := v]> o)) as Hl';
        clear Hl
      | rewrite (bind_eval (when false (writeProp l key v)) k h h tt
                   (when_skip false _ h eq_refl));
        cbv beta ]
  end.

Lemma bind_throw {A B} (m : M A) (k : A → M B) h h1 e :
  m h = (h1, Throw e) → (m ≫= k) h = (h1, Throw e).
Proof. intros Hm. by rewrite bind_run, Hm. Qed.

(** The step of lines 232-234: the test of [transaction.to]. *)
Ltac zero_step l :=
  lazymatch goal with
  | Hl : ?h !! l = Some ?o
    |- context [((if truthy ?t then ?m1 else ?m2) ≫= ?k) ?h] =>
      let Ht := fresh "Htruthy" in
      let Hb := fresh "Hbig" in
      let b := fresh "b" in
      let e := fresh "e" in
      destruct (truthy t) eqn:Ht;
      [ destruct (BigNumber_from t) as [b|e] eqn:Hb;
        [ rewrite (bind_eval _ k h h (Z.eqb b 0)) by reflexivity;
          cbv beta
        | rewrite (bind_throw _ k h h e) by reflexivity;
          cbn [fst] ]
      | rewrite (bind_eval _ k h h false eq_refl); cbv beta ]
  end.

(** The last statement of [renameFields] is a guarded write that nothing
    follows. *)
Ltac last_step l :=
  lazymatch goal with
  | Hl : ?h !! l = Some ?o
    |- context [when ?b (writeProp l ?key ?v) ?h] =>
      let Hb := fresh "Hguard" in
      destruct b eqn:Hb;
      [ rewrite (when_write l key v true h o Hl eq_refl); cbn [fst];
        let Hl' := fresh "Hl" in
        pose proof (lookup_insert_eq h l (<[key := v]> o)) as Hl';
        clear Hl
      | rewrite (when_skip false _ h eq_refl); cbn [fst] ]
  end.

(** The facts at the end of a run: the reads are brought back to the raw
    object and the guards are split. *)
Ltac guards :=
  repeat first
    [ rewrite get_insert_eq in *
    | rewrite get_insert_ne in * by done ];
  repeat match goal with
    | Hg : (_ && _)%bool = true |- _ => apply andb_true_iff in Hg as [? ?]
    | Hg : negb _ = true |- _ => apply negb_true_iff in Hg
    | Hg : Z.eqb _ 0 = true |- _ => apply Z.eqb_eq in Hg; subst
    end.

Ltac written :=
  first
    [ left; by rewrite ?lookup_insert_ne by done
    | right; split_and!;
      first [ assumption
            | by rewrite ?lookup_insert_ne, ?lookup_insert_eq by done ] ].

(** X20. What [transactionResponse] does to the store, whether it returns
    or throws: no other object is touched; of the raw object only
    [gasLimit], [to], [data], [creates] and [accessList] can change, each
    of them only under its guard and only to the value the code gives it:
    a [gasLimit] or [data] that is there is never overwritten, [to] is
    replaced only by the zero address and only when [BigNumber.from] reads
    it as zero, [creates] is set only when there is neither [to] nor
    [creates], and to the object itself, and [accessList] only to the empty
    array for a type 1 or 2 without one. *)
Theorem transactionResponse_writes
    (h : gmap loc (gmap string value)) (l : loc) (raw : gmap string value) :
  h !! l = Some raw →
  ∃ after,
    fst (transactionResponse l h) !! l = Some after ∧
    (∀ l', l' ≠ l → fst (transactionResponse l h) !! l' = h !! l') ∧
    (∀ key, ¬ In key ["gasLimit"; "to"; "data"; "creates"; "accessList"] →
            after !! key = raw !! key) ∧
    (after !! "gasLimit" = raw !! "gasLimit" ∨
     isNullish (get raw "gasLimit") = true ∧
     isNullish (get raw "gas") = false ∧
     after !! "gasLimit" = Some (get raw "gas")) ∧
    (after !! "to" = raw !! "to" ∨
     truthy (get raw "to") = true ∧
     BigNumber_from (get raw "to") = Ok 0 ∧
     after !! "to" = Some (VStr AddressZero)) ∧
    (after !! "data" = raw !! "data" ∨
     isNullish (get raw "data") = true ∧
     isNullish (get raw "input") = false ∧
     after !! "data" = Some (get raw "input")) ∧
    (after !! "creates" = raw !! "creates" ∨
     isNullish (get raw "creates") = true ∧
     isNullish (get raw "to") = true ∧
     after !! "creates" = Some (VRef l)) ∧
    (after !! "accessList" = raw !! "accessList" ∨
     isNullish (get raw "accessList") = true ∧
     (isNum (get raw "type") 1 || isNum (get raw "type") 2)%bool = true ∧
     after !! "accessList" = Some (VArr [])).
Proof.
  intros Hl. rewrite !transactionResponse_store. unfold renameFields.
  repeat (first [sstep l | zero_step l | last_step l]).
  all: guards; try discriminate.
  all: lazymatch goal with
       | Hl : ?hh !! ?ll = Some ?o |- _ => exists o; split; [exact Hl|]
       end.
  all: split_and!;
    [ intros l' Hne; by rewrite ?lookup_insert_ne by done
    | intros key Hkey;
      repeat (rewrite lookup_insert_ne
                by (intros <-; apply Hkey; simpl; tauto));
      done
    | written | written | written | written | written ].
Qed.

Lemma transactionResponse_inv l h h' rec :
  transactionResponse l h = (h', Ok rec) →
  ∃ h1 object result,
    renameFields l h = (h1, Ok tt) ∧ h1 !! l = Some object ∧
    check formats_transaction object = Ok result ∧
    withChainId l result h1 = (h', Ok rec).
Proof.
  unfold transactionResponse. intros Hrun.
  apply bind_ok_inv in Hrun as ([] & h1 & Hrename & Hrun).
  apply bind_ok_inv in Hrun as (object & h2 & Hread & Hrun).
  apply bind_ok_inv in Hrun as (result & h3 & Hcheck & Hrun).
  unfold readObject in Hread.
  destruct (h1 !! l) as [o|] eqn:Ho; [|discriminate].
  injection Hread as <- <-.
  unfold lift in Hcheck. injection Hcheck as <- Hcheck.
  exists h1, o, result. done.
Qed.

Lemma renameFields_reads l h h1 raw :
  h !! l = Some raw → renameFields l h = (h1, Ok tt) →
  ∃ o', h1 !! l = Some o' ∧
        get o' "chainId" = get raw "chainId" ∧
        get o' "networkId" = get raw "networkId".
Proof.
  intros Hl Hrename.
  replace h1 with (fst (renameFields l h)) by (by rewrite Hrename).
  apply (keep_renameFields
    (λ h', ∃ o', h' !! l = Some o' ∧
       get o' "chainId" = get raw "chainId" ∧
       get o' "networkId" = get raw "networkId") l); [|by exists raw].
  intros key v Hkey h0 o (o' & Ho' & Hc & Hn) Ho.
  rewrite Ho' in Ho. injection Ho as <-.
  exists (<[key := v]> o'). rewrite lookup_insert_eq. split; [done|].
  rewrite !get_insert_ne; [done| |];
    intros ->; simpl in Hkey; intuition discriminate.
Qed.

Lemma hexToNumber_inv (c : value) h h' (r : value) :
  hexToNumber c h = (h', Ok r) →
  h' = h ∧
  ((isHexString c None = false ∧ r = c) ∨
   (isHexString c None = true ∧
    ∃ b, BigNumber_from c = Ok b ∧ r = VNum b ∧ - 2 ^ 53 < b < 2 ^ 53)).
Proof.
  unfold hexToNumber. destruct (isHexString c None).
  - rewrite bind_run. unfold lift.
    destruct (BigNumber_from c) as [b|e]; [|discriminate].
    rewrite bind_run. destruct (toNumber b) as [n|e] eqn:Hn; [|discriminate].
    intros [= <- <-]. apply toNumber_safe in Hn as [-> Hn].
    split; [done|]. right. eauto.
  - intros [= <- <-]. split; [done|]. by left.
Qed.

(** The chain id code puts [chainId] on the record and nothing else. *)
Lemma withChainId_inv l result h h' rec o :
  h !! l = Some o → withChainId l result h = (h', Ok rec) →
  ∃ c, rec = <["chainId" := c]> result ∧
    (isNullish (get o "chainId") = false →
       (isHexString (get o "chainId") None = false ∧ c = get o "chainId") ∨
       (isHexString (get o "chainId") None = true ∧
        ∃ b, BigNumber_from (get o "chainId") = Ok b ∧ c = VNum b ∧
             - 2 ^ 53 < b < 2 ^ 53)) ∧
    (isNullish (get o "chainId") = true →
       (∃ n, c = VNum n) ∧
       (∀ n, get o "networkId" = VNum n → c = VNum n)).
Proof.
  intros Ho. unfold withChainId.
  rewrite bind_run, (readProp_at _ _ _ _ Ho).
  destruct (isNullish (get o "chainId")) eqn:Hc; cbn [negb].
  - rewrite bind_run, (readProp_at _ _ _ _ Ho).
    intros Hrun. apply bind_ok_inv in Hrun as (c1 & h1 & Hc1 & Hrun).
    apply bind_ok_inv in Hrun as (c2 & h2 & Hc2 & Hrun).
    injection Hrun as <- <-. eexists. split; [reflexivity|].
    split; [discriminate|]. intros _. split.
    + destruct (negb (isNumber c2) && negb (isNullish (get result "v")))%bool.
      * destruct (get result "v"); destruct c2; simpl; eauto.
      * destruct c2; simpl; eauto.
    + intros n Hn. rewrite Hn in Hc1. simpl in Hc1.
      injection Hc1 as <- <-.
      apply hexToNumber_inv in Hc2 as [_ [[_ ->] | [[=] _]]]. done.
  - intros Hrun. apply bind_ok_inv in Hrun as (c1 & h1 & Hc1 & Hrun).
    injection Hrun as <- <-. exists c1. split; [done|].
    split; [|discriminate]. intros _.
    by apply hexToNumber_inv in Hc1 as [_ Hc1].
Qed.

(** X21. The record of a transaction that [transactionResponse] accepts:
    [hash] is a lower-case hex string of 48 bytes, [from] the string of
    [getAddress], [gasLimit] and [value] BigNumbers, [to] [null] or the
    string of [getAddress], [data] a lower-case hex string of whole bytes,
    [v] left out or a number of the safe-integer range, [chainId] always
    there, and no property beyond those of the format and [chainId]. *)
Theorem transactionResponse_record
    (h h' : gmap loc (gmap string value)) (l : loc) (rec : gmap string value) :
  transactionResponse l h = (h', Ok rec) →
  (∃ s, rec !! "hash" = Some (VStr s) ∧ isHexStr s = true ∧
        hexDataLength s = Some 48 ∧ toLowerCase s = s) ∧
  (∃ a, rec !! "from" = Some (VStr a)) ∧
  (∃ n, rec !! "gasLimit" = Some (VBig n)) ∧
  (rec !! "to" = Some VNull ∨ ∃ a, rec !! "to" = Some (VStr a)) ∧
  (∃ n, rec !! "value" = Some (VBig n)) ∧
  (∃ d, rec !! "data" = Some (VStr d) ∧ isHexStr d = true ∧
        strlen d mod 2 = 0 ∧ toLowerCase d = d) ∧
  (rec !! "v" = None ∨
   ∃ n, rec !! "v" = Some (VNum n) ∧ - 2 ^ 53 < n < 2 ^ 53) ∧
  is_Some (rec !! "chainId") ∧
  (∀ key, is_Some (rec !! key) →
          key = "chainId" ∨ In key (map fst formats_transaction)).
Proof.
  intros (h1 & object & result & _ & Ho & Hok & Hchain)%transactionResponse_inv.
  destruct (withChainId_inv _ _ _ _ _ _ Ho Hchain) as (c & -> & _).
  pose proof formats_transaction_NoDup as Hnd.
  split_and!.
  - destruct (check_field _ _ _ "hash" (bound hash48) Hnd Hok ltac:(in_format))
      as (w & Hw & Hr).
    apply bound_hash48_ok in Hw as (s & -> & Hs).
    rewrite lookup_insert_ne by done. simpl in Hr. eauto.
  - destruct (check_field _ _ _ "from" address Hnd Hok ltac:(in_format))
      as (w & Hw & Hr).
    apply address_ok in Hw as (a & ->).
    rewrite lookup_insert_ne by done. simpl in Hr. eauto.
  - destruct (check_field _ _ _ "gasLimit" bigNumber Hnd Hok ltac:(in_format))
      as (w & Hw & Hr).
    apply bigNumber_ok in Hw as (n & ->).
    rewrite lookup_insert_ne by done. simpl in Hr. eauto.
  - destruct (check_field _ _ _ "to" (allowNull address VNull) Hnd Hok
                ltac:(in_format)) as (w & Hw & Hr).
    rewrite lookup_insert_ne by done.
    apply allowNull_ok in Hw as [[_ ->] | [_ Hw]]; [by left|].
    apply address_ok in Hw as (a & ->). simpl in Hr. right. eauto.
  - destruct (check_field _ _ _ "value" bigNumber Hnd Hok ltac:(in_format))
      as (w & Hw & Hr).
    apply bigNumber_ok in Hw as (n & ->).
    rewrite lookup_insert_ne by done. simpl in Hr. eauto.
  - destruct (check_field _ _ _ "data" (bound data) Hnd Hok ltac:(in_format))
      as (w & Hw & Hr).
    apply bound_data_ok in Hw as (d & -> & Hd).
    rewrite lookup_insert_ne by done. simpl in Hr. eauto.
  - destruct (check_field _ _ _ "v" (allowNull number VUndef) Hnd Hok
                ltac:(in_format)) as (w & Hw & Hr).
    rewrite lookup_insert_ne by done.
    apply allowNull_ok in Hw as [[_ ->] | [_ Hw]]; [by left|].
    apply number_ok in Hw as (n & -> & Hn). simpl in Hr. right. eauto.
  - rewrite lookup_insert_eq. eauto.
  - intros key Hkey. destruct (decide (key = "chainId")) as [->|Hne]; [by left|].
    right. rewrite lookup_insert_ne in Hkey by done.
    exact (check_keys _ _ _ _ Hnd Hok Hkey).
Qed.

(** X22. Where the chain id of an accepted transaction comes from. A raw
    [chainId] that is there is put on the record as it is when it is not a
    hex string, whatever its type, and as the number [BigNumber.from] reads
    in it when it is one; [v] and [networkId] play no part then. Without a
    raw [chainId] the record's [chainId] is always a number, and it is the
    raw [networkId] when that is a number, whatever [v] is. *)
Theorem transactionResponse_chainId
    (h h' : gmap loc (gmap string value)) (l : loc)
    (raw rec : gmap string value) :
  h !! l = Some raw →
  transactionResponse l h = (h', Ok rec) →
  (isNullish (get raw "chainId") = false →
     (isHexString (get raw "chainId") None = false ∧
      rec !! "chainId" = Some (get raw "chainId")) ∨
     (isHexString (get raw "chainId") None = true ∧
      ∃ b, BigNumber_from (get raw "chainId") = Ok b ∧
           rec !! "chainId" = Some (VNum b) ∧ - 2 ^ 53 < b < 2 ^ 53)) ∧
  (isNullish (get raw "chainId") = true →
     (∃ n, rec !! "chainId" = Some (VNum n)) ∧
     (∀ n, get raw "networkId" = VNum n → rec !! "chainId" = Some (VNum n))).
Proof.
  intros Hl (h1 & object & result & Hrename & Ho & _ & Hchain)%transactionResponse_inv.
  destruct (renameFields_reads _ _ _ _ Hl Hrename) as (o' & Ho' & Hc & Hn).
  rewrite Ho in Ho'. injection Ho' as <-.
  destruct (withChainId_inv _ _ _ _ _ _ Ho Hchain) as (c & -> & Hset & Hunset).
  rewrite Hc, Hn in *. rewrite lookup_insert_eq.
  split.
  - intros Hnull. destruct (Hset Hnull) as [[Hhex ->] | (Hhex & b & Hb & -> & Hsafe)].
    + by left.
    + right. eauto.
  - intros Hnull. destruct (Hunset Hnull) as [[n ->] Hnet]. split; [eauto|].
    intros n' Hn'. by rewrite (Hnet n' Hn').
Qed.

End TransactionMore.

(** * Properties of the adapters *)

Section Adapters.
Context `{Collaborators}.

Lemma mapM_Forall2 (f : coercer) (P : value → value → Prop)
    (xs ys : list value) :
  (∀ x y, f x = Ok y → P x y) → mapM f xs = Ok ys → Forall2 P xs ys.
Proof.
  intros Hf Hxs%mapM_ok.
  induction Hxs as [|x y xs ys Hxy _ IH]; constructor; [by apply Hf | done].
Qed.

Lemma properties_VObj (o : gmap string value) : properties (VObj o) = Ok o.
Proof. reflexivity. Qed.

(** X23. [logsMapper] accepts every array of objects and returns an array
    of as many records, in the same order; each record has
    [transactionHash] set to [null], both [logIndex] and
    [transactionIndex] set to the [index] of its log, and [timestamp],
    [address], [data] and [topics] copied from the log, unchecked. What is
    not an array is rejected. *)
Theorem logsMapper_spec (values : value) :
  ((∀ xs, values ≠ VArr xs) → ∃ e, logsMapper values = Throw e) ∧
  (∀ xs, values = VArr xs → (∀ x, In x xs → ∃ o, x = VObj o) →
         ∃ ys, logsMapper values = Ok (VArr ys)) ∧
  (∀ xs r, values = VArr xs → logsMapper values = Ok r →
     ∃ ys, r = VArr ys ∧ length ys = length xs ∧
       Forall2 (λ x y, ∃ o m,
           properties x = Ok o ∧ y = VObj m ∧
           m !! "transactionHash" = Some VNull ∧
           m !! "logIndex" = Some (get o "index") ∧
           m !! "transactionIndex" = Some (get o "index") ∧
           (∀ key, In key ["timestamp"; "address"; "data"; "topics"] →
                   m !! key = Some (get o key)))
         xs ys).
Proof.
  split_and!.
  - intros Hv. destruct values; simpl; eauto. by destruct (Hv xs).
  - intros xs -> Hobj. unfold logsMapper.
    assert (Hall : ∃ ys, mapM mappedLog xs = Ok ys).
    { induction xs as [|x xs IH]; [by exists []|].
      destruct (Hobj x (or_introl eq_refl)) as [o ->].
      destruct IH as [ys Hys]; [intros y Hy; apply Hobj; by right|].
      cbn [mapM]. rewrite Hys. unfold mappedLog. simpl. eauto. }
    destruct Hall as [ys ->]. simpl. eauto.
  - intros xs r ->. unfold logsMapper.
    destruct (mapM mappedLog xs) as [ys|e] eqn:Hxs; simpl; [|discriminate].
    intros [= <-]. exists ys. split_and!; [done | by apply (mapM_length mappedLog) |].
    apply (mapM_Forall2 mappedLog); [|done].
    intros x y. unfold mappedLog.
    destruct (properties x) as [o|e]; simpl; [|discriminate].
    intros [= <-]. eexists o, _. split_and!; try reflexivity.
    intros key [<-|[<-|[<-|[<-|[]]]]]; reflexivity.
Qed.

Lemma optional_nullish (v : value) (key : string) :
  isNullish v = true → optional v key = Ok VUndef.
Proof. intros Hv. unfold optional. by rewrite Hv. Qed.

(** X24. What [receiptFromResponse] returns always has [byzantium] set to
    [true], type 0, a [null] [logsBloom], the same value as [gasUsed] and
    [cumulativeGasUsed], and a [status] that is 1 exactly when the custom
    data is an object whose [result] is "SUCCESS" and 0 otherwise. The
    response's [to] goes to [to] when its [data] is loosely equal to "0x"
    and to [contractAddress] when it is not, the other of the two being
    [null]. Every log carries the hash and the timestamp of the response,
    and the same [logIndex] and [transactionIndex]. A response without
    custom data is accepted and gets no logs. *)
Theorem receiptFromResponse_spec (response : gmap string value) :
  (∀ r, receiptFromResponse response = Ok r →
     r !! "byzantium" = Some (VBool true) ∧
     r !! "type" = Some (VNum 0) ∧
     r !! "logsBloom" = Some VNull ∧
     r !! "gasUsed" = r !! "cumulativeGasUsed" ∧
     (r !! "status" = Some (VNum 1) ∨ r !! "status" = Some (VNum 0)) ∧
     (r !! "status" = Some (VNum 1) ↔
      ∃ o, get response "customData" = VObj o ∧
           get o "result" = VStr "SUCCESS") ∧
     ((looseEq0x (get response "data") = true ∧
       r !! "to" = Some (get response "to") ∧
       r !! "contractAddress" = Some VNull) ∨
      (looseEq0x (get response "data") = false ∧
       r !! "to" = Some VNull ∧
       r !! "contractAddress" = Some (get response "to"))) ∧
     ∃ logs, r !! "logs" = Some (VArr logs) ∧
       Forall (λ y, ∃ m, y = VObj m ∧
                 m !! "transactionHash" = Some (get response "hash") ∧
                 m !! "timestamp" = Some (get response "timestamp") ∧
                 m !! "logIndex" = m !! "transactionIndex") logs) ∧
  (isNullish (get response "customData") = true →
   ∃ r, receiptFromResponse response = Ok r ∧
        r !! "logs" = Some (VArr []) ∧
        r !! "status" = Some (VNum 0) ∧
        r !! "accountAddress" = Some VNull).
Proof.
  split.
  - intros r. unfold receiptFromResponse.
    destruct (optional (get response "customData") "logs") as [rawLogs|e];
      simpl; [|discriminate].
    destruct (if isNullish rawLogs then _ else _) as [logs|e] eqn:Hlogs;
      simpl; [|discriminate].
    destruct (optional (get response "customData") "gas_used") as [gas|e];
      simpl; [|discriminate].
    destruct (optional (get response "customData") "result") as [result|e]
      eqn:Hresult; simpl; [|discriminate].
    destruct (optional (get response "customData") "accountAddress")
      as [account|e]; simpl; [|discriminate].
    intros [= <-].
    assert (Hstatus : isStr result "SUCCESS" = true ↔
              ∃ o, get response "customData" = VObj o ∧
                   get o "result" = VStr "SUCCESS").
    { unfold optional in Hresult.
      destruct (get response "customData") as [| |b|n|s|n|xs|o|l];
        simpl in Hresult; try discriminate; injection Hresult as <-;
        try (split; [discriminate | intros (o' & [=] & _)]).
      split.
      - intros Hs. exists o. split; [done|].
        destruct (get o "result"); try discriminate.
        by apply String.eqb_eq in Hs as ->.
      - intros (o' & [= <-] & ->). reflexivity. }
    split_and!; try reflexivity.
    + destruct (isStr result "SUCCESS"); [by left | by right].
    + rewrite <- Hstatus. destruct (isStr result "SUCCESS"); split; done.
    + destruct (looseEq0x (get response "data")); [left | right]; done.
    + exists logs. split; [reflexivity|].
      destruct (isNullish rawLogs); [injection Hlogs as <-; constructor|].
      destruct rawLogs as [| | | | | |xs| |]; try discriminate.
      assert (Hall : Forall2 (λ x y, ∃ m, y = VObj m ∧
                 m !! "transactionHash" = Some (get response "hash") ∧
                 m !! "timestamp" = Some (get response "timestamp") ∧
                 m !! "logIndex" = m !! "transactionIndex") xs logs).
      { apply (mapM_Forall2 (responseLog response)); [|done].
        intros x y. unfold responseLog.
        destruct (properties x) as [o|e]; simpl; [|discriminate].
        intros [= <-]. eexists. split_and!; reflexivity. }
      clear Hlogs. induction Hall; constructor; done.
  - intros Hnull. unfold receiptFromResponse.
    rewrite !(optional_nullish _ _ Hnull). simpl.
    eexists. split; [reflexivity|]. split_and!; reflexivity.
Qed.

Lemma orElse_spec (x dflt : value) :
  (truthy x = true ∧ orElse x dflt = x) ∨
  (truthy x = false ∧ orElse x dflt = dflt).
Proof. unfold orElse. destruct (truthy x); [by left | by right]. Qed.

(** X25. [responseFromRecord] throws only what [BigNumber.from] throws, on
    [gas_limit] first (when the record has one) and then on [amount] (0
    in the place of a falsy one). What it returns has [null] in the place
    of a falsy [chainId], [transactionId], [to] or [call_result], a [null]
    [gasLimit] exactly when the record has no [gas_limit], a BigNumber as
    [value], a [null] [wait], and [hash], [timestamp] and [from] as they
    are in the record. *)
Theorem responseFromRecord_spec (record : gmap string value) :
  (∀ e, responseFromRecord record = Throw e ↔
     (isUndefined (get record "gas_limit") = false ∧
      BigNumber_from (get record "gas_limit") = Throw e) ∨
     ((isUndefined (get record "gas_limit") = true ∨
       ∃ b, BigNumber_from (get record "gas_limit") = Ok b) ∧
      BigNumber_from (orElse (get record "amount") (VNum 0)) = Throw e)) ∧
  (∀ r, responseFromRecord record = Ok r →
     (∀ key source, In (key, source)
          [("chainId", "chainId"); ("transactionId", "transactionId");
           ("to", "to"); ("data", "call_result")] →
        (truthy (get record source) = true ∧
         r !! key = Some (get record source)) ∨
        (truthy (get record source) = false ∧ r !! key = Some VNull)) ∧
     (∀ key, In key ["hash"; "timestamp"; "from"] →
        r !! key = Some (get record key)) ∧
     ((isUndefined (get record "gas_limit") = true ∧
       r !! "gasLimit" = Some VNull) ∨
      (isUndefined (get record "gas_limit") = false ∧
       ∃ b, BigNumber_from (get record "gas_limit") = Ok b ∧
            r !! "gasLimit" = Some (VBig b))) ∧
     (∃ b, BigNumber_from (orElse (get record "amount") (VNum 0)) = Ok b ∧
           r !! "value" = Some (VBig b)) ∧
     r !! "wait" = Some VNull ∧
     ∃ custom, r !! "customData" = Some (VObj custom) ∧
       (truthy (get record "transfersList") = false →
        custom !! "transfersList" = Some (VArr []))).
Proof.
  unfold responseFromRecord. split.
  - intros e. destruct (isUndefined (get record "gas_limit")); simpl.
    + destruct (BigNumber_from (orElse _ _)) as [b|e']; simpl.
      * split; [discriminate|]. intros [[[=] _] | [_ [=]]].
      * split; [intros [= ->]; right; eauto|].
        intros [[[=] _] | [_ [= ->]]]. done.
    + destruct (BigNumber_from (get record "gas_limit")) as [g|e']; simpl.
      * destruct (BigNumber_from (orElse _ _)) as [b|e'']; simpl.
        -- split; [discriminate|]. intros [[_ [=]] | [_ [=]]].
        -- split; [intros [= ->]; right; eauto|].
           intros [[_ [=]] | [_ [= ->]]]. done.
      * split; [intros [= ->]; by left|].
        intros [[_ [= ->]] | [[[=] | [b [=]]] _]]. done.
  - intros r.
    destruct (if isUndefined (get record "gas_limit") then _ else _)
      as [gasLimit|e] eqn:Hgas; simpl; [|discriminate].
    destruct (BigNumber_from (orElse (get record "amount") (VNum 0)))
      as [b|e] eqn:Hvalue; simpl; [|discriminate].
    intros [= <-]. split_and!.
    + assert (Hor : ∀ source,
                (truthy (get record source) = true ∧
                 orElse (get record source) VNull = get record source) ∨
                (truthy (get record source) = false ∧
                 orElse (get record source) VNull = VNull))
        by (intros source; apply orElse_spec).
      intros key source [[= <- <-]|[[= <- <-]|[[= <- <-]|[[= <- <-]|[]]]]].
      * destruct (Hor "chainId") as [[Ht Ho] | [Ht Ho]]; [left|right];
          (split; [exact Ht|]);
          (trans (Some (orElse (get record "chainId") VNull));
           [reflexivity | by rewrite Ho]).
      * destruct (Hor "transactionId") as [[Ht Ho] | [Ht Ho]]; [left|right];
          (split; [exact Ht|]);
          (trans (Some (orElse (get record "transactionId") VNull));
           [reflexivity | by rewrite Ho]).
      * destruct (Hor "to") as [[Ht Ho] | [Ht Ho]]; [left|right];
          (split; [exact Ht|]);
          (trans (Some (orElse (get record "to") VNull));
           [reflexivity | by rewrite Ho]).
      * destruct (Hor "call_result") as [[Ht Ho] | [Ht Ho]]; [left|right];
          (split; [exact Ht|]);
          (trans (Some (orElse (get record "call_result") VNull));
           [reflexivity | by rewrite Ho]).
    + intros key [<-|[<-|[<-|[]]]]; reflexivity.
    + destruct (isUndefined (get record "gas_limit")).
      * injection Hgas as <-. left. split; reflexivity.
      * destruct (BigNumber_from (get record "gas_limit")) as [g|e]; simpl in Hgas;
          [|discriminate].
        injection Hgas as <-. right. split; [done|]. exists g. split; reflexivity.
    + exists b. split; reflexivity.
    + reflexivity.
    + eexists. split; [reflexivity|].
      intros Ht. unfold orElse. rewrite Ht. reflexivity.
Qed.

End Adapters.

(** * Further properties of the seeded generator *)

Section GeneratorMore.
Import Random.
Context `{Hashing}.

Lemma extend_more (fuel extra : nat) (upper : Z) (r r' : list byte) :
  extend fuel upper r = Some r' → extend (fuel + extra) upper r = Some r'.
Proof.
  revert r. induction fuel as [|fuel IH]; intros r; simpl.
  - destruct (Z.ltb_spec (Z.of_nat (length r)) upper) as [Hlt|Hge];
      [discriminate|].
    intros [= <-]. destruct extra; simpl;
      by destruct (Z.ltb_spec (Z.of_nat (length r)) upper); try lia.
  - destruct (Z.of_nat (length r) <? upper); [apply IH | done].
Qed.

Lemma extend_post (fuel : nat) (upper : Z) (r r' : list byte) :
  extend fuel upper r = Some r' →
  upper ≤ Z.of_nat (length r') ∧ ∃ t, r' = r ++ t.
Proof.
  revert r. induction fuel as [|fuel IH]; intros r; simpl.
  - destruct (Z.ltb_spec (Z.of_nat (length r)) upper); [discriminate|].
    intros [= <-]. split; [done|]. exists []. by rewrite app_nil_r.
  - destruct (Z.ltb_spec (Z.of_nat (length r)) upper).
    + intros [Hlen [t ->]]%IH. split; [done|].
      exists (keccak256 r ++ t). by rewrite app_assoc.
    + intros [= <-]. split; [done|]. exists []. by rewrite app_nil_r.
Qed.

Lemma extend_enough (fuel : nat) (upper : Z) (r : list byte) :
  (∀ bs, length (keccak256 bs) = 32%nat) →
  upper ≤ Z.of_nat (length r) + 32 * Z.of_nat fuel →
  ∃ r', extend fuel upper r = Some r'.
Proof.
  intros Hlen. revert r. induction fuel as [|fuel IH]; intros r Hfuel; simpl.
  - destruct (Z.ltb_spec (Z.of_nat (length r)) upper); [lia | eauto].
  - destruct (Z.ltb_spec (Z.of_nat (length r)) upper); [|eauto].
    apply IH. rewrite length_app, Hlen. lia.
Qed.

Lemma extend_prefix (f1 f2 : nat) (u1 u2 : Z) (r r1 r2 : list byte) :
  u1 ≤ u2 → extend f1 u1 r = Some r1 → extend f2 u2 r = Some r2 →
  ∃ t, r2 = r1 ++ t.
Proof.
  intros Hu. revert r f2. induction f1 as [|f1 IH]; intros r f2; simpl.
  - destruct (Z.ltb_spec (Z.of_nat (length r)) u1); [discriminate|].
    intros [= <-] [_ Ht]%extend_post. done.
  - destruct (Z.ltb_spec (Z.of_nat (length r)) u1) as [Hlt|Hge].
    + intros H1 H2. destruct f2 as [|f2]; simpl in H2;
        destruct (Z.ltb_spec (Z.of_nat (length r)) u2); try discriminate;
        try lia.
      exact (IH _ f2 H1 H2).
    + intros [= <-] [_ Ht]%extend_post. done.
Qed.

Lemma slice0_length (r : list byte) (e : Z) :
  0 ≤ e ≤ Z.of_nat (length r) → Z.of_nat (length (slice0 r e)) = e.
Proof.
  intros He. unfold slice0.
  destruct (Z.ltb_spec e 0); [lia|].
  rewrite length_firstn. lia.
Qed.

(** X26. With digests of 32 bytes and room for the loop, [randomBytes]
    returns, for [0 <= lower <= upper] and [upper] no more than 2^53, at
    least [lower] bytes and fewer than [upper], or exactly [lower] when
    the two are equal; leaving [upper] out is giving [lower] for it. *)
Theorem randomBytes_length (fuel : nat) (seed : string) (lower upper : Z) :
  (∀ bs, length (keccak256 bs) = 32%nat) →
  0 ≤ lower ≤ upper →
  upper ≤ 2 ^ 53 →
  upper ≤ 32 * (Z.of_nat fuel + 1) →
  randomBytes fuel seed lower None = randomBytes fuel seed lower (Some lower) ∧
  ∃ bs, randomBytes fuel seed lower (Some upper) = Some bs ∧
        lower ≤ Z.of_nat (length bs) ∧
        (lower < upper → Z.of_nat (length bs) < upper) ∧
        (lower = upper → Z.of_nat (length bs) = lower).
Proof.
  intros Hlen Hrange Hsafe Hfuel. split.
  - unfold randomBytes.
    assert (Hl : (if Z.eqb lower 0 then lower else lower) = lower)
      by (by destruct (Z.eqb lower 0)).
    by rewrite Hl.
  - unfold randomBytes.
    assert (Hu : (if Z.eqb upper 0 then lower else upper) = upper)
      by (destruct (Z.eqb_spec upper 0); lia).
    rewrite Hu.
    destruct (Z.eqb_spec upper 0) as [H0|H0]; cbn [andb].
    { destruct (Z.eqb_spec upper lower); [|lia].
      exists []. cbn [length]. split; [done|]. lia. }
    destruct (extend_enough fuel upper (keccak256 (toUtf8Bytes seed)) Hlen)
      as [r Hr]; [rewrite Hlen; lia|].
    rewrite Hr. cbn [mbind option_bind]. eexists. split; [reflexivity|].
    apply extend_post in Hr as [Hr _].
    destruct (scale_safe lower upper (keccak256 r)) as (_ & Hb & Hlt);
      [change (2 ^ 54) with (2 * 2 ^ 53); lia..|].
    rewrite slice0_length by lia.
    split_and!; [lia | done | lia].
Qed.

(** The bound on the iterations of the loop has no part in the
    result: a larger bound gives the same bytes, the same hex string and
    the same number. *)
Lemma generator_fuel (fuel extra : nat) (seed : string) (lower : Z) :
  (∀ upper bs, randomBytes fuel seed lower upper = Some bs →
               randomBytes (fuel + extra) seed lower upper = Some bs) ∧
  (∀ upper s, randomHexString fuel seed lower upper = Some s →
              randomHexString (fuel + extra) seed lower upper = Some s) ∧
  (∀ upper n, randomNumber fuel seed lower upper = Some n →
              randomNumber (fuel + extra) seed lower upper = Some n).
Proof.
  assert (Hbytes : ∀ lower upper bs,
            randomBytes fuel seed lower upper = Some bs →
            randomBytes (fuel + extra) seed lower upper = Some bs).
  { intros lo upper bs. unfold randomBytes.
    destruct (_ && _)%bool; [done|].
    destruct (extend fuel _ _) as [r|] eqn:Hr; simpl; [|discriminate].
    by rewrite (extend_more fuel extra _ _ r Hr). }
  split_and!.
  - apply Hbytes.
  - intros upper s. unfold randomHexString.
    destruct (randomBytes fuel seed lower upper) as [bs|] eqn:Hbs; simpl;
      [|discriminate].
    by rewrite (Hbytes _ _ _ Hbs).
  - intros upper n. unfold randomNumber.
    destruct (randomBytes fuel seed 3 None) as [bs|] eqn:Hbs; simpl;
      [|discriminate].
    by rewrite (Hbytes _ _ _ Hbs).
Qed.

(** X27. Requests of a fixed length with the same seed extend each other:
    with digests of 32 bytes and room for the loop, [randomBytes(seed, n)]
    returns [n] bytes, and they are the first [n] bytes of the [m] bytes
    of [randomBytes(seed, m)], for [0 <= n <= m] and [m] no more than
    2^53. *)
Theorem randomBytes_prefix (fuel : nat) (seed : string) (n m : Z) :
  (∀ bs, length (keccak256 bs) = 32%nat) →
  0 ≤ n ≤ m →
  m ≤ 2 ^ 53 →
  m ≤ 32 * (Z.of_nat fuel + 1) →
  ∃ b t, randomBytes fuel seed n None = Some b ∧
         randomBytes fuel seed m None = Some (b ++ t) ∧
         Z.of_nat (length b) = n ∧ Z.of_nat (length t) = m - n.
Proof.
  intros Hlen Hnm Hsafe Hfuel.
  assert (Hfixed : ∀ k, 0 ≤ k ≤ m → k ≠ 0 →
            ∃ r, extend fuel k (keccak256 (toUtf8Bytes seed)) = Some r ∧
                 k ≤ Z.of_nat (length r) ∧
                 randomBytes fuel seed k None
                 = Some (firstn (Z.to_nat k) r)).
  { intros k Hk Hk0.
    destruct (extend_enough fuel k (keccak256 (toUtf8Bytes seed)) Hlen)
      as [r Hr]; [rewrite Hlen; lia|].
    exists r. split; [done|].
    pose proof (extend_post _ _ _ _ Hr) as [Hkr _]. split; [done|].
    unfold randomBytes.
    destruct (Z.eqb_spec k 0); [done|]. cbn [andb].
    rewrite Hr. cbn [mbind option_bind].
    destruct (percent_scaled (keccak256 r)) as [_ He].
    rewrite scale_same by (try done; lia).
    unfold slice0. destruct (Z.ltb_spec k 0); [lia|].
    by rewrite Z.min_l by lia. }
  destruct (Z.eq_dec m 0) as [Hm0|Hm0].
  { assert (n = 0) as -> by lia. subst m. exists [], [].
    split_and!; try done; by unfold randomBytes. }
  destruct (Hfixed m ltac:(lia) Hm0) as (r2 & Hr2 & Hl2 & Hb2).
  destruct (Z.eq_dec n 0) as [->|Hn0].
  { exists [], (firstn (Z.to_nat m) r2).
    split_and!; [by unfold randomBytes | done | done |].
    rewrite length_firstn. lia. }
  destruct (Hfixed n ltac:(lia) Hn0) as (r1 & Hr1 & Hl1 & Hb1).
  destruct (extend_prefix fuel fuel n m _ r1 r2 (proj2 Hnm) Hr1 Hr2)
    as [t ->].
  exists (firstn (Z.to_nat n) r1),
    (skipn (Z.to_nat n) (firstn (Z.to_nat m) (r1 ++ t))).
  assert (Hsplit : firstn (Z.to_nat m) (r1 ++ t)
                   = firstn (Z.to_nat n) r1
                     ++ skipn (Z.to_nat n) (firstn (Z.to_nat m) (r1 ++ t))).
  { rewrite <- (firstn_skipn (Z.to_nat n) (firstn (Z.to_nat m) (r1 ++ t)))
      at 1.
    f_equal. rewrite firstn_firstn, Nat.min_l by lia.
    rewrite firstn_app.
    replace (Z.to_nat n - length r1)%nat with 0%nat by lia.
    by rewrite firstn_O, app_nil_r. }
  split_and!; [done | rewrite Hb2; f_equal; exact Hsplit
             | rewrite length_firstn; lia |].
  rewrite length_skipn, length_firstn. lia.
Qed.

(** X28. With digests of 32 bytes and safe integers for bounds,
    [randomNumber] returns a number that lies between its two bounds, in
    whichever order they are given; shifting both bounds within the safe
    integers shifts the number by as much; and with the same seed and
    [lower] a larger safe [upper] never gives a smaller number. *)
Theorem randomNumber_affine (fuel : nat) (seed : string) (lower upper : Z) :
  (∀ bs, length (keccak256 bs) = 32%nat) →
  - 2 ^ 53 < lower < 2 ^ 53 →
  - 2 ^ 53 < upper < 2 ^ 53 →
  ∃ n, randomNumber fuel seed lower upper = Some n ∧
       Z.min lower upper ≤ n ≤ Z.max lower upper ∧
       (∀ c, - 2 ^ 53 < lower + c < 2 ^ 53 →
             - 2 ^ 53 < upper + c < 2 ^ 53 →
             randomNumber fuel seed (lower + c) (upper + c) = Some (n + c)) ∧
       (∀ upper', upper ≤ upper' → upper' < 2 ^ 53 →
          ∃ n', randomNumber fuel seed lower upper' = Some n' ∧ n ≤ n').
Proof.
  intros Hlen Hlo Hup. unfold randomNumber.
  rewrite (randomBytes_three fuel seed Hlen). cbn [mbind option_bind].
  set (top := firstn 3 (keccak256 (toUtf8Bytes seed))).
  destruct (scale_safe lower upper top) as (Hv & Hb & _);
    [change (2 ^ 54) with (2 * 2 ^ 53); lia..|].
  eexists. split; [reflexivity|]. split; [done|]. split.
  - intros c Hloc Hupc.
    destruct (scale_safe (lower + c) (upper + c) top) as (Hvc & _);
      [change (2 ^ 54) with (2 * 2 ^ 53); lia..|].
    rewrite Hvc, Hv.
    replace (upper + c - (lower + c)) with (upper - lower) by lia.
    f_equal. lia.
  - intros upper' Hle _. eexists. split; [reflexivity|].
    by apply scale_mono.
Qed.

Lemma hexChar_digit (b : byte) :
  isHexDigit (hexChar (N.div (Byte.to_N b) 16)) = true ∧
  isHexDigit (hexChar (N.modulo (Byte.to_N b) 16)) = true ∧
  lowerChar (hexChar (N.div (Byte.to_N b) 16))
  = hexChar (N.div (Byte.to_N b) 16) ∧
  lowerChar (hexChar (N.modulo (Byte.to_N b) 16))
  = hexChar (N.modulo (Byte.to_N b) 16).
Proof. destruct b; vm_compute; done. Qed.

Lemma hexDigits_spec (bs : list byte) :
  allChars isHexDigit (hexDigits bs) = true ∧
  toLowerCase (hexDigits bs) = hexDigits bs ∧
  String.length (hexDigits bs) = (2 * length bs)%nat.
Proof.
  induction bs as [|b bs (IH1 & IH2 & IH3)]; [done|].
  destruct (hexChar_digit b) as (Hd1 & Hd2 & Hl1 & Hl2).
  cbn [hexDigits allChars toLowerCase String.length length].
  rewrite Hd1, Hd2, Hl1, Hl2, IH1, IH2, IH3. split_and!; [done|done|lia].
Qed.

Lemma hexlify_canonical (bs : list byte) :
  isHexStr (hexlify bs) = true ∧
  toLowerCase (hexlify bs) = hexlify bs ∧
  hexDataLength (hexlify bs) = Some (Z.of_nat (length bs)).
Proof.
  destruct (hexDigits_spec bs) as (Hd & Hl & Hn).
  assert (Hhex : isHexStr (hexlify bs) = true) by exact Hd.
  assert (Hlen : strlen (hexlify bs) = 2 + 2 * Z.of_nat (length bs)).
  { unfold strlen, hexlify.
    change (String.length ("0x" ++ hexDigits bs)%string)
      with (S (S (String.length (hexDigits bs)))).
    rewrite Hn. lia. }
  split_and!; [done | |].
  - unfold hexlify.
    change (toLowerCase ("0x" ++ hexDigits bs)%string)
      with ("0x" ++ toLowerCase (hexDigits bs))%string.
    by rewrite Hl.
  - unfold hexDataLength. rewrite Hhex, Hlen. simpl.
    replace ((2 + 2 * Z.of_nat (length bs)) mod 2) with 0
      by (symmetry; apply Z.mod_divide; [lia|];
          exists (1 + Z.of_nat (length bs)); lia).
    simpl. f_equal.
    replace (2 + 2 * Z.of_nat (length bs) - 2) with (Z.of_nat (length bs) * 2)
      by lia.
    by rewrite Z.div_mul.
Qed.

(** X29. With digests of 32 bytes and room for the loop, what
    [randomHexString(seed, n)] returns, for [n] from 0 to 2^53, is a
    lower-case hex string of exactly [n] bytes, which the formatter's
    [hex] and [data] return unchanged; for 48 bytes so does [hash48], and
    for 32 bytes [hash32]. *)
Theorem randomHexString_canonical (fuel : nat) (seed : string) (n : Z) :
  (∀ bs, length (keccak256 bs) = 32%nat) →
  0 ≤ n →
  n ≤ 2 ^ 53 →
  n ≤ 32 * (Z.of_nat fuel + 1) →
  ∃ s, randomHexString fuel seed n None = Some s ∧
       isHexStr s = true ∧ toLowerCase s = s ∧ hexDataLength s = Some n ∧
       (∀ strict, Formatter.hex (VStr s) strict = Ok s ∧
                  Formatter.data (VStr s) strict = Ok s) ∧
       (n = 48 → ∀ strict, Formatter.hash48 (VStr s) strict = Ok s) ∧
       (n = 32 → ∀ strict, Formatter.hash32 (VStr s) strict = Ok s).
Proof.
  intros Hlen Hn Hsafe Hfuel.
  assert (Hbytes : ∃ bs, randomBytes fuel seed n None = Some bs ∧
            Z.of_nat (length bs) = n).
  { unfold randomBytes.
    destruct (Z.eqb_spec n 0) as [->|Hn0]; cbn [andb]; [by exists []|].
    destruct (extend_enough fuel n (keccak256 (toUtf8Bytes seed)) Hlen)
      as [r Hr]; [rewrite Hlen; lia|].
    rewrite Hr. cbn [mbind option_bind]. eexists. split; [reflexivity|].
    apply extend_post in Hr as [Hr _].
    destruct (percent_scaled (keccak256 r)) as [_ He].
    rewrite scale_same by (try done; lia).
    apply slice0_length. lia. }
  destruct Hbytes as (bs & Hbs & Hbn).
  unfold randomHexString. rewrite Hbs. simpl.
  destruct (hexlify_canonical bs) as (Hhex & Hlow & Hdl).
  rewrite Hbn in Hdl.
  assert (Hhexf : ∀ strict, Formatter.hex (VStr (hexlify bs)) strict
                            = Ok (hexlify bs))
    by (intros strict; by rewrite (hex_of_hex _ strict Hhex), Hlow).
  exists (hexlify bs). split_and!; try done.
  - intros strict. split; [apply Hhexf|].
    unfold Formatter.data. rewrite Hhexf. simpl.
    unfold hexDataLength in Hdl. rewrite Hhex in Hdl. simpl in Hdl.
    destruct (Z.eqb_spec (strlen (hexlify bs) mod 2) 0); [done|discriminate].
  - intros -> strict. unfold Formatter.hash48. rewrite Hhexf. simpl.
    by rewrite bool_decide_eq_true_2.
  - intros -> strict. unfold Formatter.hash32. rewrite Hhexf. simpl.
    by rewrite bool_decide_eq_true_2.
Qed.

End GeneratorMore.

(** * The properties on concrete inputs *)

Lemma check_fail_fast_witness :
  check Sample.failingFormat Sample.failingObject = Throw Sample.failingError ∧
  (∀ r, check Sample.failingFormat Sample.failingObject ≠ Ok r) ∧
  ∃ pre key f post e0,
    Sample.failingFormat = pre ++ (key, f) :: post ∧
    (∀ k g, In (k, g) pre → ∃ v, g (get Sample.failingObject k) = Ok v) ∧
    f (get Sample.failingObject key) = Throw e0 ∧
    message Sample.failingError = message e0 ∧
    checkKey Sample.failingError = Some key ∧
    checkValue Sample.failingError = Some (get Sample.failingObject key) ∧
    check_calls Sample.failingFormat Sample.failingObject
      = map fst pre ++ [key] ∧
    ∀ post', check (pre ++ (key, f) :: post') Sample.failingObject
             = Throw Sample.failingError.
Proof.
  assert (Hthrow : check Sample.failingFormat Sample.failingObject
                   = Throw Sample.failingError) by reflexivity.
  split; [exact Hthrow|].
  exact (check_fail_fast Sample.failingFormat Sample.failingObject
           Sample.failingError Hthrow).
Defined.

Lemma check_record_keys_witness :
  NoDup (map fst Sample.sparseFormat) ∧
  check Sample.sparseFormat Sample.sparseObject = Ok Sample.sparseRecord ∧
  (∀ v, Sample.sparseRecord !! "omitted" = Some v ↔
        ∃ f, In ("omitted", f) Sample.sparseFormat ∧
             f (get Sample.sparseObject "omitted") = Ok v ∧ v ≠ VUndef) ∧
  Sample.sparseRecord !! "omitted" ≠ Some VUndef ∧
  (∀ f, In ("omitted", f) Sample.sparseFormat →
        f (get Sample.sparseObject "omitted") = Ok VNull →
        Sample.sparseRecord !! "omitted" = Some VNull).
Proof.
  assert (Hnd : NoDup (map fst Sample.sparseFormat))
    by (apply (bool_decide_unpack _); vm_compute; exact I).
  assert (Hok : check Sample.sparseFormat Sample.sparseObject
                = Ok Sample.sparseRecord) by reflexivity.
  split; [exact Hnd|]. split; [exact Hok|].
  exact (check_record_keys Sample.sparseFormat Sample.sparseObject
           Sample.sparseRecord Hnd Hok "omitted").
Defined.

Lemma allowNull_spec_witness :
  VNum 3 ≠ VNull ∧ VNum 3 ≠ VUndef ∧
  allowNull (λ v, Throw (argumentError "never" v)) VNull (VNum 3)
  = Throw (argumentError "never" (VNum 3)).
Proof.
  assert (Hnull : VNum 3 ≠ VNull) by discriminate.
  assert (Hundef : VNum 3 ≠ VUndef) by discriminate.
  split; [exact Hnull|]. split; [exact Hundef|].
  exact (proj2 (proj2 (proj2
    (allowNull_spec (λ v, Throw (argumentError "never" v)) VNull)))
    (VNum 3) Hnull Hundef).
Defined.

Lemma hash48_spec_witness :
  isHexStr Sample.hash48Sample = true ∧
  hexDataLength Sample.hash48Sample = Some 48 ∧
  hash48 (VStr Sample.hash48Sample) false
  = Ok (toLowerCase Sample.hash48Sample) ∧
  isHexStr "0xABCD" = true ∧
  hexDataLength "0xABCD" ≠ Some 48 ∧
  ∃ e, hash48 (VStr "0xABCD") true = Throw e.
Proof.
  assert (Hhex : isHexStr Sample.hash48Sample = true) by reflexivity.
  assert (Hlen : hexDataLength Sample.hash48Sample = Some 48) by reflexivity.
  assert (Hhex' : isHexStr "0xABCD" = true) by reflexivity.
  assert (Hlen' : hexDataLength "0xABCD" ≠ Some 48) by (vm_compute; discriminate).
  split_and!; try assumption.
  - exact (proj1 (hash48_spec Sample.hash48Sample false Hhex) Hlen).
  - exact (proj2 (hash48_spec "0xABCD" true Hhex') Hlen').
Defined.

Lemma data_spec_witness :
  data (VStr "ABCD") false = Ok "0xabcd" ∧
  data (VStr "0xabcd") true = Ok "0xabcd".
Proof.
  assert (Hok : data (VStr "ABCD") false = Ok "0xabcd") by reflexivity.
  split; [exact Hok|].
  exact (proj1 (data_spec (VStr "ABCD") false)
           "0xabcd" true Hok).
Defined.



Lemma receipt_byzantium_witness :
  receipt (H := Sample.collaborators) (Sample.rawReceipt (VStr "0x1"))
  = Ok Sample.receiptExpected ∧
  isNullish (get (Sample.rawReceipt (VStr "0x1")) "status") = false ∧
  Sample.receiptExpected !! "status" = Some (VNum 1) ∧
  Sample.receiptExpected !! "byzantium" = Some (VBool true) ∧
  receipt (H := Sample.collaborators) (Sample.rawReceipt VNull)
  = Ok (Sample.receiptRecord VNull) ∧
  isNullish (get (Sample.rawReceipt VNull) "status") = true ∧
  Sample.receiptRecord VNull !! "status" = None ∧
  Sample.receiptRecord VNull !! "byzantium" = None.
Proof.
  assert (Hone : receipt (H := Sample.collaborators)
                   (Sample.rawReceipt (VStr "0x1"))
                 = Ok Sample.receiptExpected)
    by (vm_compute; reflexivity).
  assert (Hthere : isNullish (get (Sample.rawReceipt (VStr "0x1")) "status")
                   = false) by (vm_compute; reflexivity).
  assert (Hstatus : Sample.receiptExpected !! "status" = Some (VNum 1))
    by (vm_compute; reflexivity).
  assert (Hnull : receipt (H := Sample.collaborators) (Sample.rawReceipt VNull)
                  = Ok (Sample.receiptRecord VNull))
    by (vm_compute; reflexivity).
  assert (Hraw : isNullish (get (Sample.rawReceipt VNull) "status") = true)
    by (vm_compute; reflexivity).
  destruct (proj2 (proj2 (proj2 (receipt_byzantium (H := Sample.collaborators)
                                   _ _ Hone))) Hthere)
    as (n & _ & _ & Hbyz).
  destruct (proj1 (proj2 (proj2 (receipt_byzantium (H := Sample.collaborators)
                                   _ _ Hnull))) Hraw)
    as [Hnostatus Hnobyz].
  split; [exact Hone|]. split; [exact Hthere|]. split; [exact Hstatus|].
  split; [exact Hbyz|]. split; [exact Hnull|]. split; [exact Hraw|].
  split; [exact Hnostatus | exact Hnobyz].
Defined.

Lemma transactionResponse_legacy_chainId_witness :
  Sample.transactionStore !! 1%positive = Some Sample.rawTransaction ∧
  isNullish (get Sample.rawTransaction "chainId") = true ∧
  transactionResponse (H := Sample.collaborators) 1%positive
    Sample.transactionStore
  = (fst Sample.transactionOutcome,
     Ok (Sample.recordOf (snd Sample.transactionOutcome))) ∧
  isNullish (get Sample.rawTransaction "networkId") = true ∧
  Sample.recordOf (snd Sample.transactionOutcome) !! "v" = Some (VNum 37) ∧
  Sample.recordOf (snd Sample.transactionOutcome) !! "chainId"
  = Some (VNum 1).
Proof.
  assert (Hl : Sample.transactionStore !! 1%positive
               = Some Sample.rawTransaction) by (vm_compute; reflexivity).
  assert (Hchain : isNullish (get Sample.rawTransaction "chainId") = true)
    by (vm_compute; reflexivity).
  assert (Hrun : transactionResponse (H := Sample.collaborators) 1%positive
                   Sample.transactionStore
                 = (fst Sample.transactionOutcome,
                    Ok (Sample.recordOf (snd Sample.transactionOutcome))))
    by (vm_compute; reflexivity).
  assert (Hnet : isNullish (get Sample.rawTransaction "networkId") = true)
    by (vm_compute; reflexivity).
  assert (Hv : Sample.recordOf (snd Sample.transactionOutcome) !! "v"
               = Some (VNum 37)) by (vm_compute; reflexivity).
  split_and!; try assumption.
  exact (proj2 (proj1 (transactionResponse_legacy_chainId
                         (H := Sample.collaborators) _ _ _ _ _ Hl Hchain Hrun)
                  Hnet) Hv).
Defined.


Lemma transactionResponse_mutates_raw_witness :
  BigNumber_from (Collaborators := Sample.collaborators) (VStr "0x0") = Ok 0 ∧
  Sample.aliasedStore !! 1%positive = Some Sample.rawAliased ∧
  ∃ after,
    fst (transactionResponse (H := Sample.collaborators) 1%positive
           Sample.aliasedStore) !! 1%positive = Some after ∧
    after ≠ Sample.rawAliased ∧
    Sample.rawAliased !! "gasLimit" = None ∧
    after !! "gasLimit" = Some (VStr "0x5208") ∧
    Sample.rawAliased !! "to" = Some (VStr "0x0") ∧
    after !! "to" = Some (VStr AddressZero) ∧
    Sample.rawAliased !! "data" = None ∧
    after !! "data" = Some (VStr "0xabcd") ∧
    Sample.rawAliased !! "accessList" = None ∧
    after !! "accessList" = Some (VArr []).
Proof.
  assert (Hzero : BigNumber_from (Collaborators := Sample.collaborators)
                    (VStr "0x0") = Ok 0) by reflexivity.
  assert (Hl : Sample.aliasedStore !! 1%positive = Some Sample.rawAliased)
    by apply lookup_singleton_eq.
  split; [exact Hzero|]. split; [exact Hl|].
  exact (proj1 (transactionResponse_mutates_raw (H := Sample.collaborators)
                  Sample.aliasedStore 1%positive Hzero) Hl).
Defined.

(** * The further properties on concrete inputs *)

Lemma check_succeeds_iff_witness :
  (∃ r, check Sample.sparseFormat Sample.sparseObject = Ok r) ∧
  ∀ key f, In (key, f) Sample.sparseFormat →
           ∃ v, f (get Sample.sparseObject key) = Ok v.
Proof.
  assert (Hok : ∃ r, check Sample.sparseFormat Sample.sparseObject = Ok r)
    by (exists Sample.sparseRecord; reflexivity).
  split; [exact Hok|].
  exact (proj1 (proj1 (check_succeeds_iff Sample.sparseFormat
                         Sample.sparseObject)) Hok).
Defined.

Lemma check_reads_format_keys_witness :
  (∀ key, In key (map fst Sample.sparseFormat) →
          get Sample.sparseObject key = get Sample.wideObject key) ∧
  check Sample.sparseFormat Sample.sparseObject
  = check Sample.sparseFormat Sample.wideObject ∧
  check_calls Sample.sparseFormat Sample.sparseObject
  = check_calls Sample.sparseFormat Sample.wideObject.
Proof.
  assert (Hagree : ∀ key, In key (map fst Sample.sparseFormat) →
            get Sample.sparseObject key = get Sample.wideObject key)
    by (intros key [<-|[<-|[<-|[]]]]; reflexivity).
  split; [exact Hagree|].
  exact (check_reads_format_keys Sample.sparseFormat Sample.sparseObject
           Sample.wideObject Hagree).
Defined.

Lemma check_fixed_point_witness :
  NoDup (map fst Sample.sparseFormat) ∧
  (∀ key f v w, In (key, f) Sample.sparseFormat → f v = Ok w → f w = Ok w) ∧
  check Sample.sparseFormat Sample.sparseObject = Ok Sample.sparseRecord ∧
  check Sample.sparseFormat Sample.sparseRecord = Ok Sample.sparseRecord.
Proof.
  assert (Hnd : NoDup (map fst Sample.sparseFormat))
    by (apply (bool_decide_unpack _); vm_compute; exact I).
  assert (Hidem : ∀ key f v w, In (key, f) Sample.sparseFormat →
                    f v = Ok w → f w = Ok w).
  { intros key f v w [[= <- <-]|[[= <- <-]|[[= <- <-]|[]]]];
      unfold allowNull; destruct v; simpl; intros [= <-]; reflexivity. }
  assert (Hok : check Sample.sparseFormat Sample.sparseObject
                = Ok Sample.sparseRecord) by reflexivity.
  split; [exact Hnd|]. split; [exact Hidem|]. split; [exact Hok|].
  exact (check_fixed_point Sample.sparseFormat Sample.sparseObject
           Sample.sparseRecord Hnd Hidem Hok).
Defined.

Lemma arrayOf_spec_witness :
  Forall2 (λ x y, (λ v : value, Ok v) x = Ok y)
    [VNum 1; VNull] [VNum 1; VNull] ∧
  arrayOf (λ v, Ok v) (VArr [VNum 1; VNull]) = Ok (VArr [VNum 1; VNull]).
Proof.
  assert (Hall : Forall2 (λ x y, (λ v : value, Ok v) x = Ok y)
                   [VNum 1; VNull] [VNum 1; VNull])
    by (repeat constructor).
  split; [exact Hall|].
  exact (proj2 (proj1 (arrayOf_spec (λ v, Ok v))
                  [VNum 1; VNull] [VNum 1; VNull]) Hall).
Defined.

Lemma allowFalsish_spec_witness :
  truthy (VNum 0) = false ∧
  allowFalsish (λ v, Throw (argumentError "never" v)) (VStr "0x") (VNum 0)
  = Ok (VStr "0x").
Proof.
  assert (Hfalsy : truthy (VNum 0) = false) by reflexivity.
  split; [exact Hfalsy|].
  exact (proj1 (proj2 (allowFalsish_spec
                         (λ v, Throw (argumentError "never" v)) (VStr "0x")))
           (VNum 0) Hfalsy).
Defined.

Lemma hex_spec_witness :
  String.eqb (prefix2 "ABCD") "0x" = false ∧
  hex (VStr "ABCD") false = hex (VStr "0xABCD") true ∧
  ∃ e, hex (VStr "ABCD") true = Throw e.
Proof.
  assert (Hpre : String.eqb (prefix2 "ABCD") "0x" = false) by reflexivity.
  split; [exact Hpre|].
  exact (proj1 (hex_spec (VStr "ABCD") false) "ABCD" eq_refl Hpre).
Defined.

Lemma hash48_canonical_witness :
  hash48 (VStr Sample.hash48Sample) false
  = Ok (toLowerCase Sample.hash48Sample) ∧
  toLowerCase (toLowerCase Sample.hash48Sample)
  = toLowerCase Sample.hash48Sample ∧
  ∀ strict,
    hash48 (VStr (toLowerCase Sample.hash48Sample)) strict
    = Ok (toLowerCase Sample.hash48Sample).
Proof.
  assert (Hok : hash48 (VStr Sample.hash48Sample) false
                = Ok (toLowerCase Sample.hash48Sample)) by reflexivity.
  split; [exact Hok|].
  exact (proj2 (proj2 (hash48_canonical (VStr Sample.hash48Sample) false
                         (toLowerCase Sample.hash48Sample) Hok))).
Defined.

Lemma hash32_spec_witness :
  isHexStr Sample.hash32Sample = true ∧
  hexDataLength Sample.hash32Sample = Some 32 ∧
  hash32 (VStr Sample.hash32Sample) true
  = Ok (toLowerCase Sample.hash32Sample).
Proof.
  assert (Hhex : isHexStr Sample.hash32Sample = true) by reflexivity.
  assert (Hlen : hexDataLength Sample.hash32Sample = Some 32) by reflexivity.
  split; [exact Hhex|]. split; [exact Hlen|].
  exact (proj1 (proj1 (hash32_spec (VStr Sample.hash32Sample) true)
                  Sample.hash32Sample eq_refl Hhex) Hlen).
Defined.

Lemma boolean_spec_witness :
  (∃ s, VStr "TRUE" = VStr s ∧ toLowerCase s = "true") ∧
  boolean (VStr "TRUE") = Ok (VBool true).
Proof.
  assert (Hs : ∃ s, VStr "TRUE" = VStr s ∧ toLowerCase s = "true")
    by (exists "TRUE"; split; reflexivity).
  split; [exact Hs|].
  exact (proj2 (proj1 (boolean_spec (VStr "TRUE")) true) (or_intror Hs)).
Defined.

Lemma number_type_spec_witness :
  isNullish (VStr "0x10") = false ∧
  type (H := Sample.collaborators) (VStr "0x10")
  = number (H := Sample.collaborators) (VStr "0x10").
Proof.
  assert (Hthere : isNullish (VStr "0x10") = false) by reflexivity.
  split; [exact Hthere|].
  exact (proj1 (number_type_spec (H := Sample.collaborators) (VStr "0x10"))
           Hthere).
Defined.

Lemma difficulty_spec_witness :
  isNullish (VStr "0xffffffffffffffffffff") = false ∧
  BigNumber_from (Collaborators := Sample.collaborators)
    (VStr "0xffffffffffffffffffff") = Ok (2 ^ 80 - 1) ∧
  difficulty (H := Sample.collaborators) (VStr "0xffffffffffffffffffff")
  = Ok VNull.
Proof.
  assert (Hthere : isNullish (VStr "0xffffffffffffffffffff") = false)
    by reflexivity.
  assert (Hbig : BigNumber_from (Collaborators := Sample.collaborators)
                   (VStr "0xffffffffffffffffffff") = Ok (2 ^ 80 - 1))
    by reflexivity.
  split; [exact Hthere|]. split; [exact Hbig|].
  exact (proj1 (proj2 (proj2 (difficulty_spec (H := Sample.collaborators)
                                (VStr "0xffffffffffffffffffff"))))
           (2 ^ 80 - 1) Hthere Hbig).
Defined.

Lemma callAddress_spec_witness :
  isHexString (VNum 5) (Some 32) = false ∧
  callAddress (H := Sample.collaborators) (VNum 5) = Ok VNull.
Proof.
  assert (Hnot : isHexString (VNum 5) (Some 32) = false) by reflexivity.
  split; [exact Hnot|].
  exact (proj1 (callAddress_spec (H := Sample.collaborators) (VNum 5)) Hnot).
Defined.

Lemma topics_spec_witness :
  topics Sample.topicsSample = Ok Sample.topicsCanonical ∧
  topics Sample.topicsCanonical = Ok Sample.topicsCanonical.
Proof.
  assert (Hok : topics Sample.topicsSample = Ok Sample.topicsCanonical)
    by reflexivity.
  split; [exact Hok|].
  exact (proj1 (topics_spec Sample.topicsSample Sample.topicsCanonical Hok)).
Defined.

Lemma timestamp_accepts_iff_witness :
  (∃ pre mid post,
     Sample.paddedTimestamp = (pre ++ mid ++ post)%string ∧
     matchWhole mid = true) ∧
  timestamp (VStr Sample.paddedTimestamp) = Ok (VStr Sample.paddedTimestamp).
Proof.
  assert (Hmid : ∃ pre mid post,
            Sample.paddedTimestamp = (pre ++ mid ++ post)%string ∧
            matchWhole mid = true)
    by (exists "x", "1234567890.123456789", "y"; split; reflexivity).
  split; [exact Hmid|].
  exact (proj2 (proj1 (proj1 (timestamp_accepts_iff
                                (VStr Sample.paddedTimestamp))
                         Sample.paddedTimestamp eq_refl)) Hmid).
Defined.

Lemma receiptLog_record_witness :
  isNullish VNull = true ∧
  (∃ e, receiptLog (H := Sample.collaborators) VNull = Throw e ∧
        checkKey e = None) ∧
  receiptLog (H := Sample.collaborators) (VObj Sample.rawLog)
  = Ok (VObj Sample.logExpected) ∧
  ∃ raw m, properties (VObj Sample.rawLog) = Ok raw ∧
    VObj Sample.logExpected = VObj m ∧
    (∃ n, m !! "transactionIndex" = Some (VNum n) ∧ - 2 ^ 53 < n < 2 ^ 53) ∧
    (∃ n, m !! "logIndex" = Some (VNum n) ∧ - 2 ^ 53 < n < 2 ^ 53) ∧
    (∃ s, m !! "transactionHash" = Some (VStr s) ∧ isHexStr s = true ∧
          hexDataLength s = Some 48 ∧ toLowerCase s = s) ∧
    (∃ a, m !! "address" = Some (VStr a)) ∧
    (∃ xs ts, get raw "topics" = VArr xs ∧ m !! "topics" = Some (VArr ts) ∧
       length ts = length xs ∧
       Forall (λ t, ∃ s, t = VStr s ∧ isHexStr s = true ∧
                         hexDataLength s = Some 32 ∧ toLowerCase s = s) ts) ∧
    (∃ d, m !! "data" = Some (VStr d) ∧ isHexStr d = true ∧
          strlen d mod 2 = 0 ∧ toLowerCase d = d) ∧
    (∀ key, is_Some (m !! key) →
       In key ["transactionIndex"; "transactionHash"; "address"; "topics";
               "data"; "logIndex"]).
Proof.
  assert (Hnull : isNullish VNull = true) by reflexivity.
  assert (Hok : receiptLog (H := Sample.collaborators) (VObj Sample.rawLog)
                = Ok (VObj Sample.logExpected))
    by (vm_compute; reflexivity).
  split; [exact Hnull|].
  split; [exact (proj1 (receiptLog_record (H := Sample.collaborators) VNull)
                   Hnull)|].
  split; [exact Hok|].
  exact (proj2 (receiptLog_record (H := Sample.collaborators)
                  (VObj Sample.rawLog)) (VObj Sample.logExpected) Hok).
Defined.

Lemma receipt_record_witness :
  receipt (H := Sample.collaborators) (Sample.rawReceipt (VStr "0x1"))
  = Ok (Sample.receiptRecord (VStr "0x1")) ∧
  Sample.receiptRecord (VStr "0x1") !! "timestamp"
  = Some (get (Sample.rawReceipt (VStr "0x1")) "timestamp").
Proof.
  assert (Hok : receipt (H := Sample.collaborators)
                  (Sample.rawReceipt (VStr "0x1"))
                = Ok (Sample.receiptRecord (VStr "0x1")))
    by (vm_compute; reflexivity).
  split; [exact Hok|].
  exact (proj1 (proj2 (receipt_record (H := Sample.collaborators) _ _ Hok))).
Defined.

Lemma filter_spec_witness :
  (∀ key, In key (map fst (formats_filter (H := Sample.collaborators))) →
          isNullish (get (∅ : gmap string value) key) = true) ∧
  filter (H := Sample.collaborators) ∅ = Ok ∅.
Proof.
  assert (Hnone : ∀ key,
            In key (map fst (formats_filter (H := Sample.collaborators))) →
            isNullish (get (∅ : gmap string value) key) = true)
    by (intros key [<-|[<-|[<-|[<-|[]]]]]; reflexivity).
  split; [exact Hnone|].
  exact (proj1 (filter_spec (H := Sample.collaborators) ∅) Hnone).
Defined.

Lemma filterLog_record_witness :
  filterLog (H := Sample.collaborators) Sample.rawFilterLog
  = Ok Sample.filterLogRecord ∧
  truthy (get Sample.rawFilterLog "data") = false ∧
  Sample.filterLogRecord !! "data" = Some (VStr "0x").
Proof.
  assert (Hok : filterLog (H := Sample.collaborators) Sample.rawFilterLog
                = Ok Sample.filterLogRecord)
    by (vm_compute; reflexivity).
  assert (Hfalsy : truthy (get Sample.rawFilterLog "data") = false)
    by (vm_compute; reflexivity).
  split; [exact Hok|]. split; [exact Hfalsy|].
  exact (proj1 (filterLog_record (H := Sample.collaborators) _ _ Hok) Hfalsy).
Defined.

Lemma transactionRequest_spec_witness :
  (∀ key,
     In key (map fst (formats_transactionRequest (H := Sample.collaborators))) →
     isNullish (get (∅ : gmap string value) key) = true) ∧
  transactionRequest (H := Sample.collaborators) (VObj ∅)
  = Ok (VObj {[ "accessList" := VNull ]}).
Proof.
  assert (Hnone : ∀ key,
            In key (map fst (formats_transactionRequest
                               (H := Sample.collaborators))) →
            isNullish (get (∅ : gmap string value) key) = true)
    by (intros key _; reflexivity).
  split; [exact Hnone|].
  exact (proj1 (transactionRequest_spec (H := Sample.collaborators) ∅) Hnone).
Defined.

Lemma transactionResponse_writes_witness :
  Sample.transactionStore !! 1%positive = Some Sample.rawTransaction ∧
  ∃ after,
    fst (transactionResponse (H := Sample.collaborators) 1%positive
           Sample.transactionStore) !! 1%positive = Some after ∧
    ∀ l', l' ≠ 1%positive →
      fst (transactionResponse (H := Sample.collaborators) 1%positive
             Sample.transactionStore) !! l'
      = Sample.transactionStore !! l'.
Proof.
  assert (Hl : Sample.transactionStore !! 1%positive
               = Some Sample.rawTransaction) by apply lookup_singleton_eq.
  split; [exact Hl|].
  destruct (transactionResponse_writes (H := Sample.collaborators)
              Sample.transactionStore 1%positive Sample.rawTransaction Hl)
    as (after & Hafter & Hframe & _).
  exact (ex_intro _ after (conj Hafter Hframe)).
Defined.

Lemma transactionResponse_record_witness :
  transactionResponse (H := Sample.collaborators) 1%positive
    Sample.transactionStore
  = (fst Sample.transactionOutcome,
     Ok (Sample.recordOf (snd Sample.transactionOutcome))) ∧
  ∃ s, Sample.recordOf (snd Sample.transactionOutcome) !! "hash"
       = Some (VStr s) ∧
       isHexStr s = true ∧ hexDataLength s = Some 48 ∧ toLowerCase s = s.
Proof.
  assert (Hrun : transactionResponse (H := Sample.collaborators) 1%positive
                   Sample.transactionStore
                 = (fst Sample.transactionOutcome,
                    Ok (Sample.recordOf (snd Sample.transactionOutcome))))
    by (vm_compute; reflexivity).
  split; [exact Hrun|].
  exact (proj1 (transactionResponse_record (H := Sample.collaborators)
                  _ _ _ _ Hrun)).
Defined.

Lemma transactionResponse_chainId_witness :
  Sample.transactionStore !! 1%positive = Some Sample.rawTransaction ∧
  transactionResponse (H := Sample.collaborators) 1%positive
    Sample.transactionStore
  = (fst Sample.transactionOutcome,
     Ok (Sample.recordOf (snd Sample.transactionOutcome))) ∧
  isNullish (get Sample.rawTransaction "chainId") = true ∧
  ∃ n, Sample.recordOf (snd Sample.transactionOutcome) !! "chainId"
       = Some (VNum n).
Proof.
  assert (Hl : Sample.transactionStore !! 1%positive
               = Some Sample.rawTransaction) by apply lookup_singleton_eq.
  assert (Hrun : transactionResponse (H := Sample.collaborators) 1%positive
                   Sample.transactionStore
                 = (fst Sample.transactionOutcome,
                    Ok (Sample.recordOf (snd Sample.transactionOutcome))))
    by (vm_compute; reflexivity).
  assert (Hnone : isNullish (get Sample.rawTransaction "chainId") = true)
    by (vm_compute; reflexivity).
  split; [exact Hl|]. split; [exact Hrun|]. split; [exact Hnone|].
  exact (proj1 (proj2 (transactionResponse_chainId (H := Sample.collaborators)
                         _ _ _ _ _ Hl Hrun) Hnone)).
Defined.

Lemma logsMapper_spec_witness :
  (∀ x, In x [VObj ∅; VObj ∅] → ∃ o, x = VObj o) ∧
  ∃ ys, logsMapper (VArr [VObj ∅; VObj ∅]) = Ok (VArr ys).
Proof.
  assert (Hobj : ∀ x, In x [VObj ∅; VObj ∅] → ∃ o, x = VObj o)
    by (intros x [<-|[<-|[]]]; exists ∅; reflexivity).
  split; [exact Hobj|].
  exact (proj1 (proj2 (logsMapper_spec (VArr [VObj ∅; VObj ∅])))
           [VObj ∅; VObj ∅] eq_refl Hobj).
Defined.

Lemma receiptFromResponse_spec_witness :
  isNullish (get (∅ : gmap string value) "customData") = true ∧
  ∃ r, receiptFromResponse ∅ = Ok r ∧
       r !! "logs" = Some (VArr []) ∧
       r !! "status" = Some (VNum 0) ∧
       r !! "accountAddress" = Some VNull.
Proof.
  assert (Hnone : isNullish (get (∅ : gmap string value) "customData") = true)
    by reflexivity.
  split; [exact Hnone|].
  exact (proj2 (receiptFromResponse_spec ∅) Hnone).
Defined.

Lemma responseFromRecord_spec_witness :
  responseFromRecord (H := Sample.collaborators) ∅
  = Ok Sample.responseRecord ∧
  ∀ key, In key ["hash"; "timestamp"; "from"] →
         Sample.responseRecord !! key
         = Some (get (∅ : gmap string value) key).
Proof.
  assert (Hok : responseFromRecord (H := Sample.collaborators) ∅
                = Ok Sample.responseRecord) by (vm_compute; reflexivity).
  split; [exact Hok|].
  exact (proj1 (proj2 (proj2 (responseFromRecord_spec
                                (H := Sample.collaborators) ∅)
                         Sample.responseRecord Hok))).
Defined.

Lemma randomBytes_length_witness :
  (∀ bs, length (Random.keccak256 (Hashing := Sample.hashingCount) bs)
         = 32%nat) ∧
  0 ≤ 10 ≤ 70 ∧ 70 ≤ 2 ^ 53 ∧ 70 ≤ 32 * (Z.of_nat 2 + 1) ∧
  ∃ bs, Random.randomBytes (H := Sample.hashingCount) 2 "seed" 10 (Some 70)
        = Some bs ∧
        10 ≤ Z.of_nat (length bs) ∧
        (10 < 70 → Z.of_nat (length bs) < 70) ∧
        (10 = 70 → Z.of_nat (length bs) = 10).
Proof.
  assert (Hlen : ∀ bs, length (Random.keccak256
                                 (Hashing := Sample.hashingCount) bs)
                       = 32%nat) by (intros bs; reflexivity).
  assert (Hbounds : 0 ≤ 10 ≤ 70) by lia.
  assert (Hsafe : 70 ≤ 2 ^ 53) by (vm_compute; discriminate).
  assert (Hroom : 70 ≤ 32 * (Z.of_nat 2 + 1)) by lia.
  split; [exact Hlen|]. split; [exact Hbounds|]. split; [exact Hsafe|].
  split; [exact Hroom|].
  exact (proj2 (randomBytes_length (H := Sample.hashingCount) 2 "seed" 10 70
                  Hlen Hbounds Hsafe Hroom)).
Defined.

Lemma randomBytes_prefix_witness :
  (∀ bs, length (Random.keccak256 (Hashing := Sample.hashingCount) bs)
         = 32%nat) ∧
  0 ≤ 40 ≤ 70 ∧ 70 ≤ 2 ^ 53 ∧ 70 ≤ 32 * (Z.of_nat 2 + 1) ∧
  ∃ b t, Random.randomBytes (H := Sample.hashingCount) 2 "seed" 40 None
         = Some b ∧
         Random.randomBytes (H := Sample.hashingCount) 2 "seed" 70 None
         = Some (b ++ t) ∧
         Z.of_nat (length b) = 40 ∧ Z.of_nat (length t) = 70 - 40.
Proof.
  assert (Hlen : ∀ bs, length (Random.keccak256
                                 (Hashing := Sample.hashingCount) bs)
                       = 32%nat) by (intros bs; reflexivity).
  assert (Hbounds : 0 ≤ 40 ≤ 70) by lia.
  assert (Hsafe : 70 ≤ 2 ^ 53) by (vm_compute; discriminate).
  assert (Hroom : 70 ≤ 32 * (Z.of_nat 2 + 1)) by lia.
  split; [exact Hlen|]. split; [exact Hbounds|]. split; [exact Hsafe|].
  split; [exact Hroom|].
  exact (randomBytes_prefix (H := Sample.hashingCount) 2 "seed" 40 70
           Hlen Hbounds Hsafe Hroom).
Defined.

Lemma randomNumber_affine_witness :
  (∀ bs, length (Random.keccak256 (Hashing := Sample.hashingCount) bs)
         = 32%nat) ∧
  - 2 ^ 53 < 10 < 2 ^ 53 ∧ - 2 ^ 53 < 5 < 2 ^ 53 ∧
  Random.randomNumber (H := Sample.hashingCount) 0 "seed" 10 5 = Some 7 ∧
  ∃ n, Random.randomNumber (H := Sample.hashingCount) 0 "seed" 10 5 = Some n ∧
       Z.min 10 5 ≤ n ≤ Z.max 10 5 ∧
       (∀ c, - 2 ^ 53 < 10 + c < 2 ^ 53 → - 2 ^ 53 < 5 + c < 2 ^ 53 →
             Random.randomNumber (H := Sample.hashingCount) 0 "seed"
               (10 + c) (5 + c) = Some (n + c)) ∧
       (∀ upper', 5 ≤ upper' → upper' < 2 ^ 53 →
          ∃ n', Random.randomNumber (H := Sample.hashingCount) 0 "seed"
                  10 upper' = Some n' ∧ n ≤ n').
Proof.
  assert (Hlen : ∀ bs, length (Random.keccak256
                                 (Hashing := Sample.hashingCount) bs)
                       = 32%nat) by (intros bs; reflexivity).
  assert (Hlo : - 2 ^ 53 < 10 < 2 ^ 53) by (split; reflexivity).
  assert (Hup : - 2 ^ 53 < 5 < 2 ^ 53) by (split; reflexivity).
  assert (Hseven : Random.randomNumber (H := Sample.hashingCount) 0 "seed" 10 5
                   = Some 7) by (vm_compute; reflexivity).
  split; [exact Hlen|]. split; [exact Hlo|]. split; [exact Hup|].
  split; [exact Hseven|].
  exact (randomNumber_affine (H := Sample.hashingCount) 0 "seed" 10 5
           Hlen Hlo Hup).
Defined.

Lemma randomHexString_canonical_witness :
  (∀ bs, length (Random.keccak256 (Hashing := Sample.hashingCount) bs)
         = 32%nat) ∧
  0 ≤ 48 ∧ 48 ≤ 2 ^ 53 ∧ 48 ≤ 32 * (Z.of_nat 1 + 1) ∧
  ∃ s, Random.randomHexString (H := Sample.hashingCount) 1 "seed" 48 None
       = Some s ∧
       isHexStr s = true ∧ toLowerCase s = s ∧ hexDataLength s = Some 48 ∧
       ∀ strict, hash48 (VStr s) strict = Ok s.
Proof.
  assert (Hlen : ∀ bs, length (Random.keccak256
                                 (Hashing := Sample.hashingCount) bs)
                       = 32%nat) by (intros bs; reflexivity).
  assert (Hpos : 0 ≤ 48) by lia.
  assert (Hsafe : 48 ≤ 2 ^ 53) by (vm_compute; discriminate).
  assert (Hroom : 48 ≤ 32 * (Z.of_nat 1 + 1)) by lia.
  split; [exact Hlen|]. split; [exact Hpos|]. split; [exact Hsafe|].
  split; [exact Hroom|].
  destruct (randomHexString_canonical (H := Sample.hashingCount) 1 "seed" 48
              Hlen Hpos Hsafe Hroom)
    as (s & Hs & Hhex & Hlow & Hbytes & _ & H48 & _).
  exact (ex_intro _ s (conj Hs (conj Hhex (conj Hlow (conj Hbytes
           (H48 eq_refl)))))).
Defined.
